(** * Pulser tutorial notebooks: noise channels, QUBO cost, register embedding

    A shallow embedding of the formula-level code of the two notebook
    files:

    - the single-qubit noise notebook: [vector_to_dm], [dm_to_vector],
      [depolarizing_channel], [dephasing_channel], the points drawn on the
      Bloch sphere and the two sweeps over them;
    - the sequence-simulation file, with the notebook on the simulation of
      sequences and the notebook on the QUBO: the ring register [coords], the
      site observables [local_magn] and [neel], the filter [large_counts],
      the brute-force enumeration of the QUBO, [evaluate_mapping] with the
      reshaping around it, [plot_distribution], [get_cost_colouring],
      [get_cost], the QAOA repetition loop with the choice of the best
      parameters, and the median amplitude [Omega].

    Python floats are idealised as real numbers ([R]); complex numbers are
    pairs of reals; a qutip [Qobj] of dimension 2 is a record of four
    complex entries.  Integer arrays are numpy's int64: integers that wrap
    around modulo 2^64.  The QUBO matrix is an array of one of the two
    dtypes, and the arithmetic on it follows its dtype.  Operations that
    numpy or Python leave undefined (division by zero, shape mismatch, a
    character that is not a digit) return [None].  The statement structure
    of every code cell is kept in [Repo], to tell where exceptions are
    handled. *)

From Stdlib Require Import String Ascii.
From Stdlib Require Import Reals Lra Lia List Arith PeanoNat Permutation Sorted NArith ZArith.
Import ListNotations.

Open Scope R_scope.

(** ** Complex numbers *)

Module Cplx.

Record C : Type := mkC { Re : R; Im : R }.

Definition C0 : C := mkC 0 0.
Definition C1 : C := mkC 1 0.
Definition Ci : C := mkC 0 1.
Definition of_real (x : R) : C := mkC x 0.

Definition add (a b : C) : C := mkC (Re a + Re b) (Im a + Im b).
Definition sub (a b : C) : C := mkC (Re a - Re b) (Im a - Im b).
Definition opp (a : C) : C := mkC (- Re a) (- Im a).
Definition mul (a b : C) : C :=
  mkC (Re a * Re b - Im a * Im b) (Re a * Im b + Im a * Re b).
Definition conj (a : C) : C := mkC (Re a) (- Im a).

(** [x * z] for a real (or integer) scalar [x]. *)
Definition scale (x : R) (z : C) : C := mkC (x * Re z) (x * Im z).

(** [z / x] for a real (or integer) divisor [x]. *)
Definition divr (z : C) (x : R) : C := mkC (Re z / x) (Im z / x).

End Cplx.

(** ** Two-dimensional operators (qutip [Qobj], numpy 2x2 arrays) *)

Module Qobj.
Import Cplx.

Record M2 : Type := mkM2 { m00 : C; m01 : C; m10 : C; m11 : C }.

(** [qutip.qeye(2)] and [np.eye(2)]. *)
Definition qeye2 : M2 := mkM2 C1 C0 C0 C1.

(** [qutip.sigmax()], [qutip.sigmay()], [qutip.sigmaz()]. *)
Definition sigmax : M2 := mkM2 C0 C1 C1 C0.
Definition sigmay : M2 := mkM2 C0 (opp Ci) Ci C0.
Definition sigmaz : M2 := mkM2 C1 C0 C0 (opp C1).

(** [a + b] and [a - b]. *)
Definition madd (a b : M2) : M2 :=
  mkM2 (add (m00 a) (m00 b)) (add (m01 a) (m01 b))
       (add (m10 a) (m10 b)) (add (m11 a) (m11 b)).
Definition msub (a b : M2) : M2 :=
  mkM2 (sub (m00 a) (m00 b)) (sub (m01 a) (m01 b))
       (sub (m10 a) (m10 b)) (sub (m11 a) (m11 b)).

(** [x * a] for a real scalar [x]. *)
Definition smul (x : R) (a : M2) : M2 :=
  mkM2 (scale x (m00 a)) (scale x (m01 a))
       (scale x (m10 a)) (scale x (m11 a)).

(** [a * b] on two [Qobj]: the operator product. *)
Definition mmul (a b : M2) : M2 :=
  mkM2 (add (mul (m00 a) (m00 b)) (mul (m01 a) (m10 b)))
       (add (mul (m00 a) (m01 b)) (mul (m01 a) (m11 b)))
       (add (mul (m10 a) (m00 b)) (mul (m11 a) (m10 b)))
       (add (mul (m10 a) (m01 b)) (mul (m11 a) (m11 b))).

(** The adjoint (conjugate transpose). *)
Definition dag (a : M2) : M2 :=
  mkM2 (conj (m00 a)) (conj (m10 a)) (conj (m01 a)) (conj (m11 a)).

Definition trace (a : M2) : C := add (m00 a) (m11 a).

(** The channel of a list of Kraus operators: the sum of [M rho M^dagger],
    starting from the zero operator. *)
Definition mzero : M2 := mkM2 C0 C0 C0 C0.

Definition kraus_apply (ops : list M2) (rho : M2) : M2 :=
  fold_left (fun acc M => madd acc (mmul (mmul M rho) (dag M))) ops mzero.

End Qobj.

(** ** The noise-channel notebook *)

Module Noise.
Import Cplx Qobj.

(** [0.5 * (qeye(2) + r_x * sigmax() + r_y * sigmay() + r_z * sigmaz())];
    Python's [+] associates to the left. *)
Definition vector_to_dm (r_x r_y r_z : R) : M2 :=
  smul (1 / 2)
    (madd (madd (madd qeye2 (smul r_x sigmax)) (smul r_y sigmay))
          (smul r_z sigmaz)).

(** [I = 2 * rho - np.eye(2)], then
    [r_x = real((I[0,1] + I[1,0]) / 2)],
    [r_y = real((I[1,0] - I[0,1]) / 2)],
    [r_z = real(I[0,0])]. *)
Definition dm_to_vector (rho : M2) : R * R * R :=
  let I := msub (smul 2 rho) qeye2 in
  let r_x := Re (divr (add (m01 I) (m10 I)) 2) in
  let r_y := Re (divr (sub (m10 I) (m01 I)) 2) in
  let r_z := Re (m00 I) in
  (r_x, r_y, r_z).

(** [(1 - 3 * prob / 4) * rho + prob / 4 * (sx * rho * sx + sy * rho * sy
    + sz * rho * sz)]. *)
Definition depolarizing_channel (rho : M2) (prob : R) : M2 :=
  madd (smul (1 - 3 * prob / 4) rho)
       (smul (prob / 4)
          (madd (madd (mmul (mmul sigmax rho) sigmax)
                      (mmul (mmul sigmay rho) sigmay))
                (mmul (mmul sigmaz rho) sigmaz))).

(** [(1 - prob / 2) * rho + prob / 2 * sigmaz() * rho * sigmaz()]; the
    second summand is parsed as [((prob / 2 * sz) * rho) * sz]. *)
Definition dephasing_channel (rho : M2) (prob : R) : M2 :=
  madd (smul (1 - prob / 2) rho)
       (mmul (mmul (smul (prob / 2) sigmaz) rho) sigmaz).

(** The Kraus operators given in the notebook's text. *)
Definition dephasing_kraus (p : R) : list M2 :=
  [ smul (sqrt (1 - p / 2)) qeye2; smul (sqrt (p / 2)) sigmaz ].

Definition depolarizing_kraus (p : R) : list M2 :=
  [ smul (sqrt (1 - 3 * p / 4)) qeye2;
    smul (sqrt (p / 4)) sigmax;
    smul (sqrt (p / 4)) sigmay;
    smul (sqrt (p / 4)) sigmaz ].

End Noise.

(** ** Failure as [option]: a small error monad *)

Module Err.

Definition bind {A B : Type} (m : option A) (k : A -> option B) : option B :=
  match m with
  | Some a => k a
  | None => None
  end.

(** Evaluate every element in order; the first failure aborts the whole. *)
Fixpoint mapM {A B : Type} (f : A -> option B) (l : list A)
  : option (list B) :=
  match l with
  | [] => Some []
  | a :: t =>
      bind (f a) (fun b => bind (mapM f t) (fun bs => Some (b :: bs)))
  end.

End Err.

Notation "x <- m ;; k" := (Err.bind m (fun x => k))
  (at level 61, m at next level, right associativity).

(** ** numpy's int64: integers that wrap around *)

Module Int64.

(** What an int64 holds when the exact result of an operation is [z]: the
    representative of [z] modulo 2^64 between -2^63 and 2^63 - 1.  numpy
    wraps around silently in arrays and under a RuntimeWarning on scalars. *)
Definition wrap (z : Z) : Z := ((z + 2 ^ 63) mod 2 ^ 64 - 2 ^ 63)%Z.

Definition add (a b : Z) : Z := wrap (a + b).
Definition mul (a b : Z) : Z := wrap (a * b).

(** A sum accumulated in int64, from [0]. *)
Definition sum (l : list Z) : Z := fold_left add l 0%Z.

Definition in_range (z : Z) : Prop := (- 2 ^ 63 <= z < 2 ^ 63)%Z.

End Int64.

(** ** numpy arrays: vectors and two-dimensional arrays *)

Module Np.

Abbreviation vector := (list R).
Abbreviation matrix := (list (list R)).

(** Python's [sum]: a left fold that starts from [0]. *)
Definition py_sum (l : list R) : R := fold_left Rplus l 0.

(** Number of columns of a two-dimensional array (0 when it has no row). *)
Definition width (A : matrix) : nat :=
  match A with
  | [] => 0%nat
  | r :: _ => length r
  end.

Definition entry (A : matrix) (i j : nat) : R := nth j (nth i A []) 0.

(** [u @ v] on one-dimensional arrays: the lengths must agree. *)
Definition dot (u v : vector) : option R :=
  if (length u =? length v)%nat
  then Some (py_sum (map (fun ab => fst ab * snd ab) (combine u v)))
  else None.

(** [z @ Q] for one-dimensional [z] and two-dimensional [Q]: [len(z)] must
    be the number of rows; component [j] is the sum of [z[i] * Q[i][j]]. *)
Definition vecmat (z : vector) (Q : matrix) : option vector :=
  if (length z =? length Q)%nat
  then Some (map (fun j =>
                    py_sum (map (fun zr => fst zr * nth j (snd zr) 0)
                                (combine z Q)))
                 (seq 0 (width Q)))
  else None.

(** The same two products on int64 arrays: every product and every partial
    sum is an int64. *)
Definition width_int (A : list (list Z)) : nat :=
  match A with
  | [] => 0%nat
  | r :: _ => length r
  end.

Definition dot_int (u v : list Z) : option Z :=
  if (length u =? length v)%nat
  then Some (Int64.sum (map (fun ab => Int64.mul (fst ab) (snd ab))
                            (combine u v)))
  else None.

Definition vecmat_int (z : list Z) (Q : list (list Z)) : option (list Z) :=
  if (length z =? length Q)%nat
  then Some (map (fun j =>
                    Int64.sum (map (fun zr =>
                                      Int64.mul (fst zr) (nth j (snd zr) 0%Z))
                                   (combine z Q)))
                 (seq 0 (width_int Q)))
  else None.

(** A two-dimensional array as numpy holds it: of dtype float64, idealised
    as an array of reals, or of dtype int64.  [np.array] of a nested list
    of Python floats gives the first, of Python ints the second. *)
Inductive ndarray : Type :=
| FloatArray (Q : matrix)
| IntArray (Q : list (list Z)).

(** [len(Q)]: the number of rows. *)
Definition len (Q : ndarray) : nat :=
  match Q with
  | FloatArray Q => length Q
  | IntArray Q => length Q
  end.

(** A numpy scalar: [np.float64] or [np.int64]. *)
Inductive scalar : Type :=
| FloatScalar (x : R)
| IntScalar (z : Z).

(** The number a scalar stands for; also its conversion to float64. *)
Definition value (s : scalar) : R :=
  match s with
  | FloatScalar x => x
  | IntScalar z => IZR z
  end.

(** [a + b] on scalars: two int64 add in int64, otherwise the sum is a
    float64. *)
Definition plus (a b : scalar) : scalar :=
  match a, b with
  | IntScalar a, IntScalar b => IntScalar (Int64.add a b)
  | _, _ => FloatScalar (value a + value b)
  end.

(** Python's [sum] over numpy scalars: a left fold that starts from the
    Python int [0]. *)
Definition sum_scalars (l : list scalar) : scalar :=
  fold_left plus l (IntScalar 0).

(** Broadcasting of one axis: equal extents, or one of them is 1. *)
Definition bdim (a b : nat) : option nat :=
  if (a =? b)%nat then Some a
  else if (a =? 1)%nat then Some b
  else if (b =? 1)%nat then Some a
  else None.

(** Index into an axis of extent [a] under broadcasting. *)
Definition bidx (a i : nat) : nat := if (a =? 1)%nat then 0%nat else i.

(** [A - B] on two-dimensional arrays, with numpy's broadcasting. *)
Definition bsub (A B : matrix) : option matrix :=
  r <- bdim (length A) (length B) ;;
  c <- bdim (width A) (width B) ;;
  Some (map (fun i =>
               map (fun j =>
                      entry A (bidx (length A) i) (bidx (width A) j)
                      - entry B (bidx (length B) i) (bidx (width B) j))
                   (seq 0 c))
            (seq 0 r)).

(** [np.linalg.norm] of a two-dimensional real array: the Frobenius norm. *)
Definition norm (A : matrix) : R :=
  sqrt (py_sum (map (fun x => x * x) (concat A))).

(** [np.reshape(v, (rows, cols))] of a flat array, row-major. *)
Fixpoint chunks (cols rows : nat) (v : vector) : matrix :=
  match rows with
  | O => []
  | S r => firstn cols v :: chunks cols r (skipn cols v)
  end.

Definition reshape (v : vector) (shape : nat * nat) : option matrix :=
  let (rows, cols) := shape in
  if (length v =? rows * cols)%nat then Some (chunks cols rows v) else None.

(** [c / d] elementwise.  A zero divisor (numpy: [inf] or [nan] under a
    RuntimeWarning) has no value in exact arithmetic. *)
Definition div_scalar_by (c : R) (d : vector) : option vector :=
  Err.mapM (fun x => if Req_dec_T x 0 then None else Some (c / x)) d.

End Np.

(** ** scipy.spatial.distance: [pdist] and [squareform] *)

Module Scipy.
Import Np.

(** Euclidean distance of two rows. *)
Definition euclidean (u v : vector) : R :=
  sqrt (py_sum (map (fun ab => (fst ab - snd ab) * (fst ab - snd ab))
                    (combine u v))).

(** Condensed distance vector: (0,1), (0,2), ..., (1,2), ... *)
Fixpoint pdist (X : matrix) : vector :=
  match X with
  | [] => []
  | p :: ps => map (euclidean p) ps ++ pdist ps
  end.

(** The strict upper triangle, row by row, read off a condensed vector:
    row [i] of a [d x d] matrix takes the next [d - 1 - i] entries. *)
Fixpoint upper_rows (d : nat) (v : vector) : matrix :=
  match d with
  | O => []
  | S d' => firstn d' v :: upper_rows d' (skipn d' v)
  end.

Definition sq_entry (U : matrix) (i j : nat) : R :=
  if (i <? j)%nat then nth (j - i - 1) (nth i U []) 0
  else if (j <? i)%nat then nth (i - j - 1) (nth j U []) 0
  else 0.

Definition to_squareform (d : nat) (v : vector) : matrix :=
  let U := upper_rows d v in
  map (fun i => map (fun j => sq_entry U i j) (seq 0 d)) (seq 0 d).

(** [squareform(v)] on a vector: an empty vector gives the 1x1 zero
    matrix; otherwise [d = ceil(sqrt(2 * len(v)))] and [d * (d - 1)] must be
    [2 * len(v)]. *)
Definition squareform (v : vector) : option matrix :=
  let k := length v in
  if (k =? 0)%nat then Some [[0]]
  else
    let d := Nat.sqrt_up (2 * k) in
    if (d * (d - 1) =? 2 * k)%nat then Some (to_squareform d v) else None.

End Scipy.

(** ** QUBO cost of a bitstring and of a counter of samples *)

Module Qubo.
Import Np.

(** [int(c)] for a one-character string: a decimal digit, or ValueError. *)
Definition int_of_char (c : ascii) : option Z :=
  let n := nat_of_ascii c in
  if andb (48 <=? n)%nat (n <=? 57)%nat then Some (Z.of_nat (n - 48)) else None.

(** [np.array(list(bitstring), dtype=int)]. *)
Definition int_array (bitstring : string) : option (list Z) :=
  Err.mapM int_of_char (list_ascii_of_string bitstring).

(** [z = np.array(list(bitstring), dtype=int); cost = z.T @ Q @ z]; the
    transpose of a one-dimensional array is itself and [@] associates to the
    left.  [z] is an int64 array: against a float64 [Q] it is converted and
    the products are floats, against an int64 [Q] both products are
    computed in int64. *)
Definition get_cost_colouring (bitstring : string) (Q : ndarray)
  : option scalar :=
  z <- int_array bitstring ;;
  match Q with
  | FloatArray Q =>
      let zr := map IZR z in
      v <- vecmat zr Q ;;
      x <- dot v zr ;;
      Some (FloatScalar x)
  | IntArray Q =>
      v <- vecmat_int z Q ;;
      x <- dot_int v z ;;
      Some (IntScalar x)
  end.

(** A counter is an insertion-ordered dict from bitstrings to counts. *)
Definition counter : Type := list (string * nat).

Definition keys (c : counter) : list string := map fst c.
Definition values (c : counter) : list nat := map snd c.

(** [counter[key]]. *)
Fixpoint getitem (c : counter) (key : string) : option nat :=
  match c with
  | [] => None
  | (k, n) :: t => if String.eqb k key then Some n else getitem t key
  end.

(** [counter[key] * cost], a Python int (a count, below 2^63) times a numpy
    scalar: a float64 stays a float64, an int64 stays an int64. *)
Definition times (n : nat) (x : scalar) : scalar :=
  match x with
  | FloatScalar x => FloatScalar (INR n * x)
  | IntScalar z => IntScalar (Int64.mul (Z.of_nat n) z)
  end.

(** [cost = sum(counter[key] * get_cost_colouring(key, Q) for key in counter)]
    [return cost / sum(counter.values())].
    The division is a true division: an int64 [cost] is converted to
    float64.  When the total is zero Python raises ZeroDivisionError on its
    own numbers and numpy yields [nan] or [inf] under a RuntimeWarning on
    its scalars; neither is a value of exact arithmetic, hence [None]. *)
Definition get_cost (c : counter) (Q : ndarray) : option R :=
  terms <- Err.mapM (fun key =>
                       n <- getitem c key ;;
                       x <- get_cost_colouring key Q ;;
                       Some (times n x))
                    (keys c) ;;
  let cost := sum_scalars terms in
  let total := fold_left Nat.add (values c) 0%nat in
  if (total =? 0)%nat then None else Some (value cost / INR total).

End Qubo.

(** ** Embedding a QUBO onto an atomic register *)

Module Embedding.
Import Np Scipy.

Section WithDevice.

(** [DigitalAnalogDevice.interaction_coeff], a constant of the device. *)
Variable interaction_coeff : R.

(** [Q, shape = args]
    [new_coords = np.reshape(new_coords, shape)]
    [new_Q = squareform(interaction_coeff / pdist(new_coords) ** 6)]
    [return np.linalg.norm(new_Q - Q)]. *)
Definition evaluate_mapping (new_coords : vector) (Q : matrix)
    (shape : nat * nat) : option R :=
  X <- reshape new_coords shape ;;
  w <- div_scalar_by interaction_coeff (map (fun d => d ^ 6) (pdist X)) ;;
  new_Q <- squareform w ;;
  D <- bsub new_Q Q ;;
  Some (norm D).

End WithDevice.

End Embedding.

(** ** The ring register of the antiferromagnet sequence *)

Module RingRegister.

Section WithRadius.

(** [pulser.devices.MockDevice.rydberg_blockade_radius(Omega_max)]. *)
Variable R_interatomic : R.

Definition L : nat := 14.

(** One row of the array: [R_interatomic / (2 * tan(pi / L))] times
    [(cos(theta * 2 * pi / L), sin(theta * 2 * pi / L))]. *)
Definition ring_point (theta : nat) : R * R :=
  let k := R_interatomic / (2 * tan (PI / INR L)) in
  (k * cos (INR theta * 2 * PI / INR L),
   k * sin (INR theta * 2 * PI / INR L)).

(** [coords]: one row for each [theta in range(L)]. *)
Definition coords : list (R * R) := map ring_point (seq 0 L).

End WithRadius.

(** Distance of two atoms of a register. *)
Definition distance (p q : R * R) : R :=
  sqrt ((fst p - fst q) * (fst p - fst q) + (snd p - snd q) * (snd p - snd q)).

End RingRegister.

(** ** The QAOA repetition loop *)

Module Qaoa.

(** What a [raise] carries, as far as an [except Exception] clause can
    tell: the class derives from [Exception], or only from [BaseException]
    ([KeyboardInterrupt], [SystemExit], [GeneratorExit]). *)
Inductive exc_root : Type := FromException | FromBaseExceptionOnly.

Record py_exc : Type := mkExc { exc_class : string; exc_root_of : exc_root }.

Definition isinstance_Exception (e : py_exc) : bool :=
  match exc_root_of e with
  | FromException => true
  | FromBaseExceptionOnly => false
  end.

Inductive outcome (A : Type) : Type :=
| Returns (a : A)
| Raises (e : py_exc).
Arguments Returns {A} a.
Arguments Raises {A} e.

(** scipy's [OptimizeResult], the two fields the loop reads. *)
Record OptimizeResult : Type := mkRes { res_fun : R; res_x : list R }.

(** The two lists the loop appends to, and the rest of the interpreter
    (random generator, emulator) as an abstract world. *)
Record loop_state (World : Type) : Type := mkLoop {
  world : World;
  scores : list R;
  params : list (list R)
}.
Arguments mkLoop {World} _ _ _.
Arguments world {World} _.
Arguments scores {World} _.
Arguments params {World} _.

(** How a statement ends: normally, or with an exception on its way up. *)
Inductive completion (S : Type) : Type :=
| Normal (s : S)
| Propagates (e : py_exc) (s : S).
Arguments Normal {S} s.
Arguments Propagates {S} e s.

Section Loop.

Variable World : Type.

(** The two [np.random.uniform(1, 10, LAYERS)] draws of a repetition. *)
Variable draw_guess : World -> World * (list R * list R).

(** [minimize(func, args=Q, x0=..., method="Nelder-Mead", ...)]. *)
Variable minimize : World -> list R -> World * outcome OptimizeResult.

(** One pass through the body of the [for]:
    the guess, then [try: res = minimize(...); scores.append(res.fun);
    params.append(res.x)  except Exception as e: pass]. *)
Definition repetition (st : loop_state World) : completion (loop_state World) :=
  let (w1, guess) := draw_guess (world st) in
  let x0 := fst guess ++ snd guess in
  let (w2, r) := minimize w1 x0 in
  match r with
  | Returns res =>
      Normal (mkLoop w2 (scores st ++ [res_fun res]) (params st ++ [res_x res]))
  | Raises e =>
      if isinstance_Exception e
      then Normal (mkLoop w2 (scores st) (params st))
      else Propagates e (mkLoop w2 (scores st) (params st))
  end.

(** [for repetition in range(n)]. *)
Fixpoint run_loop (n : nat) (st : loop_state World)
  : completion (loop_state World) :=
  match n with
  | O => Normal st
  | S k =>
      match repetition st with
      | Normal st' => run_loop k st'
      | Propagates e st' => Propagates e st'
      end
  end.

(** [scores = []; params = []; ... for repetition in range(10): ...]. *)
Definition qaoa_loop (w : World) : completion (loop_state World) :=
  run_loop 10 (mkLoop w [] []).

End Loop.

End Qaoa.

(** ** The formulas of the specification, written independently of the code *)

Module Spec.
Import Np.

(** The sum of [f 0 + ... + f (n - 1)]. *)
Fixpoint sum_upto (n : nat) (f : nat -> R) : R :=
  match n with
  | O => 0
  | S k => sum_upto k f + f k
  end.

(** A string of ['0'] and ['1'] of length [n]. *)
Definition is_bit (c : ascii) : bool :=
  orb (Ascii.eqb c "0"%char) (Ascii.eqb c "1"%char).

Definition is_bitstring (n : nat) (b : string) : bool :=
  andb (String.length b =? n)%nat (forallb is_bit (list_ascii_of_string b)).

(** The 0/1 vector of a bitstring. *)
Definition bit_vector (b : string) : list R :=
  map (fun c => if Ascii.eqb c "1"%char then 1 else 0)
      (list_ascii_of_string b).

(** [z^T Q z] as the double sum of [z_i * Q_ij * z_j]. *)
Definition qubo_form (Q : matrix) (z : list R) : R :=
  sum_upto (length z) (fun i =>
    sum_upto (length z) (fun j => nth i z 0 * entry Q i j * nth j z 0)).

(** The number of samples of a counter. *)
Definition total_count (c : Qubo.counter) : nat :=
  fold_right (fun kv acc => (snd kv + acc)%nat) 0%nat c.

(** The sample-weighted average of the QUBO cost. *)
Definition weighted_cost (c : Qubo.counter) (Q : matrix) : R :=
  fold_right (fun kv acc => INR (snd kv) * qubo_form Q (bit_vector (fst kv)) + acc)
             0 c
  / INR (total_count c).

(** The sample-weighted sum of the QUBO cost: the numerator. *)
Definition weighted_sum (c : Qubo.counter) (Q : matrix) : R :=
  fold_right (fun kv acc => INR (snd kv) * qubo_form Q (bit_vector (fst kv)) + acc)
             0 c.

(** The entries of an array as real numbers. *)
Definition to_real (Q : ndarray) : matrix :=
  match Q with
  | FloatArray Q => Q
  | IntArray Q => map (map IZR) Q
  end.

(** The quotient of the weighted sum by the total count; a quotient by
    zero has no value. *)
Definition weighted_average (c : Qubo.counter) (Q : ndarray) : option R :=
  if (total_count c =? 0)%nat then None
  else Some (weighted_cost c (to_real Q)).

(** A number that an int64 can hold. *)
Definition fits_int64 (x : R) : Prop :=
  - 9223372036854775808 <= x < 9223372036854775808.

(** The weighted sum is computed in floats, or in int64 without leaving
    its range. *)
Definition sum_fits (c : Qubo.counter) (Q : ndarray) : Prop :=
  match Q with
  | FloatArray _ => True
  | IntArray _ => fits_int64 (weighted_sum c (to_real Q))
  end.

(** The cost of every 0/1 string of length [n] is computed in floats, or
    in int64 without leaving its range. *)
Definition costs_fit (n : nat) (Q : ndarray) : Prop :=
  match Q with
  | FloatArray _ => True
  | IntArray _ =>
      forall b, is_bitstring n b = true ->
                fits_int64 (qubo_form (to_real Q) (bit_vector b))
  end.

(** Every key is a 0/1 string of length [n], and no key occurs twice. *)
Definition well_formed_counter (n : nat) (c : Qubo.counter) : Prop :=
  NoDup (Qubo.keys c)
  /\ Forall (fun b => is_bitstring n b = true) (Qubo.keys c).

(** An [n x n] array. *)
Definition is_square (n : nat) (Q : matrix) : Prop :=
  length Q = n /\ Forall (fun r => length r = n) Q.

(** An [n x n] array of either dtype; an int64 array holds int64 values. *)
Definition is_square_array (n : nat) (Q : ndarray) : Prop :=
  match Q with
  | FloatArray Q => is_square n Q
  | IntArray Q =>
      length Q = n /\ Forall (fun r => length r = n) Q
      /\ Forall (Forall Int64.in_range) Q
  end.

(** Point [i] of a flat coordinate vector read as rows of two. *)
Definition point (v : vector) (i : nat) : R * R :=
  (nth (2 * i) v 0, nth (2 * i + 1) v 0).

Definition pairwise_distinct (n : nat) (v : vector) : Prop :=
  forall i j : nat, (i < n)%nat -> (j < n)%nat -> i <> j -> point v i <> point v j.

Definition dist (p q : R * R) : R :=
  sqrt ((fst p - fst q) ^ 2 + (snd p - snd q) ^ 2).

(** Zero on the diagonal, [coeff / d(p_i, p_j)^6] off it. *)
Definition new_Q (coeff : R) (v : vector) (i j : nat) : R :=
  if (i =? j)%nat then 0 else coeff / dist (point v i) (point v j) ^ 6.

(** The Frobenius norm of [new_Q - Q] over the [n x n] entries. *)
Definition mapping_cost (coeff : R) (n : nat) (v : vector) (Q : matrix) : R :=
  sqrt (sum_upto n (fun i =>
          sum_upto n (fun j => (new_Q coeff v i j - entry Q i j) ^ 2))).

End Spec.

(** ** Auxiliary views of the condensed distance vector *)

Module Condensed.

(** All values [g p q] for [p] before [q] in [X], in the order of [pdist]. *)
Fixpoint pairs_with {A : Type} (g : A -> A -> R) (X : list A) : list R :=
  match X with
  | [] => []
  | p :: ps => map (g p) ps ++ pairs_with g ps
  end.

(** The same values, one list for each first element. *)
Fixpoint tails_rows {A : Type} (g : A -> A -> R) (X : list A)
  : list (list R) :=
  match X with
  | [] => []
  | p :: ps => map (g p) ps :: tails_rows g ps
  end.

End Condensed.

(** ** The sweeps over the points of the Bloch sphere *)

Module Sweep.
Import Cplx Qobj Noise.

(** The body of the two sweeps:
    [dm = vector_to_dm(x[i, j], y[i, j], z[i, j])]
    [dm_n = channel(dm, prob)]
    [r_x, r_y, r_z = dm_to_vector(dm_n)]. *)
Definition sweep_point (channel : M2 -> R -> M2) (prob : R) (x y z : R)
  : R * R * R :=
  let dm := vector_to_dm x y z in
  let dm_n := channel dm prob in
  dm_to_vector dm_n.

(** An operator equal to its adjoint. *)
Definition is_hermitian (rho : M2) : Prop := dag rho = rho.

(** The squared length of a Bloch vector. *)
Definition norm2 (r : R * R * R) : R :=
  let '(r_x, r_y, r_z) := r in r_x * r_x + r_y * r_y + r_z * r_z.

End Sweep.

(** ** Python's [sorted] *)

Module PySort.

(** [sorted] is stable: elements whose keys compare equal keep their input
    order.  The result of a stable sort is unique, so it is modelled by the
    stable insertion sort; [le a b] decides [key(a) <= key(b)].  With
    [reverse=True] the comparison is turned around and equal keys still keep
    their input order. *)
Fixpoint insert {A : Type} (le : A -> A -> bool) (x : A) (l : list A)
  : list A :=
  match l with
  | [] => [x]
  | y :: t => if le x y then x :: y :: t else y :: insert le x t
  end.

Definition sorted {A : Type} (le : A -> A -> bool) (l : list A) : list A :=
  fold_right (insert le) [] l.

(** Comparison of floats, as a boolean. *)
Definition Rleb (a b : R) : bool := if Rle_dec a b then true else false.

End PySort.

(** ** The brute-force enumeration of the QUBO *)

Module Enumerate.
Import Np Qubo PySort.

(** [bin(num)[2:]] for a positive [num]: binary digits, first the highest. *)
Fixpoint pos_bits (p : positive) : list ascii :=
  match p with
  | xH => ["1"%char]
  | xO p' => pos_bits p' ++ ["0"%char]
  | xI p' => pos_bits p' ++ ["1"%char]
  end.

(** [s.zfill(w)] on a string of digits. *)
Definition zfill (w : nat) (l : list ascii) : list ascii :=
  repeat "0"%char (w - length l) ++ l.

(** [np.binary_repr(num, width)] for [num >= 0]: ['0' * (width or 1)] for
    zero, else the digits of [num] filled with zeros to
    [max(len(digits), width)]. *)
Definition binary_repr (num : N) (width : nat) : string :=
  match num with
  | N0 =>
      string_of_list_ascii
        (repeat "0"%char (if (width =? 0)%nat then 1%nat else width))
  | Npos p =>
      let binary := pos_bits p in
      string_of_list_ascii (zfill (Nat.max (length binary) width) binary)
  end.

(** [[np.binary_repr(i, n) for i in range(2 ** n)]]. *)
Definition bitstrings (n : nat) : list string :=
  map (fun i => binary_repr (N.of_nat i) n) (seq 0 (2 ^ n)).

(** [bitstrings = ...; costs = []]
    [for b in bitstrings: z = np.array(list(b), dtype=int);
     cost = z.T @ Q @ z; costs.append(cost)]
    [zipped = zip(bitstrings, costs)]
    [sort_zipped = sorted(zipped, key=lambda x: x[1])]. *)
Definition sort_zipped (Q : ndarray) : option (list (string * scalar)) :=
  let bs := bitstrings (len Q) in
  costs <- Err.mapM (fun b => get_cost_colouring b Q) bs ;;
  let zipped := combine bs costs in
  Some (sorted (fun x y => Rleb (value (snd x)) (value (snd y))) zipped).

(** [sort_zipped[:3]], what the cell prints. *)
Definition printed (Q : ndarray) : option (list (string * scalar)) :=
  l <- sort_zipped Q ;; Some (firstn 3 l).

(** [int(b, 2)] on a string of binary digits (used to state properties). *)
Fixpoint int_base2 (l : list ascii) (acc : N) : N :=
  match l with
  | [] => acc
  | c :: t =>
      int_base2 t (2 * acc + (if Ascii.eqb c "1"%char then 1 else 0))%N
  end.

(** All lists of ['0'] and ['1'] of a given length. *)
Fixpoint all_bits (n : nat) : list (list ascii) :=
  match n with
  | O => [[]]
  | S k => map (cons "0"%char) (all_bits k) ++ map (cons "1"%char) (all_bits k)
  end.

End Enumerate.

(** ** Views used to state properties of the counters *)

Module CounterViews.
Import Np Qubo PySort.

(** The pairs whose cost compares equal to [c]. *)
Definition same_cost (c : R) (x : string * scalar) : bool :=
  andb (Rleb c (value (snd x))) (Rleb (value (snd x)) c).

(** The 0/1 vector of a bitstring, as integers. *)
Definition bit_vector_int (b : string) : list Z :=
  map (fun c => if Ascii.eqb c "1"%char then 1%Z else 0%Z)
      (list_ascii_of_string b).

(** The two products and the sum of [get_cost] in exact integers, with
    nothing wrapped. *)
Definition sum_exact (l : list Z) : Z := fold_left Z.add l 0%Z.

Definition dot_exact (u v : list Z) : Z :=
  sum_exact (map (fun ab => (fst ab * snd ab)%Z) (combine u v)).

Definition vecmat_exact (z : list Z) (Q : list (list Z)) : list Z :=
  map (fun j => sum_exact (map (fun zr => (fst zr * nth j (snd zr) 0)%Z)
                               (combine z Q)))
      (seq 0 (width_int Q)).

Definition form_exact (Q : list (list Z)) (b : string) : Z :=
  dot_exact (vecmat_exact (bit_vector_int b) Q) (bit_vector_int b).

Definition weighted_sum_exact (c : counter) (Q : list (list Z)) : Z :=
  sum_exact (map (fun kv => (Z.of_nat (snd kv) * form_exact Q (fst kv))%Z) c).

(** The cost the code pairs with a 0/1 string: the quadratic form in
    floats, or the quadratic form wrapped into an int64. *)
Definition computed_cost (Q : ndarray) (b : string) : scalar :=
  match Q with
  | FloatArray Q => FloatScalar (Spec.qubo_form Q (Spec.bit_vector b))
  | IntArray Q => IntScalar (Int64.wrap (form_exact Q b))
  end.

(** Every count multiplied by [k], as when [k] times more samples fall in
    the same proportions. *)
Definition scale_counts (k : nat) (c : counter) : counter :=
  map (fun kv => (fst kv, (k * snd kv)%nat)) c.

(** [get_cost] read on a float array: every number is a float. *)
Definition float_colouring (bitstring : string) (Q : matrix) : option R :=
  z <- int_array bitstring ;;
  let zr := map IZR z in
  v <- vecmat zr Q ;;
  dot v zr.

Definition float_cost (c : counter) (Q : matrix) : option R :=
  terms <- Err.mapM (fun key =>
                       n <- getitem c key ;;
                       x <- float_colouring key Q ;;
                       Some (INR n * x))
                    (keys c) ;;
  let total := fold_left Nat.add (values c) 0%nat in
  if (total =? 0)%nat then None else Some (py_sum terms / INR total).

(** [get_cost] read on an int64 array: every number before the division
    is an int64. *)
Definition int_colouring (bitstring : string) (Q : list (list Z)) : option Z :=
  z <- int_array bitstring ;;
  v <- vecmat_int z Q ;;
  dot_int v z.

Definition int_cost (c : counter) (Q : list (list Z)) : option R :=
  terms <- Err.mapM (fun key =>
                       n <- getitem c key ;;
                       x <- int_colouring key Q ;;
                       Some (Int64.mul (Z.of_nat n) x))
                    (keys c) ;;
  let total := fold_left Nat.add (values c) 0%nat in
  if (total =? 0)%nat then None else Some (IZR (Int64.sum terms) / INR total).

(** On an int64 array: well-formed input whose weighted sum stays within
    the int64 range.  Nothing is asked of a float array. *)
Definition exact_on (n : nat) (c : counter) (Q : ndarray) : Prop :=
  match Q with
  | FloatArray _ => True
  | IntArray _ =>
      Spec.is_square_array n Q /\ Spec.well_formed_counter n c
      /\ Spec.sum_fits c Q
  end.

End CounterViews.

(** ** Around the embedding: flattening, the diagonal, moving the register *)

Module EmbeddingViews.
Import Np.

(** [a.flatten()] of a two-dimensional array: its rows one after another. *)
Definition flatten (X : matrix) : vector := concat X.

(** [np.diag(Q)] on a two-dimensional array: the main diagonal. *)
Definition diag_of_matrix (Q : matrix) : vector :=
  map (fun i => entry Q i i) (seq 0 (Nat.min (length Q) (width Q))).

(** [np.diag(d)] on a one-dimensional array: the diagonal matrix. *)
Definition diag_of_vector (d : vector) : matrix :=
  map (fun i => map (fun j => if (i =? j)%nat then nth i d 0 else 0)
                    (seq 0 (length d)))
      (seq 0 (length d)).

(** [Q - np.diag(np.diag(Q))]. *)
Definition without_diagonal (Q : matrix) : option matrix :=
  bsub Q (diag_of_vector (diag_of_matrix Q)).

(** The flat coordinate vector of the register moved by [(a, b)]. *)
Fixpoint translate (a b : R) (v : vector) : vector :=
  match v with
  | x :: y :: t => (x + a) :: (y + b) :: translate a b t
  | _ => v
  end.

End EmbeddingViews.

(** ** After the QAOA loop: the best parameters *)

Module Best.
Import Qaoa.

(** The scan of [np.argmin]: the first index of the smallest element. *)
Fixpoint argmin_from (l : list R) (i : nat) (best : R) (besti : nat) : nat :=
  match l with
  | [] => besti
  | x :: t =>
      if Rlt_dec x best then argmin_from t (S i) x i
      else argmin_from t (S i) best besti
  end.

(** [np.argmin(l)]; ValueError on an empty sequence. *)
Definition np_argmin (l : list R) : option nat :=
  match l with
  | [] => None
  | x :: t => Some (argmin_from t 1 x 0)
  end.

(** [params[np.argmin(scores)]], the argument of the last [quantum_loop]. *)
Definition optimal_params {World : Type} (st : loop_state World)
  : option (list R) :=
  i <- np_argmin (scores st) ;; nth_error (params st) i.

End Best.

(** ** Counters as they are filtered and drawn *)

Module Counts.
Import Qubo PySort.

(** [large_counts = {k: v for k, v in counts.items() if v > 5}]. *)
Definition large_counts (counts : counter) : counter :=
  filter (fun kv => (5 <? snd kv)%nat) counts.

(** [indexes = ["01011", "00111"]]. *)
Definition indexes : list string := ["01011"%string; "00111"%string].

(** ["r" if key in indexes else "g"]. *)
Definition colour (key : string) : string :=
  if existsb (String.eqb key) indexes then "r"%string else "g"%string.

(** What [plot_distribution] hands to [plt.bar]:
    [C = dict(sorted(C.items(), key=lambda item: item[1], reverse=True))]
    [color_dict = {key: "r" if key in indexes else "g" for key in C}]
    [plt.bar(C.keys(), C.values(), ..., color=color_dict.values())]. *)
Definition plot_distribution (C : counter)
  : list string * list nat * list string :=
  let C' := sorted (fun x y => (snd y <=? snd x)%nat) C in
  (keys C', values C', map colour (keys C')).

End Counts.

(** ** Observables built from lists of one-qubit operators *)

Module Observables.
Import Qobj.

(** A Python index into a list of length [len]: negative indices count
    from the end; outside [[-len, len)] the access raises IndexError. *)
Definition py_index (len : nat) (i : Z) : option nat :=
  if andb (0 <=? i)%Z (i <? Z.of_nat len)%Z then Some (Z.to_nat i)
  else if andb (- Z.of_nat len <=? i)%Z (i <? 0)%Z
       then Some (Z.to_nat (Z.of_nat len + i))
       else None.

Fixpoint set_nth {A : Type} (n : nat) (x : A) (l : list A) {struct l}
  : list A :=
  match l with
  | [] => []
  | a :: t =>
      match n with
      | O => x :: t
      | S k => a :: set_nth k x t
      end
  end.

(** [l[i] = x]. *)
Definition setitem {A : Type} (l : list A) (i : Z) (x : A)
  : option (list A) :=
  n <- py_index (length l) i ;; Some (set_nth n x l).

Section WithTensor.

(** [qutip.tensor], from a list of operators to an operator of the
    register. *)
Variable T : Type.
Variable tensor : list M2 -> T.

(** [prod = L * [qutip.qeye(2)]; prod[i] = qutip.sigmaz();
    return qutip.tensor(prod)]. *)
Definition local_magn (i : Z) : option T :=
  let prod := repeat qeye2 RingRegister.L in
  prod <- setitem prod i sigmaz ;;
  Some (tensor prod).

(** [prod = L * [qutip.qeye(2)]; prod[i] = qutip.sigmaz();
    prod[j] = qutip.sigmaz(); return qutip.tensor(prod)]. *)
Definition neel (i j : Z) : option T :=
  let prod := repeat qeye2 RingRegister.L in
  prod <- setitem prod i sigmaz ;;
  prod <- setitem prod j sigmaz ;;
  Some (tensor prod).

(** The terms of [neel_av]: [[neel(i, (i + 1) % L) for i in range(L)]]. *)
Definition neel_terms : option (list T) :=
  Err.mapM (fun i : nat =>
              neel (Z.of_nat i)
                   ((Z.of_nat i + 1) mod Z.of_nat RingRegister.L)%Z)
           (seq 0 RingRegister.L).

End WithTensor.

End Observables.

(** ** The amplitude of the adiabatic pulse *)

Module Amplitude.
Import Np PySort.

(** [Q[Q > 0].flatten()]: the positive entries, row by row. *)
Definition positive_entries (Q : matrix) : vector :=
  filter (fun x => if Rlt_dec 0 x then true else false) (concat Q).

(** [np.median]: the middle element of the sorted values, or the mean of
    the two middle ones; no value ([nan]) on an empty array. *)
Definition np_median (l : vector) : option R :=
  let s := sorted Rleb l in
  let n := length s in
  if (n =? 0)%nat then None
  else if Nat.even n
       then Some ((nth (n / 2 - 1) s 0 + nth (n / 2) s 0) / 2)
       else Some (nth (n / 2) s 0).

(** [Omega = np.median(Q[Q > 0].flatten())]. *)
Definition Omega (Q : matrix) : option R := np_median (positive_entries Q).

End Amplitude.

(** ** The points drawn on the Bloch sphere *)

Module BlochPoints.
Import Np EmbeddingViews.

(** [np.linspace(start, stop, num)]. *)
Definition linspace (start stop : R) (num : nat) : vector :=
  map (fun k => start + INR k * ((stop - start) / INR (num - 1))) (seq 0 num).

(** [np.outer(a, b)]. *)
Definition outer (a b : vector) : matrix :=
  map (fun x => map (fun y => x * y) b) a.

(** [r * A] for a scalar [r]. *)
Definition scale (r : R) (A : matrix) : matrix := map (map (Rmult r)) A.

(** [u = np.linspace(0, 2 * np.pi, 20); v = np.linspace(0, np.pi, 20)]
    [r = 1; n = len(u)]
    [x = r * np.reshape(np.outer(np.cos(u), np.sin(v)), (n**2, 1))]
    [y = r * np.reshape(np.outer(np.sin(u), np.sin(v)), (n**2, 1))]
    [z = r * np.reshape(np.outer(np.ones(np.size(u)), np.cos(v)),
                        (n**2, 1))]. *)
Definition points_of (u v : vector) (r : R)
  : option (matrix * matrix * matrix) :=
  let n := length u in
  x <- reshape (flatten (outer (map cos u) (map sin v))) ((n * n)%nat, 1%nat) ;;
  y <- reshape (flatten (outer (map sin u) (map sin v))) ((n * n)%nat, 1%nat) ;;
  z <- reshape (flatten (outer (repeat 1 (length u)) (map cos v)))
               ((n * n)%nat, 1%nat) ;;
  Some (scale r x, scale r y, scale r z).

Definition sphere_points : option (matrix * matrix * matrix) :=
  points_of (linspace 0 (2 * PI) 20) (linspace 0 PI 20) 1.

End BlochPoints.

(** ** The statements of the notebooks, as far as exceptions go *)

Module Repo.
Import Qaoa.

#[local] Unset Elimination Schemes.

(** A statement of a code cell, by the line of its source file it starts
    on and its text (shortened, with single quotes).  [Simple] is a
    statement with no statement inside it: an assignment, a call, an
    import, a [return], a [pass], a docstring.  The compound statements
    that occur are [for], [if], [def] and [try ... except <class>:]. *)
Inductive stmt : Type :=
| Simple (line : nat) (src : string)
| For (line : nat) (header : string) (body : list stmt)
| If (line : nat) (test : string) (body orelse : list stmt)
| Def (line : nat) (name : string) (body : list stmt)
| Try (line : nat) (body : list stmt) (exc_class : string)
      (handler : list stmt).

#[local] Set Elimination Schemes.

(** A handler: the line of its [try], the class it names, its body. *)
Definition site : Type := nat * string * list stmt.

(** The handlers inside a statement, the bodies of functions included. *)
Fixpoint handlers (s : stmt) : list site :=
  match s with
  | Simple _ _ => []
  | For _ _ body => flat_map handlers body
  | If _ _ body orelse => flat_map handlers body ++ flat_map handlers orelse
  | Def _ _ body => flat_map handlers body
  | Try line body cls handler =>
      (line, cls, handler)
        :: flat_map handlers body ++ flat_map handlers handler
  end.

(** The bodies of the functions defined inside a statement. *)
Fixpoint def_bodies (s : stmt) : list (list stmt) :=
  match s with
  | Simple _ _ => []
  | For _ _ body => flat_map def_bodies body
  | If _ _ body orelse => flat_map def_bodies body ++ flat_map def_bodies orelse
  | Def _ _ body => body :: flat_map def_bodies body
  | Try _ body _ handler =>
      flat_map def_bodies body ++ flat_map def_bodies handler
  end.

(** Whether [except <cls>:] catches an exception.  [Exception] is the only
    class the notebooks name. *)
Definition catches (cls : string) (e : py_exc) : bool :=
  if String.eqb cls "BaseException" then true
  else if String.eqb cls "Exception" then isinstance_Exception e
  else String.eqb cls (exc_class e).

Section Exec.

Variable World : Type.

(** What the simple statement, the [for] header or the [if] test on a
    line does: the next world, and the exception it raises, if any. *)
Variable run : nat -> World -> World * option py_exc.

(** How many items the iterable of a [for] yields, and which way an [if]
    goes. *)
Variable items : nat -> World -> nat.
Variable holds : nat -> World -> bool.

(** Where an execution stands: the world, every exception raised so far
    (the oldest first), and the exception on its way up, if any. *)
Definition result : Type := World * list py_exc * option py_exc.

Definition step (line : nat) (w : World) (log : list py_exc) : result :=
  match run line w with
  | (w', None) => (w', log, None)
  | (w', Some e) => (w', log ++ [e], Some e)
  end.

(** Statements in sequence: the first exception ends the block. *)
Definition exec_block (exec : stmt -> World -> list py_exc -> result)
  : list stmt -> World -> list py_exc -> result :=
  fix go (l : list stmt) (w : World) (log : list py_exc) : result :=
    match l with
    | [] => (w, log, None)
    | s :: t =>
        match exec s w log with
        | (w', log', None) => go t w' log'
        | r => r
        end
    end.

(** A body run [n] times: the first exception ends the loop. *)
Fixpoint iterate (body : World -> list py_exc -> result) (n : nat)
    (w : World) (log : list py_exc) : result :=
  match n with
  | O => (w, log, None)
  | S k =>
      match body w log with
      | (w', log', None) => iterate body k w' log'
      | r => r
      end
  end.

(** A [def] binds a name and runs nothing; a [try] runs its handler when
    the class named catches what its body raised, and lets it through
    otherwise. *)
Fixpoint exec (s : stmt) (w : World) (log : list py_exc) : result :=
  match s with
  | Simple line _ => step line w log
  | For line _ body =>
      match step line w log with
      | (w1, log1, None) => iterate (exec_block exec body) (items line w1) w1 log1
      | r => r
      end
  | If line _ body orelse =>
      match step line w log with
      | (w1, log1, None) =>
          if holds line w1 then exec_block exec body w1 log1
          else exec_block exec orelse w1 log1
      | r => r
      end
  | Def _ _ _ => (w, log, None)
  | Try _ body cls handler =>
      match exec_block exec body w log with
      | (w1, log1, Some e) =>
          if catches cls e then exec_block exec handler w1 log1
          else (w1, log1, Some e)
      | r => r
      end
  end.

(** A cell, or the body of a function. *)
Definition exec_cell : list stmt -> World -> list py_exc -> result :=
  exec_block exec.

End Exec.

(** An exception that one of the handlers catches. *)
Definition caught_by (hs : list site) (e : py_exc) : Prop :=
  exists line cls handler,
    In (line, cls, handler) hs /\ catches cls e = true.

(** The exceptions raised during a run and not coming out of it were all
    caught by one of the handlers [hs]: the log grows by them, and by the
    exception on its way up, if any. *)
Definition accounts {World : Type} (hs : list site)
    (f : World -> list py_exc -> World * list py_exc * option py_exc) : Prop :=
  forall (w : World) (log : list py_exc),
  exists swallowed,
    Forall (caught_by hs) swallowed
    /\ match f w log with
       | (_, log', None) => log' = log ++ swallowed
       | (_, log', Some e) => log' = log ++ swallowed ++ [e]
       end.

(** Every exception raised while the block runs comes out of it: the
    block ends normally only if nothing was raised, and otherwise ends
    with the one exception that was. *)
Definition swallows_nothing (l : list stmt) : Prop :=
  forall (World : Type) (run : nat -> World -> World * option py_exc)
         (items : nat -> World -> nat) (holds : nat -> World -> bool)
         (w : World) (log : list py_exc),
    match exec_cell World run items holds l w log with
    | (_, log', None) => log' = log
    | (_, log', Some e) => log' = log ++ [e]
    end.

(** Whatever the block swallows is an instance of [Exception]. *)
Definition swallows_only_Exception (l : list stmt) : Prop :=
  forall (World : Type) (run : nat -> World -> World * option py_exc)
         (items : nat -> World -> nat) (holds : nat -> World -> bool)
         (w : World) (log : list py_exc),
  exists swallowed,
    Forall (fun e => isinstance_Exception e = true) swallowed
    /\ match exec_cell World run items holds l w log with
       | (_, log', None) => log' = log ++ swallowed
       | (_, log', Some e) => log' = log ++ swallowed ++ [e]
       end.

(** The cell of the QAOA repetition loop (lines 906 to 928 of
    simulating_sequences.ipynb), with its [try] and its [for]. *)
Definition qaoa_try : stmt :=
  Try 916
    [Simple 917 "res = minimize(func, args=Q, x0=np.r_[guess['t'], guess['s']]...";
     Simple 925 "scores.append(res.fun)";
     Simple 926 "params.append(res.x)"]
    "Exception"
    [Simple 928 "pass"].

Definition qaoa_for : stmt :=
  For 910 "for repetition in range(10)"
    [Simple 911 "guess = {'t': np.random.uniform(1, 10, LAYERS), 's': np.rando...";
     qaoa_try].

Definition qaoa_cell : list stmt :=
  [Simple 906 "scores = []";
   Simple 907 "params = []";
   Simple 909 "np.random.seed(42 + 2)";
   qaoa_for].

(** The code cells of the first notebook of simulating_sequences.ipynb,
    from line 24. *)
Definition simulation_cells : list (list stmt) :=
  [
  [Simple 24 "import numpy as np";
   Simple 25 "import qutip";
   Simple 26 "import matplotlib.pyplot as plt";
   Simple 28 "import pulser";
   Simple 29 "from pulser_simulation import QutipEmulator"];
  [Simple 54 "L = 14";
   Simple 57 "Omega_max = 2.3 * 2 * np.pi";
   Simple 58 "U = Omega_max / 2.3";
   Simple 59 "R_interatomic = pulser.devices.MockDevice.rydberg_blockade_ra...";
   Simple 61 "coords = R_interatomic / (2 * np.tan(np.pi / L)) * np.array([...";
   Simple 72 "reg = pulser.Register.from_coordinates(coords, prefix='atom')"];
  [Simple 96 "reg.draw(blockade_radius=R_interatomic, draw_half_radius=True..."];
  [Simple 116 "delta_0 = -3 * U";
   Simple 117 "delta_f = 1 * U";
   Simple 119 "t_rise = 2000";
   Simple 120 "t_fall = 2000";
   Simple 121 "t_sweep = (delta_f - delta_0) / (2 * np.pi * 10) * 5000";
   Simple 123 "rise = pulser.Pulse.ConstantDetuning(pulser.waveforms.RampWav...";
   Simple 126 "sweep = pulser.Pulse.ConstantAmplitude(Omega_max, pulser.wave...";
   Simple 129 "fall = pulser.Pulse.ConstantDetuning(pulser.waveforms.RampWav...";
   Simple 133 "seq = pulser.Sequence(reg, pulser.devices.MockDevice)";
   Simple 134 "seq.declare_channel('ising', 'rydberg_global')";
   Simple 136 "seq.add(rise, 'ising')";
   Simple 137 "seq.add(sweep, 'ising')";
   Simple 138 "seq.add(fall, 'ising')"];
  [Simple 151 "seq.draw()"];
  [Simple 197 "sim = QutipEmulator.from_sequence(seq, sampling_rate=0.1)";
   Simple 198 "results = sim.run(progress_bar=True)"];
  [Simple 243 "results.states[23]"];
  [Simple 267 "counts = results.sample_final_state(N_samples=1000)";
   Simple 269 "large_counts = {k: v for k, v in counts.items() if v > 5}";
   Simple 271 "plt.figure(figsize=(15, 4))";
   Simple 272 "plt.xticks(rotation=90, fontsize=14)";
   Simple 273 "plt.title('Most frequent observations')";
   Simple 274 "plt.bar(large_counts.keys(), large_counts.values())"];
  [Def 312 "local_magn"
     [Simple 313 "prod = L * [qutip.qeye(2)]";
      Simple 314 "prod[i] = qutip.sigmaz()";
      Simple 315 "return qutip.tensor(prod)"];
   Simple 317 "magn_av = 1 / L * sum([local_magn(i) for i in range(L)])"];
  [Simple 330 "expect_magnetization = [qutip.expect(magn_av, state) for stat...";
   Simple 331 "plt.plot(sim.evaluation_times, expect_magnetization)";
   Simple 334 "plt.xlabel('Time ($\\mu$s)', fontsize=14)";
   Simple 335 "plt.ylabel('$\\langle S_z \\rangle$', fontsize=14)"];
  [Def 364 "neel"
     [Simple 365 "prod = L * [qutip.qeye(2)]";
      Simple 366 "prod[i] = qutip.sigmaz()";
      Simple 367 "prod[j] = qutip.sigmaz()";
      Simple 368 "return qutip.tensor(prod)"];
   Simple 370 "neel_av = 1 / L * sum([neel(i, (i + 1) % L) for i in range(L)])";
   Simple 371 "order_parameter = [qutip.expect(neel_av, state) - qutip.expec..."];
  [Simple 384 "plt.plot(sim.evaluation_times, order_parameter)";
   Simple 386 "plt.xlabel('Time ($\\mu$s)', fontsize=14)";
   Simple 387 "plt.ylabel('$\\mathcal{C}$', fontsize=20)"]
  ].

(** The code cells of the second notebook of simulating_sequences.ipynb,
    from line 463; the QAOA cell is the seventeenth. *)
Definition qubo_cells : list (list stmt) :=
  [
  [Simple 463 "import numpy as np";
   Simple 464 "import matplotlib.pyplot as plt";
   Simple 465 "from pulser import Pulse, Sequence, Register";
   Simple 466 "from pulser_simulation import QutipEmulator";
   Simple 467 "from pulser.devices import DigitalAnalogDevice";
   Simple 468 "from pulser.waveforms import InterpolatedWaveform";
   Simple 469 "from scipy.optimize import minimize";
   Simple 470 "from scipy.spatial.distance import pdist, squareform"];
  [Simple 490 "Q = np.array([[-10.0, 19.7365809, 19.7365809, 5.42015853, 5.4..."];
  [Simple 518 "bitstrings = [np.binary_repr(i, len(Q)) for i in range(2 ** l...";
   Simple 519 "costs = []";
   For 521 "for b in bitstrings"
     [Simple 522 "z = np.array(list(b), dtype=int)";
      Simple 523 "cost = z.T @ Q @ z";
      Simple 524 "costs.append(cost)"];
   Simple 525 "zipped = zip(bitstrings, costs)";
   Simple 526 "sort_zipped = sorted(zipped, key=lambda x: x[1])";
   Simple 527 "print(sort_zipped[:3])"];
  [Def 550 "evaluate_mapping"
     [Simple 551 "'Cost function to minimize. Ideally, the pairwise\n distances...";
      Simple 553 "Q, shape = args";
      Simple 554 "new_coords = np.reshape(new_coords, shape)";
      Simple 555 "new_Q = squareform(DigitalAnalogDevice.interaction_coeff / pd...";
      Simple 558 "return np.linalg.norm(new_Q - Q)"]];
  [Simple 571 "shape = (len(Q), 2)";
   Simple 572 "costs = []";
   Simple 573 "np.random.seed(0)";
   Simple 574 "x0 = np.random.random(shape).flatten()";
   Simple 575 "res = minimize(evaluate_mapping, x0, args=(Q, shape), method=...";
   Simple 583 "coords = np.reshape(res.x, (len(Q), 2))"];
  [Simple 603 "squareform(DigitalAnalogDevice.interaction_coeff / pdist(coor..."];
  [Simple 612 "Q - np.diag(np.diag(Q))"];
  [Simple 639 "qubits = dict(enumerate(coords))";
   Simple 640 "reg = Register(qubits)";
   Simple 641 "reg.draw(blockade_radius=DigitalAnalogDevice.rydberg_blockade..."];
  [Simple 697 "LAYERS = 2";
   Simple 700 "seq = Sequence(reg, DigitalAnalogDevice)";
   Simple 701 "seq.declare_channel('ch0', 'rydberg_global')";
   Simple 703 "t_list = seq.declare_variable('t_list', size=LAYERS)";
   Simple 704 "s_list = seq.declare_variable('s_list', size=LAYERS)";
   For 706 "for (t, s) in zip(t_list, s_list)"
     [Simple 707 "pulse_1 = Pulse.ConstantPulse(1000 * t, 1.0, 0.0, 0)";
      Simple 708 "pulse_2 = Pulse.ConstantPulse(1000 * s, 0.0, 1.0, 0)";
      Simple 710 "seq.add(pulse_1, 'ch0')";
      Simple 711 "seq.add(pulse_2, 'ch0')"];
   Simple 713 "seq.measure('ground-rydberg')"];
  [Simple 733 "s = seq.build(t_list=[1, 1.5], s_list=[0.5, 1])";
   Simple 735 "s.draw()"];
  [Def 755 "quantum_loop"
     [Simple 756 "params = np.array(parameters)";
      Simple 757 "t_params, s_params = np.reshape(params.astype(int), (2, LAYERS))";
      Simple 758 "assigned_seq = seq.build(t_list=t_params, s_list=s_params)";
      Simple 759 "simul = QutipEmulator.from_sequence(assigned_seq, sampling_ra...";
      Simple 760 "results = simul.run()";
      Simple 761 "count_dict = results.sample_final_state()";
      Simple 762 "return count_dict"]];
  [Simple 771 "np.random.seed(123)";
   Simple 772 "guess = {'t': np.random.uniform(8, 10, LAYERS), 's': np.rando..."];
  [Simple 799 "example_dict = quantum_loop(np.r_[guess['t'], guess['s']])";
   Simple 800 "example_dict"];
  [Def 813 "plot_distribution"
     [Simple 814 "C = dict(sorted(C.items(), key=lambda item: item[1], reverse=...";
      Simple 815 "indexes = ['01011', '00111']";
      Simple 816 "color_dict = {key: 'r' if key in indexes else 'g' for key in C}";
      Simple 817 "plt.figure(figsize=(12, 6))";
      Simple 818 "plt.xlabel('bitstrings')";
      Simple 819 "plt.ylabel('counts')";
      Simple 820 "plt.bar(C.keys(), C.values(), width=0.5, color=color_dict.val...";
      Simple 821 "plt.xticks(rotation='vertical')";
      Simple 822 "plt.show()"];
   Simple 824 "plot_distribution(example_dict)"];
  [Def 852 "get_cost_colouring"
     [Simple 853 "z = np.array(list(bitstring), dtype=int)";
      Simple 854 "cost = z.T @ Q @ z";
      Simple 855 "return cost"];
   Def 857 "get_cost"
     [Simple 858 "cost = sum((counter[key] * get_cost_colouring(key, Q) for key...";
      Simple 859 "return cost / sum(counter.values())"];
   Simple 861 "get_cost(example_dict, Q)"];
  [Def 881 "func"
     [Simple 882 "Q = args[0]";
      Simple 883 "C = quantum_loop(param)";
      Simple 884 "cost = get_cost(C, Q)";
      Simple 885 "return cost"]];
  qaoa_cell;
  [Simple 948 "optimal_count_dict = quantum_loop(params[np.argmin(scores)])";
   Simple 949 "plot_distribution(optimal_count_dict)"];
  [Simple 1001 "Omega = np.median(Q[Q > 0].flatten())";
   Simple 1002 "delta_0 = -5";
   Simple 1003 "delta_f = -delta_0";
   Simple 1004 "T = 4000"];
  [Simple 1013 "adiabatic_pulse = Pulse(InterpolatedWaveform(T, [1e-09, Omega...";
   Simple 1018 "seq = Sequence(reg, DigitalAnalogDevice)";
   Simple 1019 "seq.declare_channel('ising', 'rydberg_global')";
   Simple 1020 "seq.add(adiabatic_pulse, 'ising')";
   Simple 1021 "seq.draw()"];
  [Simple 1034 "simul = QutipEmulator.from_sequence(seq)";
   Simple 1035 "results = simul.run()";
   Simple 1036 "final = results.get_final_state()";
   Simple 1037 "count_dict = results.sample_final_state()"];
  [Simple 1046 "plot_distribution(count_dict)"];
  [Simple 1077 "cost = []";
   For 1078 "for T in 1000 * np.linspace(1, 10, 10)"
     [Simple 1079 "seq = Sequence(reg, DigitalAnalogDevice)";
      Simple 1080 "seq.declare_channel('ising', 'rydberg_global')";
      Simple 1081 "adiabatic_pulse = Pulse(InterpolatedWaveform(T, [1e-09, Omega...";
      Simple 1086 "seq.add(adiabatic_pulse, 'ising')";
      Simple 1087 "simul = QutipEmulator.from_sequence(seq)";
      Simple 1088 "results = simul.run()";
      Simple 1089 "final = results.get_final_state()";
      Simple 1090 "count_dict = results.sample_final_state()";
      Simple 1091 "cost.append(get_cost(count_dict, Q) / 3)"]];
  [Simple 1100 "plt.figure(figsize=(12, 6))";
   Simple 1101 "plt.plot(range(1, 11), np.array(cost), '--o')";
   Simple 1102 "plt.xlabel('total time evolution (?s)', fontsize=14)";
   Simple 1103 "plt.ylabel('cost', fontsize=14)";
   Simple 1104 "plt.show()"]
  ].

(** The code cells of the noise-channel notebook ([unnamed/part_000]),
    from line 41. *)
Definition noise_cells : list (list stmt) :=
  [
  [Simple 41 "import qutip";
   Simple 42 "import numpy as np";
   Simple 43 "import matplotlib.pyplot as plt";
   Simple 44 "from copy import deepcopy";
   Simple 45 "from pulser import Pulse, Sequence, Register";
   Simple 46 "from pulser_simulation import QutipEmulator, SimConfig";
   Simple 47 "from pulser_simulation.simresults import SimulationResults";
   Simple 48 "from pulser.devices import AnalogDevice"];
  [Def 117 "vector_to_dm"
     [Simple 118 "'Transforms a vector on the Bloch sphere into a density matrix.'";
      Simple 120 "return 0.5 * (qutip.qeye(2) + r_x * qutip.sigmax() + r_y * qu..."];
   Def 128 "dm_to_vector"
     [Simple 129 "'Transforms a density matrix rho to vector on the Bloch sphere.'";
      Simple 131 "I = 2 * rho - np.eye(2)";
      Simple 132 "r_x = np.real((I[0, 1] + I[1, 0]) / 2)";
      Simple 133 "r_y = np.real((I[1, 0] - I[0, 1]) / 2)";
      Simple 134 "r_z = np.real(I[0, 0])";
      Simple 136 "return (r_x, r_y, r_z)"];
   Def 139 "depolarizing_channel"
     [Simple 140 "'Depolarizing channel, using Kraus operators.'";
      Simple 141 "return (1 - 3 * prob / 4) * rho + prob / 4 * (qutip.sigmax() ..."];
   Def 148 "dephasing_channel"
     [Simple 149 "'Dephasing channel, using Kraus operators.'";
      Simple 150 "return (1 - prob / 2) * rho + prob / 2 * qutip.sigmaz() * rho..."]];
  [Simple 176 "u = np.linspace(0, 2 * np.pi, 20)";
   Simple 177 "v = np.linspace(0, np.pi, 20)";
   Simple 178 "r = 1";
   Simple 179 "n = len(u)";
   Simple 182 "x = r * np.reshape(np.outer(np.cos(u), np.sin(v)), newshape=(...";
   Simple 183 "y = r * np.reshape(np.outer(np.sin(u), np.sin(v)), newshape=(...";
   Simple 184 "z = r * np.reshape(np.outer(np.ones(np.size(u)), np.cos(v)), ...";
   Simple 189 "b = qutip.Bloch()";
   Simple 190 "points = [x, y, z]";
   Simple 191 "b.add_points(points)";
   Simple 192 "b"];
  [Simple 227 "dephasing_prob = 0.5";
   Simple 228 "x_dp = x.copy()";
   Simple 229 "y_dp = y.copy()";
   Simple 230 "z_dp = z.copy()";
   Simple 231 "n, p = x.shape";
   For 232 "for i in range(n)"
     [For 233 "for j in range(p)"
        [Simple 234 "dm = vector_to_dm(x[i, j], y[i, j], z[i, j])";
         Simple 235 "dm_n = dephasing_channel(dm, dephasing_prob)";
         Simple 236 "r_x, r_y, r_z = dm_to_vector(dm_n)";
         Simple 237 "x_dp[i, j] = r_x";
         Simple 238 "y_dp[i, j] = r_y";
         Simple 239 "z_dp[i, j] = r_z"]]];
  [Simple 252 "b = qutip.Bloch()";
   Simple 253 "points = [x_dp, y_dp, z_dp]";
   Simple 254 "b.add_points(points)";
   Simple 255 "b"];
  [Simple 290 "depolarizing_prob = 0.5";
   Simple 291 "x_dp = x.copy()";
   Simple 292 "y_dp = y.copy()";
   Simple 293 "z_dp = z.copy()";
   Simple 294 "n, p = x.shape";
   For 295 "for i in range(n)"
     [For 296 "for j in range(p)"
        [Simple 297 "dm = vector_to_dm(x[i, j], y[i, j], z[i, j])";
         Simple 298 "dm_n = depolarizing_channel(dm, depolarizing_prob)";
         Simple 299 "r_x, r_y, r_z = dm_to_vector(dm_n)";
         Simple 300 "x_dp[i, j] = r_x";
         Simple 301 "y_dp[i, j] = r_y";
         Simple 302 "z_dp[i, j] = r_z"]]];
  [Simple 315 "b = qutip.Bloch()";
   Simple 316 "points = [x_dp, y_dp, z_dp]";
   Simple 317 "b.add_points(points)";
   Simple 318 "b"];
  [Simple 353 "reg = Register.from_coordinates([(0, 0)], prefix='q')";
   Simple 355 "seq = Sequence(reg, AnalogDevice)";
   Simple 356 "seq.declare_channel('channel 0', 'rydberg_global')";
   Simple 357 "duration = 2500";
   Simple 358 "pulse = Pulse.ConstantPulse(duration, 2 * np.pi, 0 * np.pi, 0.0)";
   Simple 359 "seq.add(pulse, 'channel 0')";
   Simple 360 "seq.draw()"];
  [Simple 380 "clean_simu = QutipEmulator.from_sequence(seq, sampling_rate=0...";
   Simple 381 "clean_res = clean_simu.run()";
   Simple 382 "obs = clean_simu.initial_state.proj()";
   Simple 386 "clean_res.plot(obs)";
   Simple 387 "plt.ylabel('Ground state population')";
   Simple 388 "plt.show()"];
  [Simple 413 "config_dephasing = SimConfig(noise='dephasing', dephasing_rat...";
   Simple 414 "clean_simu.set_config(config_dephasing)";
   Simple 415 "clean_simu.show_config()"];
  [Simple 439 "clean_simu.reset_config()";
   Simple 440 "config_depolarizing = SimConfig(noise='depolarizing', depolar...";
   Simple 441 "clean_simu.set_config(config_depolarizing)";
   Simple 442 "clean_simu.show_config()"];
  [Simple 466 "clean_simu.reset_config()";
   Simple 467 "config_dephasing = SimConfig(noise='eff_noise', eff_noise_ope...";
   Simple 472 "clean_simu.add_config(config_dephasing)";
   Simple 473 "clean_simu.show_config()"];
  [Def 508 "noisy_dynamics"
     [Simple 509 "'Gives the result of a noisy simulation.'";
      Simple 510 "simu = deepcopy(clean_simu)";
      Simple 512 "simu.add_config(config)";
      Simple 513 "result = simu.run()";
      Simple 514 "return result"];
   Def 517 "plot_basis_population"
     [Simple 526 "'Plots the evolution of the population in state 'psi'.\n\n Ar...";
      Simple 540 "noise_pops = []";
      For 541 "for noise_result in noise_results"
        [Simple 542 "population = []";
         For 543 "for rho_t in noise_result.states"
           [Simple 544 "value = psi.dag() * rho_t * psi";
            Simple 545 "population.append(np.abs(value[0][0]))"];
         Simple 546 "noise_pops.append(population)"];
      Simple 548 "times = noise_results[0]._sim_times";
      For 550 "for (noise_rate, noise_pop) in zip(noise_rates, noise_pops)"
        [Simple 551 "axis.plot(times, noise_pop, label=f'$\\gamma$ = {noise_rate}'..."];
      Simple 557 "N_realizations = len(noise_rates)";
      If 558 "decay_rate is not None"
        [For 559 "for (i, noise_rate) in enumerate(noise_rates)"
           [Simple 560 "axis.plot(times, 0.5 * (1 + np.exp(-decay_rate * noise_rate *..."]]
        [];
      Simple 568 "axis.axhline(convergence_line, color='black', linestyle='--',...";
      If 576 "label"
        [Simple 577 "axis.legend(bbox_to_anchor=(1.05, 1), loc='upper left', borde..."]
        []]];
  [Simple 603 "clean_simu.reset_config()";
   Simple 605 "noise_rates = np.linspace(0, 1.5, 4)";
   Simple 606 "depolarizing_results = []";
   Simple 607 "dephasing_results = []";
   For 609 "for noise_rate in noise_rates"
     [Simple 610 "print('Noise rate = ', noise_rate)";
      Simple 613 "config_dephasing = SimConfig(noise='dephasing', dephasing_rat...";
      Simple 614 "config_depolarizing = SimConfig(noise='depolarizing', depolar...";
      Simple 619 "dephasing_result = noisy_dynamics(clean_simu, config_dephasing)";
      Simple 620 "depolarizing_result = noisy_dynamics(clean_simu, config_depol...";
      Simple 623 "depolarizing_results.append(depolarizing_result)";
      Simple 624 "dephasing_results.append(dephasing_result)"]];
  [Simple 638 "r_state = qutip.basis(2, 0)";
   Simple 639 "g_state = qutip.basis(2, 1)";
   Simple 640 "basis = {'g': g_state, 'r': r_state}"];
  [Simple 670 "fig, axs = plt.subplots(2)";
   Simple 671 "fig.suptitle('Population evolution with dephasing noise')";
   Simple 672 "axs.flat[0].set(xlabel='Time ($\\mu s$)', ylabel='Ground state')";
   Simple 673 "axs.flat[1].set(xlabel='Time ($\\mu s$)', ylabel='Excited sta...";
   For 676 "for ax in axs.flat"
     [Simple 677 "ax.label_outer()"];
   Simple 679 "plot_basis_population(basis['g'], dephasing_results, noise_ra...";
   Simple 682 "plot_basis_population(basis['r'], dephasing_results, noise_ra...";
   Simple 684 "plt.show()"];
  [Simple 746 "fig, axs = plt.subplots(2)";
   Simple 747 "fig.suptitle('Basis population evolution with the depolarizin...";
   Simple 748 "axs.flat[0].set(xlabel='Time ($\\mu s$)', ylabel='Ground state')";
   Simple 749 "axs.flat[1].set(xlabel='Time ($\\mu s$)', ylabel='Excited sta...";
   For 752 "for ax in axs.flat"
     [Simple 753 "ax.label_outer()"];
   Simple 755 "plot_basis_population(basis['g'], depolarizing_results, noise...";
   Simple 757 "plot_basis_population(basis['r'], depolarizing_results, noise...";
   Simple 759 "plt.show()"];
  [Simple 787 "omega = 2 * np.pi";
   Simple 788 "r_interatomic = AnalogDevice.rydberg_blockade_radius(omega)";
   Simple 789 "print(f'Rydberg radius ({r_interatomic}) > 5 ')"];
  [Simple 814 "reg = Register.from_coordinates([(0, 0), (5, 0)], prefix='q')";
   Simple 816 "reg.draw()"];
  [Simple 829 "seq = Sequence(reg, AnalogDevice)";
   Simple 830 "seq.declare_channel('channel 0', 'rydberg_global')";
   Simple 831 "duration = 2500";
   Simple 832 "pulse = Pulse.ConstantPulse(duration, omega, 0, 0.0)";
   Simple 833 "seq.add(pulse, 'channel 0')";
   Simple 834 "seq.draw()"];
  [Simple 847 "clean_simu = QutipEmulator.from_sequence(seq, sampling_rate=0...";
   Simple 848 "clean_res = clean_simu.run()"];
  [Simple 861 "clean_simu.reset_config()";
   Simple 863 "noise_rates = np.round(np.linspace(0, 1.5, 4), 3)";
   Simple 864 "depolarizing_results = []";
   Simple 865 "dephasing_results = []";
   For 867 "for noise_rate in noise_rates"
     [Simple 868 "print('Noise rate = ', noise_rate)";
      Simple 871 "config_dephasing = SimConfig(noise='dephasing', dephasing_rat...";
      Simple 872 "config_depolarizing = SimConfig(noise='depolarizing', depolar...";
      Simple 877 "dephasing_result = noisy_dynamics(clean_simu, config_dephasing)";
      Simple 878 "depolarizing_result = noisy_dynamics(clean_simu, config_depol...";
      Simple 881 "depolarizing_results.append(depolarizing_result)";
      Simple 882 "dephasing_results.append(dephasing_result)"]];
  [Simple 896 "r_state = qutip.basis(2, 0)";
   Simple 897 "g_state = qutip.basis(2, 1)";
   Simple 898 "basis = {'gg': qutip.tensor(g_state, g_state), 'rg': qutip.te..."];
  [Simple 929 "fig, axs = plt.subplots(4)";
   Simple 930 "fig.suptitle('Basis population evolution with dephasing noise')";
   Simple 931 "axs.flat[0].set(xlabel='Time ($\\mu s$)', ylabel='|gg> state')";
   Simple 932 "axs.flat[1].set(xlabel='Time ($\\mu s$)', ylabel='|rg> state')";
   Simple 933 "axs.flat[2].set(xlabel='Time ($\\mu s$)', ylabel='|gr> state')";
   Simple 934 "axs.flat[3].set(xlabel='Time ($\\mu s$)', ylabel='|rr> state')";
   For 937 "for ax in axs.flat"
     [Simple 938 "ax.label_outer()"];
   Simple 940 "plot_basis_population(basis['gg'], dephasing_results, noise_r...";
   Simple 943 "plot_basis_population(basis['rg'], dephasing_results, noise_r...";
   Simple 946 "plot_basis_population(basis['gr'], dephasing_results, noise_r...";
   Simple 949 "plot_basis_population(basis['rr'], dephasing_results, noise_r...";
   Simple 952 "plt.show()"];
  [Simple 992 "fig, axs = plt.subplots(4)";
   Simple 993 "fig.suptitle('Basis population evolution with depolarizing no...";
   Simple 994 "axs.flat[0].set(xlabel='Time ($\\mu s$)', ylabel='|gg> state')";
   Simple 995 "axs.flat[1].set(xlabel='Time ($\\mu s$)', ylabel='|rg> state')";
   Simple 996 "axs.flat[2].set(xlabel='Time ($\\mu s$)', ylabel='|gr> state')";
   Simple 997 "axs.flat[3].set(xlabel='Time ($\\mu s$)', ylabel='|rr> state')";
   For 1000 "for ax in axs.flat"
     [Simple 1001 "ax.label_outer()"];
   Simple 1003 "plot_basis_population(basis['gg'], depolarizing_results, nois...";
   Simple 1006 "plot_basis_population(basis['rg'], depolarizing_results, nois...";
   Simple 1009 "plot_basis_population(basis['gr'], depolarizing_results, nois...";
   Simple 1012 "plot_basis_population(basis['rr'], depolarizing_results, nois...";
   Simple 1015 "plt.show()"];
  [Simple 1052 "reg = Register.from_coordinates([(0, 0), (20, 0)], prefix='q')";
   Simple 1054 "print(f'20 = R > Rydberg radius = {r_interatomic} ')";
   Simple 1055 "seq = Sequence(reg, AnalogDevice)";
   Simple 1056 "seq.declare_channel('channel 0', 'rydberg_global')";
   Simple 1057 "duration = 2500";
   Simple 1058 "pulse = Pulse.ConstantPulse(duration, 2 * np.pi, 0 * np.pi, 0.0)";
   Simple 1059 "seq.add(pulse, 'channel 0')";
   Simple 1061 "clean_simu = QutipEmulator.from_sequence(seq, sampling_rate=0...";
   Simple 1062 "clean_res = clean_simu.run()"];
  [Simple 1075 "depolarizing_results = []";
   Simple 1076 "dephasing_results = []";
   For 1078 "for noise_rate in noise_rates"
     [Simple 1079 "print('Noise rate = ', noise_rate)";
      Simple 1082 "config_dephasing = SimConfig(noise='dephasing', dephasing_rat...";
      Simple 1083 "config_depolarizing = SimConfig(noise='depolarizing', depolar...";
      Simple 1088 "dephasing_result = noisy_dynamics(clean_simu, config_dephasing)";
      Simple 1089 "depolarizing_result = noisy_dynamics(clean_simu, config_depol...";
      Simple 1092 "depolarizing_results.append(depolarizing_result)";
      Simple 1093 "dephasing_results.append(dephasing_result)"]];
  [Simple 1119 "fig, axs = plt.subplots(4)";
   Simple 1120 "fig.suptitle('Basis population evolution with dephasing noise')";
   Simple 1121 "axs.flat[0].set(xlabel='Time ($\\mu s$)', ylabel='|gg> state')";
   Simple 1122 "axs.flat[1].set(xlabel='Time ($\\mu s$)', ylabel='|rg> state')";
   Simple 1123 "axs.flat[2].set(xlabel='Time ($\\mu s$)', ylabel='|gr> state')";
   Simple 1124 "axs.flat[3].set(xlabel='Time ($\\mu s$)', ylabel='|rr> state')";
   For 1127 "for ax in axs.flat"
     [Simple 1128 "ax.label_outer()"];
   Simple 1130 "plot_basis_population(basis['gg'], dephasing_results, noise_r...";
   Simple 1133 "plot_basis_population(basis['rg'], dephasing_results, noise_r...";
   Simple 1136 "plot_basis_population(basis['gr'], dephasing_results, noise_r...";
   Simple 1139 "plot_basis_population(basis['rr'], dephasing_results, noise_r...";
   Simple 1142 "plt.show()"];
  [Simple 1175 "fig, axs = plt.subplots(4)";
   Simple 1176 "fig.suptitle('Basis population evolution with depolarizing no...";
   Simple 1177 "axs.flat[0].set(xlabel='Time ($\\mu s$)', ylabel='|gg> state')";
   Simple 1178 "axs.flat[1].set(xlabel='Time ($\\mu s$)', ylabel='|rg> state')";
   Simple 1179 "axs.flat[2].set(xlabel='Time ($\\mu s$)', ylabel='|gr> state')";
   Simple 1180 "axs.flat[3].set(xlabel='Time ($\\mu s$)', ylabel='|rr> state')";
   For 1183 "for ax in axs.flat"
     [Simple 1184 "ax.label_outer()"];
   Simple 1186 "plot_basis_population(basis['gg'], depolarizing_results, nois...";
   Simple 1195 "plot_basis_population(basis['rg'], depolarizing_results, nois...";
   Simple 1198 "plot_basis_population(basis['gr'], depolarizing_results, nois...";
   Simple 1201 "plot_basis_population(basis['rr'], depolarizing_results, nois...";
   Simple 1204 "plt.show()"]
  ].

(** Both files of the repository. *)
Definition repository : list (list stmt) :=
  simulation_cells ++ qubo_cells ++ noise_cells.

(** The cells before and after the cell of the QAOA repetition loop. *)
Definition cells_before : list (list stmt) :=
  simulation_cells ++ firstn 16 qubo_cells.

Definition cells_after : list (list stmt) :=
  skipn 17 qubo_cells ++ noise_cells.

(** The handler of that cell: [except Exception as e: pass]. *)
Definition the_handler : site :=
  (916%nat, "Exception"%string, [Simple 928 "pass"]).

(** The statements of the cell read on the state of [Qaoa]: the world and
    the two lists, with the start vector and the result the loop keeps in
    [guess] and [res].  The world is the one after [np.random.seed]; a name
    read before it is bound raises NameError. *)
Record cell_state (World : Type) : Type := mkCell {
  loop : loop_state World;
  x0 : list R;
  res : option OptimizeResult
}.
Arguments mkCell {World} _ _ _.
Arguments loop {World} _.
Arguments x0 {World} _.
Arguments res {World} _.

Section Reading.

Variable World : Type.
Variable draw_guess : World -> World * (list R * list R).
Variable minimize : World -> list R -> World * outcome OptimizeResult.

Definition run_qaoa (line : nat) (cs : cell_state World)
  : cell_state World * option py_exc :=
  let st := loop cs in
  if (line =? 906)%nat then
    (mkCell (mkLoop (world st) [] (params st)) (x0 cs) (res cs), None)
  else if (line =? 907)%nat then
    (mkCell (mkLoop (world st) (scores st) []) (x0 cs) (res cs), None)
  else if (line =? 911)%nat then
    let (w1, guess) := draw_guess (world st) in
    (mkCell (mkLoop w1 (scores st) (params st)) (fst guess ++ snd guess) (res cs),
     None)
  else if (line =? 917)%nat then
    let (w2, r) := minimize (world st) (x0 cs) in
    match r with
    | Returns a => (mkCell (mkLoop w2 (scores st) (params st)) (x0 cs) (Some a), None)
    | Raises e => (mkCell (mkLoop w2 (scores st) (params st)) (x0 cs) (res cs), Some e)
    end
  else if (line =? 925)%nat then
    match res cs with
    | Some a => (mkCell (mkLoop (world st) (scores st ++ [res_fun a]) (params st))
                        (x0 cs) (res cs), None)
    | None => (cs, Some (mkExc "NameError" FromException))
    end
  else if (line =? 926)%nat then
    match res cs with
    | Some a => (mkCell (mkLoop (world st) (scores st) (params st ++ [res_x a]))
                        (x0 cs) (res cs), None)
    | None => (cs, Some (mkExc "NameError" FromException))
    end
  else (cs, None).

(** [range(10)] yields ten items. *)
Definition items_qaoa (line : nat) (cs : cell_state World) : nat :=
  if (line =? 910)%nat then 10%nat else 0%nat.

Definition holds_qaoa (line : nat) (cs : cell_state World) : bool := true.

(** The state and the way a run ends are those of a run of [Qaoa]. *)
Definition agrees (r : cell_state World * list py_exc * option py_exc)
    (c : completion (loop_state World)) : Prop :=
  match c with
  | Normal st => loop (fst (fst r)) = st /\ snd r = None
  | Propagates e st => loop (fst (fst r)) = st /\ snd r = Some e
  end.

End Reading.

(** A run in which the call of [minimize] on line 917 raises [e] every
    time and nothing else raises. *)
Definition raising (e : py_exc) (line : nat) (w : unit) : unit * option py_exc :=
  (w, if (line =? 917)%nat then Some e else None).

End Repo.

(** * The definitions at work on small inputs *)

Module Examples.
Import Np Scipy Qubo Embedding.

(** Evaluate the structure of a term and leave the real arithmetic. *)
Ltac run :=
  cbv - [Rplus Rmult Rminus Rdiv Ropp Rinv IZR INR sqrt Req_dec_T pow].

Example squareform_three (a b c : R) :
  squareform [a; b; c] = Some [[0; a; b]; [a; 0; c]; [b; c; 0]].
Proof. reflexivity. Qed.

Example squareform_not_triangular (a b : R) : squareform [a; b] = None.
Proof. reflexivity. Qed.

Example reshape_size_mismatch : reshape [1; 2; 3] (2%nat, 2%nat) = None.
Proof. reflexivity. Qed.

Example get_cost_colouring_11 :
  get_cost_colouring "11" (FloatArray [[0; 1]; [1; 0]])
  = Some (FloatScalar 2).
Proof. run. do 2 f_equal. lra. Qed.

Example get_cost_colouring_11_int :
  get_cost_colouring "11" (IntArray [[0; 1]; [1; 0]]%Z) = Some (IntScalar 2).
Proof. reflexivity. Qed.

(** Every entry is 2^62: the cost 2^64 of ['11'] is held as 0. *)
Example get_cost_colouring_wraps :
  get_cost_colouring "11"
    (IntArray [[4611686018427387904; 4611686018427387904];
               [4611686018427387904; 4611686018427387904]]%Z)
  = Some (IntScalar 0).
Proof. reflexivity. Qed.

Example get_cost_colouring_rejects :
  get_cost_colouring "111" (FloatArray [[0; 1]; [1; 0]]) = None
  /\ get_cost_colouring "a1" (FloatArray [[0; 1]; [1; 0]]) = None
  /\ get_cost_colouring "111" (IntArray [[0; 1]; [1; 0]]%Z) = None.
Proof. repeat split; reflexivity. Qed.

Example get_cost_two_keys :
  get_cost [("01"%string, 1%nat); ("11"%string, 3%nat)]
           (FloatArray [[0; 1]; [1; 0]])
  = Some (3 / 2).
Proof. run. f_equal. simpl INR. lra. Qed.

(** The entry is 2^62 and the count is 2: the product 2^63 is held as
    -2^63, and the average comes out as -2^62. *)
Example get_cost_wraps :
  get_cost [("1"%string, 2%nat)] (IntArray [[4611686018427387904]]%Z)
  = Some (- 4611686018427387904).
Proof.
  unfold get_cost. cbn [keys values map fst snd Err.mapM Err.bind getitem
                        String.eqb Ascii.eqb Bool.eqb fold_left Nat.add Nat.eqb].
  replace (get_cost_colouring "1" (IntArray [[4611686018427387904]]%Z))
    with (Some (IntScalar 4611686018427387904)) by reflexivity.
  cbn [Err.bind times sum_scalars fold_left plus value].
  replace (Int64.add 0 (Int64.mul (Z.of_nat 2) 4611686018427387904))
    with (- 9223372036854775808)%Z by reflexivity.
  f_equal. simpl INR. lra.
Qed.

Example get_cost_empty (Q : ndarray) : get_cost [] Q = None.
Proof. reflexivity. Qed.

Example evaluate_mapping_coincident (Q : matrix) :
  evaluate_mapping 1 [0; 0; 0; 0] Q (2%nat, 2%nat) = None.
Proof.
  run. destruct (Req_dec_T _ 0) as [_|Hne]; [reflexivity|].
  exfalso. apply Hne.
  replace (0 + (0 - 0) * (0 - 0) + (0 - 0) * (0 - 0)) with 0 by ring.
  rewrite sqrt_0. ring.
Qed.

Example evaluate_mapping_unit_pair :
  evaluate_mapping 1 [0; 0; 1; 0] [[0; 1]; [1; 0]] (2%nat, 2%nat) = Some 0.
Proof.
  run.
  replace (0 + (0 - 1) * (0 - 1) + (0 - 0) * (0 - 0)) with 1 by ring.
  rewrite sqrt_1.
  destruct (Req_dec_T (1 ^ 6) 0) as [E|_]; [exfalso; lra|].
  cbv [Err.bind]. f_equal.
  replace (0 + (0 - 0) * (0 - 0) + (1 / 1 ^ 6 - 1) * (1 / 1 ^ 6 - 1)
           + (1 / 1 ^ 6 - 1) * (1 / 1 ^ 6 - 1) + (0 - 0) * (0 - 0)) with 0
    by field.
  apply sqrt_0.
Qed.

End Examples.

Module MoreExamples.
Import Np Qubo Enumerate Counts Observables Best PySort.

Example binary_repr_5 : binary_repr 5 5 = "00101"%string.
Proof. reflexivity. Qed.

Example binary_repr_narrow_width : binary_repr 9 2 = "1001"%string.
Proof. reflexivity. Qed.

Example bitstrings_2 : bitstrings 2 = ["00"; "01"; "10"; "11"]%string.
Proof. reflexivity. Qed.

Example sort_zipped_ties :
  sort_zipped (FloatArray [[-1; 2]; [2; -1]])
  = Some [("01"%string, FloatScalar (-1)); ("10"%string, FloatScalar (-1));
          ("00"%string, FloatScalar 0); ("11"%string, FloatScalar 2)].
Proof.
  cbv - [Rplus Rmult Rminus Rdiv Ropp Rinv IZR INR sqrt Req_dec_T pow
         Rle_dec sorted value].
  replace (0 + (0 + 0 * -1 + 0 * 2) * 0 + (0 + 0 * 2 + 0 * -1) * 0)
    with 0 by ring.
  replace (0 + (0 + 0 * -1 + 1 * 2) * 0 + (0 + 0 * 2 + 1 * -1) * 1)
    with (-1) by ring.
  replace (0 + (0 + 1 * -1 + 0 * 2) * 1 + (0 + 1 * 2 + 0 * -1) * 0)
    with (-1) by ring.
  replace (0 + (0 + 1 * -1 + 1 * 2) * 1 + (0 + 1 * 2 + 1 * -1) * 1)
    with 2 by ring.
  cbv [sorted fold_right insert Rleb snd value].
  repeat (destruct (Rle_dec _ _); try lra). reflexivity.
Qed.

Example plot_distribution_three :
  plot_distribution [("01011"%string, 2%nat); ("11111"%string, 9%nat);
                     ("00000"%string, 2%nat)]
  = (["11111"; "01011"; "00000"]%string, [9; 2; 2]%nat,
     ["g"; "r"; "g"]%string).
Proof. reflexivity. Qed.

Example large_counts_threshold :
  large_counts [("01"%string, 6%nat); ("11"%string, 5%nat)]
  = [("01"%string, 6%nat)].
Proof. reflexivity. Qed.

Example setitem_negative : setitem [1; 2; 3]%nat (-1) 9%nat = Some [1; 2; 9]%nat.
Proof. reflexivity. Qed.

Example setitem_out_of_range : setitem [1; 2; 3]%nat 3 9%nat = None.
Proof. reflexivity. Qed.

Example np_argmin_first : np_argmin [3; 1; 2; 1] = Some 1%nat.
Proof. cbn. repeat (destruct (Rlt_dec _ _); try lra). reflexivity. Qed.

(** Every entry is -2^62: the cost -2^64 of ['11'] is held as 0, and the
    string of least cost comes last. *)
Example sort_zipped_wraps :
  sort_zipped (IntArray [[-4611686018427387904; -4611686018427387904];
                         [-4611686018427387904; -4611686018427387904]]%Z)
  = Some [("01"%string, IntScalar (-4611686018427387904));
          ("10"%string, IntScalar (-4611686018427387904));
          ("00"%string, IntScalar 0); ("11"%string, IntScalar 0)].
Proof.
  unfold sort_zipped. cbn [len length].
  replace (Err.mapM _ (bitstrings 2))
    with (Some [IntScalar 0; IntScalar (-4611686018427387904);
                IntScalar (-4611686018427387904); IntScalar 0])
    by reflexivity.
  cbv [Err.bind bitstrings seq map binary_repr N.of_nat Pos.of_succ_nat
       Pos.succ pos_bits zfill Nat.max Nat.sub length app repeat Nat.eqb
       string_of_list_ascii Nat.pow Nat.mul Nat.add combine sorted fold_right
       insert Rleb snd value].
  repeat (destruct (Rle_dec _ _); try lra). reflexivity.
Qed.

End MoreExamples.

Module HandlerExamples.
Import Qaoa Repo.

(** The [try] of the QAOA cell when [minimize] raises: a [ValueError] is
    swallowed, a [KeyboardInterrupt] comes out. *)
Example try_swallows_value_error :
  exec unit (raising (mkExc "ValueError" FromException))
       (fun _ _ => 10%nat) (fun _ _ => true) qaoa_try tt []
  = (tt, [mkExc "ValueError" FromException], None).
Proof. reflexivity. Qed.

Example try_lets_keyboard_interrupt_through :
  exec unit (raising (mkExc "KeyboardInterrupt" FromBaseExceptionOnly))
       (fun _ _ => 10%nat) (fun _ _ => true) qaoa_try tt []
  = (tt, [mkExc "KeyboardInterrupt" FromBaseExceptionOnly],
     Some (mkExc "KeyboardInterrupt" FromBaseExceptionOnly)).
Proof. reflexivity. Qed.

(** The whole cell: ten repetitions, ten exceptions swallowed. *)
Example cell_swallows_ten :
  exec_cell unit (raising (mkExc "ValueError" FromException))
            (fun _ _ => 10%nat) (fun _ _ => true) qaoa_cell tt []
  = (tt, repeat (mkExc "ValueError" FromException) 10, None).
Proof. reflexivity. Qed.

End HandlerExamples.

(** * Properties of the noise channels *)

Module NoiseFacts.
Import Cplx Qobj Noise.

Ltac unfold_ops :=
  cbv [vector_to_dm dm_to_vector depolarizing_channel dephasing_channel
       depolarizing_kraus dephasing_kraus
       kraus_apply trace dag mmul smul madd msub mzero
       sigmax sigmay sigmaz qeye2
       divr scale conj mul opp sub add of_real C0 C1 Ci
       fold_left Re Im m00 m01 m10 m11].

Lemma C_eq (a b : C) : Re a = Re b -> Im a = Im b -> a = b.
Proof. destruct a, b; cbn; intros -> ->; reflexivity. Qed.

Lemma M2_eq (a b : M2) :
  m00 a = m00 b -> m01 a = m01 b -> m10 a = m10 b -> m11 a = m11 b -> a = b.
Proof. destruct a, b; cbn; intros -> -> -> ->; reflexivity. Qed.

Ltac by_components :=
  unfold_ops; apply M2_eq; cbn [m00 m01 m10 m11];
  apply C_eq; cbn [Re Im]; field.

(** A scaled Kraus operator contributes the square of its scale. *)
Lemma sandwich_smul (s : R) (U rho : M2) :
  mmul (mmul (smul s U) rho) (dag (smul s U))
  = smul (s * s) (mmul (mmul U rho) (dag U)).
Proof.
  destruct U as [[? ?] [? ?] [? ?] [? ?]], rho as [[? ?] [? ?] [? ?] [? ?]].
  by_components.
Qed.

Lemma pauli_self_adjoint :
  dag sigmax = sigmax /\ dag sigmay = sigmay /\ dag sigmaz = sigmaz
  /\ dag qeye2 = qeye2.
Proof. repeat split; by_components. Qed.

(** The closed form of the dephasing channel. *)
Lemma dephasing_channel_formula (rho : M2) (p : R) :
  dephasing_channel rho p
  = madd (smul (1 - p / 2) rho)
         (smul (p / 2) (mmul (mmul sigmaz rho) sigmaz)).
Proof.
  destruct rho as [[? ?] [? ?] [? ?] [? ?]]. by_components.
Qed.

(** C2: for every operator [rho] and every probability [p], the dephasing
    channel returns [(1 - p/2) rho + (p/2) sz rho sz], and that is the
    application of the Kraus operators [sqrt(1 - p/2) I] and
    [sqrt(p/2) sz]. *)
Theorem dephasing_channel_kraus (rho : M2) (p : R) :
  0 <= p <= 1 ->
  dephasing_channel rho p
  = madd (smul (1 - p / 2) rho)
         (smul (p / 2) (mmul (mmul sigmaz rho) sigmaz))
  /\ dephasing_channel rho p = kraus_apply (dephasing_kraus p) rho.
Proof.
  intros Hp. split; [apply dephasing_channel_formula|].
  rewrite dephasing_channel_formula.
  unfold dephasing_kraus, kraus_apply. cbn [fold_left].
  rewrite !sandwich_smul.
  rewrite !sqrt_sqrt by lra.
  destruct pauli_self_adjoint as (_ & _ & -> & ->).
  destruct rho as [[? ?] [? ?] [? ?] [? ?]]. by_components.
Qed.

Lemma dephasing_channel_kraus_witness :
  dephasing_channel (vector_to_dm 1 0 0) (1 / 2)
  = kraus_apply (dephasing_kraus (1 / 2)) (vector_to_dm 1 0 0).
Proof.
  apply (dephasing_channel_kraus (vector_to_dm 1 0 0) (1 / 2)). lra.
Defined.

(** C3: for every operator [rho] and every probability [p], the
    depolarizing channel returns
    [(1 - 3p/4) rho + (p/4) (sx rho sx + sy rho sy + sz rho sz)], and that
    is the application of the Kraus operators [sqrt(1 - 3p/4) I],
    [sqrt(p/4) sx], [sqrt(p/4) sy], [sqrt(p/4) sz]. *)
Theorem depolarizing_channel_kraus (rho : M2) (p : R) :
  0 <= p <= 1 ->
  depolarizing_channel rho p
  = madd (smul (1 - 3 * p / 4) rho)
         (smul (p / 4)
            (madd (madd (mmul (mmul sigmax rho) sigmax)
                        (mmul (mmul sigmay rho) sigmay))
                  (mmul (mmul sigmaz rho) sigmaz)))
  /\ depolarizing_channel rho p = kraus_apply (depolarizing_kraus p) rho.
Proof.
  intros Hp. split; [reflexivity|].
  unfold depolarizing_kraus, kraus_apply. cbn [fold_left].
  rewrite !sandwich_smul.
  rewrite !sqrt_sqrt by lra.
  destruct pauli_self_adjoint as (-> & -> & -> & ->).
  destruct rho as [[? ?] [? ?] [? ?] [? ?]]. by_components.
Qed.

Lemma depolarizing_channel_kraus_witness :
  depolarizing_channel (vector_to_dm 0 0 1) (1 / 2)
  = kraus_apply (depolarizing_kraus (1 / 2)) (vector_to_dm 0 0 1).
Proof.
  apply (depolarizing_channel_kraus (vector_to_dm 0 0 1) (1 / 2)). lra.
Defined.

(** What [dm_to_vector] returns on the density matrix of a Bloch vector:
    the second component is the real part of a purely imaginary number. *)
Lemma dm_to_vector_of_vector (r_x r_y r_z : R) :
  dm_to_vector (vector_to_dm r_x r_y r_z) = (r_x, 0, r_z).
Proof. unfold_ops. f_equal; [f_equal|]; field. Qed.

(** C8 (the round trip fails): at the Bloch vector (0, 1, 0) the
    conversion to a density matrix and back returns (0, 0, 0). *)
Theorem dm_to_vector_loses_y :
  dm_to_vector (vector_to_dm 0 1 0) = (0, 0, 0)
  /\ dm_to_vector (vector_to_dm 0 1 0) <> (0, 1, 0).
Proof.
  rewrite dm_to_vector_of_vector. split; [reflexivity|].
  intros H. injection H as H. lra.
Qed.

(** C9: the dephasing channel keeps the z-coordinate of a Bloch vector and
    scales the other two by [1 - p]. *)
Theorem dephasing_channel_bloch (r_x r_y r_z p : R) :
  dephasing_channel (vector_to_dm r_x r_y r_z) p
  = vector_to_dm ((1 - p) * r_x) ((1 - p) * r_y) r_z.
Proof. by_components. Qed.

(** C10: both channels preserve the trace. *)
Theorem channels_preserve_trace (rho : M2) (p : R) :
  trace (dephasing_channel rho p) = trace rho
  /\ trace (depolarizing_channel rho p) = trace rho.
Proof.
  destruct rho as [[? ?] [? ?] [? ?] [? ?]].
  split; unfold_ops; apply C_eq; cbn [Re Im]; field.
Qed.

End NoiseFacts.

(** * Sums over lists and over index ranges *)

Module SumFacts.
Import Np Spec.

Lemma fold_left_Rplus_acc (l : list R) (a : R) :
  fold_left Rplus l a = a + fold_left Rplus l 0.
Proof.
  revert a. induction l as [|x l IH]; intros a; cbn.
  - ring.
  - rewrite IH, (IH (0 + x)). ring.
Qed.

Lemma py_sum_nil : py_sum [] = 0.
Proof. reflexivity. Qed.

Lemma py_sum_cons (x : R) (l : list R) : py_sum (x :: l) = x + py_sum l.
Proof.
  unfold py_sum. cbn. rewrite fold_left_Rplus_acc. ring.
Qed.

Lemma py_sum_app (l1 l2 : list R) : py_sum (l1 ++ l2) = py_sum l1 + py_sum l2.
Proof.
  induction l1 as [|x l1 IH]; cbn [app].
  - rewrite py_sum_nil. ring.
  - rewrite !py_sum_cons, IH. ring.
Qed.

Lemma sum_upto_ext (n : nat) (f g : nat -> R) :
  (forall i, (i < n)%nat -> f i = g i) -> sum_upto n f = sum_upto n g.
Proof.
  induction n as [|n IH]; intros H; cbn; [reflexivity|].
  rewrite IH, H by (intros; try apply H; lia). reflexivity.
Qed.

Lemma sum_upto_plus (n : nat) (f g : nat -> R) :
  sum_upto n (fun i => f i + g i) = sum_upto n f + sum_upto n g.
Proof. induction n as [|n IH]; cbn; [ring|rewrite IH; ring]. Qed.

Lemma sum_upto_scal_r (n : nat) (f : nat -> R) (c : R) :
  sum_upto n (fun i => f i * c) = sum_upto n f * c.
Proof. induction n as [|n IH]; cbn; [ring|rewrite IH; ring]. Qed.

Lemma sum_upto_zero (n : nat) : sum_upto n (fun _ => 0) = 0.
Proof. induction n as [|n IH]; cbn; [reflexivity|rewrite IH; ring]. Qed.

(** Exchange of the two summations of a double sum. *)
Lemma sum_upto_swap (n m : nat) (f : nat -> nat -> R) :
  sum_upto n (fun i => sum_upto m (fun j => f i j))
  = sum_upto m (fun j => sum_upto n (fun i => f i j)).
Proof.
  induction n as [|n IH]; cbn.
  - rewrite sum_upto_zero. reflexivity.
  - rewrite IH, <- sum_upto_plus. reflexivity.
Qed.

Lemma sum_upto_shift (n : nat) (f : nat -> R) :
  sum_upto (S n) f = f 0%nat + sum_upto n (fun i => f (S i)).
Proof.
  induction n as [|n IH].
  - cbn. ring.
  - change (sum_upto (S (S n)) f) with (sum_upto (S n) f + f (S n)).
    rewrite IH. cbn. ring.
Qed.

(** A list sum is the sum over the positions of the list. *)
Lemma py_sum_map_nth {A : Type} (f : A -> R) (l : list A) (d : A) :
  py_sum (map f l) = sum_upto (length l) (fun i => f (nth i l d)).
Proof.
  induction l as [|a l IH].
  - reflexivity.
  - cbn [map length]. rewrite py_sum_cons, sum_upto_shift, IH. reflexivity.
Qed.

Lemma py_sum_map_seq (g : nat -> R) (n : nat) :
  py_sum (map g (seq 0 n)) = sum_upto n g.
Proof.
  rewrite (py_sum_map_nth g (seq 0 n) 0%nat), length_seq.
  apply sum_upto_ext. intros i Hi. rewrite seq_nth by lia. reflexivity.
Qed.

End SumFacts.

(** * int64 arithmetic *)

Module Int64Facts.
Import Np Int64 CounterViews SumFacts.

Lemma two_64 : (2 ^ 64 = 2 * 2 ^ 63)%Z.
Proof. reflexivity. Qed.

Lemma two_63_pos : (0 < 2 ^ 63)%Z.
Proof. reflexivity. Qed.

(** Wrapping does not change the residue modulo 2^64. *)
Lemma wrap_mod (z : Z) : (wrap z mod 2 ^ 64 = z mod 2 ^ 64)%Z.
Proof.
  unfold wrap. rewrite Zminus_mod_idemp_l. f_equal. lia.
Qed.

Lemma wrap_congr (a b : Z) :
  (a mod 2 ^ 64 = b mod 2 ^ 64)%Z -> wrap a = wrap b.
Proof.
  intros H. unfold wrap.
  rewrite (Zplus_mod a), H, <- Zplus_mod. reflexivity.
Qed.

(** A result within the range is held as it is. *)
Lemma wrap_in_range (z : Z) : in_range z -> wrap z = z.
Proof.
  unfold in_range, wrap. intros H. pose proof two_63_pos as Hp.
  rewrite Z.mod_small; [lia|]. rewrite two_64. lia.
Qed.

Lemma wrap_range (z : Z) : in_range (wrap z).
Proof.
  unfold in_range, wrap. pose proof two_63_pos as Hp.
  pose proof (Z.mod_pos_bound (z + 2 ^ 63) (2 ^ 64)) as H.
  rewrite two_64 in *. lia.
Qed.

Lemma wrap_0 : wrap 0 = 0%Z.
Proof. reflexivity. Qed.

Lemma mul_congr (a b : Z) : (mul a (wrap b) mod 2 ^ 64 = (a * b) mod 2 ^ 64)%Z.
Proof.
  unfold mul. rewrite wrap_mod, Zmult_mod, wrap_mod, <- Zmult_mod.
  reflexivity.
Qed.

Lemma mul_congr_l (a b : Z) : (mul (wrap a) b mod 2 ^ 64 = (a * b) mod 2 ^ 64)%Z.
Proof.
  unfold mul. rewrite wrap_mod, Zmult_mod, wrap_mod, <- Zmult_mod.
  reflexivity.
Qed.

Lemma mul_mod (a b : Z) : (mul a b mod 2 ^ 64 = (a * b) mod 2 ^ 64)%Z.
Proof. apply wrap_mod. Qed.

Lemma sum_exact_acc (l : list Z) (a : Z) :
  fold_left Z.add l a = (a + sum_exact l)%Z.
Proof.
  unfold sum_exact. revert a. induction l as [|x l IH]; intros a; cbn.
  - lia.
  - rewrite IH, (IH x). lia.
Qed.

Lemma sum_exact_cons (x : Z) (l : list Z) :
  sum_exact (x :: l) = (x + sum_exact l)%Z.
Proof. unfold sum_exact at 1. cbn. apply sum_exact_acc. Qed.

(** A sum accumulated in int64 holds the exact sum, wrapped once; the
    terms may have been wrapped on the way. *)
Lemma sum_wrap {A : Type} (f g : A -> Z) (l : list A) :
  (forall x, In x l -> (g x mod 2 ^ 64 = f x mod 2 ^ 64)%Z) ->
  sum (map g l) = wrap (sum_exact (map f l)).
Proof.
  intros H. unfold sum. rewrite <- wrap_0 at 1.
  change (sum_exact (map f l)) with (fold_left Z.add (map f l) 0%Z).
  generalize 0%Z as a. induction l as [|x l IH]; intros a; cbn [map fold_left].
  - reflexivity.
  - unfold add at 2. rewrite IH by (intros; apply H; right; assumption).
    rewrite !sum_exact_acc. apply wrap_congr.
    rewrite <- !Z.add_assoc, (Zplus_mod (wrap a)), (Zplus_mod a), wrap_mod.
    f_equal. f_equal.
    rewrite (Zplus_mod (g x)), (Zplus_mod (f x)), (H x (or_introl eq_refl)).
    reflexivity.
Qed.

Lemma sum_wrap_id (l : list Z) : sum l = wrap (sum_exact l).
Proof.
  rewrite <- (map_id l) at 1. rewrite (sum_wrap (fun x => x) (fun x => x)).
  - rewrite map_id. reflexivity.
  - reflexivity.
Qed.

(** Sums of integers read as reals. *)
Lemma IZR_sum_exact (l : list Z) : IZR (sum_exact l) = py_sum (map IZR l).
Proof.
  induction l as [|x l IH]; [reflexivity|].
  rewrite sum_exact_cons, plus_IZR, IH. cbn [map]. rewrite py_sum_cons.
  reflexivity.
Qed.

Lemma combine_map_both {A B C D : Type} (f : A -> C) (g : B -> D)
    (l : list A) (l' : list B) :
  combine (map f l) (map g l')
  = map (fun p => (f (fst p), g (snd p))) (combine l l').
Proof.
  revert l'. induction l as [|a l IH]; intros [|b l']; cbn; try reflexivity.
  rewrite IH. reflexivity.
Qed.

Lemma nth_map_IZR (j : nat) (r : list Z) : nth j (map IZR r) 0 = IZR (nth j r 0%Z).
Proof. exact (map_nth IZR r 0%Z j). Qed.

Lemma width_map_IZR (Q : list (list Z)) : width (map (map IZR) Q) = width_int Q.
Proof. destruct Q as [|r Q]; cbn; [reflexivity|apply length_map]. Qed.

(** The float products on an array of integers are the exact integer
    products. *)
Lemma vecmat_IZR (z : list Z) (Q : list (list Z)) :
  length z = length Q ->
  vecmat (map IZR z) (map (map IZR) Q) = Some (map IZR (vecmat_exact z Q)).
Proof.
  intros Hlen. unfold vecmat, vecmat_exact.
  rewrite !length_map, Hlen, Nat.eqb_refl, width_map_IZR. f_equal.
  rewrite map_map. apply map_ext. intros j.
  rewrite IZR_sum_exact, map_map, combine_map_both, map_map.
  f_equal. apply map_ext. intros [a r]. cbn [fst snd].
  rewrite mult_IZR, nth_map_IZR. reflexivity.
Qed.

Lemma dot_IZR (u v : list Z) :
  length u = length v ->
  dot (map IZR u) (map IZR v) = Some (IZR (dot_exact u v)).
Proof.
  intros Hlen. unfold dot, dot_exact.
  rewrite !length_map, Hlen, Nat.eqb_refl. f_equal.
  rewrite IZR_sum_exact, map_map, combine_map_both, map_map.
  f_equal. apply map_ext. intros [a b]. cbn [fst snd].
  rewrite mult_IZR. reflexivity.
Qed.

(** The int64 products hold the exact products, wrapped. *)
Lemma vecmat_int_wrap (z : list Z) (Q : list (list Z)) :
  length z = length Q ->
  vecmat_int z Q = Some (map wrap (vecmat_exact z Q)).
Proof.
  intros Hlen. unfold vecmat_int, vecmat_exact.
  rewrite Hlen, Nat.eqb_refl. f_equal.
  rewrite map_map. apply map_ext. intros j.
  apply sum_wrap. intros x _. apply mul_mod.
Qed.

Lemma dot_int_wrap (v z : list Z) :
  length v = length z ->
  dot_int (map wrap v) z = Some (wrap (dot_exact v z)).
Proof.
  intros Hlen. unfold dot_int, dot_exact.
  rewrite length_map, Hlen, Nat.eqb_refl. f_equal.
  rewrite <- (map_id z) at 1. rewrite combine_map_both.
  rewrite map_map. apply sum_wrap. intros [a b] _. cbn [fst snd].
  apply mul_congr_l.
Qed.

Lemma length_vecmat_exact (z : list Z) (Q : list (list Z)) :
  length (vecmat_exact z Q) = width_int Q.
Proof. unfold vecmat_exact. rewrite length_map, length_seq. reflexivity. Qed.

(** An integer between the bounds of int64, read as a real. *)
Lemma fits_in_range (z : Z) : Spec.fits_int64 (IZR z) <-> in_range z.
Proof.
  unfold Spec.fits_int64, in_range.
  change (2 ^ 63)%Z with 9223372036854775808%Z.
  change (- 9223372036854775808) with (IZR (- 9223372036854775808)).
  split; intros [H1 H2]; split.
  - apply le_IZR. exact H1.
  - apply lt_IZR. exact H2.
  - apply IZR_le. exact H1.
  - apply IZR_lt. exact H2.
Qed.

End Int64Facts.

(** * The QUBO cost *)

Module QuboFacts.
Import Np Qubo Spec CounterViews SumFacts Int64Facts.

Lemma bind_Some {A B : Type} (m : option A) (k : A -> option B) (a : A) :
  m = Some a -> Err.bind m k = k a.
Proof. intros ->. reflexivity. Qed.

(** [mapM] succeeds when every element does. *)
Lemma mapM_map_Some {A B K : Type} (f : K -> option B) (g : A -> K)
    (h : A -> B) (l : list A) :
  (forall a, In a l -> f (g a) = Some (h a)) ->
  Err.mapM f (map g l) = Some (map h l).
Proof.
  induction l as [|a l IH]; intros H; cbn; [reflexivity|].
  rewrite (H a (or_introl eq_refl)). cbn.
  rewrite IH by (intros; apply H; right; assumption). reflexivity.
Qed.

Lemma int_of_char_bit (c : ascii) :
  is_bit c = true ->
  int_of_char c = Some (if Ascii.eqb c "1"%char then 1%Z else 0%Z).
Proof.
  unfold is_bit. intros H. apply Bool.orb_true_iff in H.
  destruct H as [H|H]; apply Ascii.eqb_eq in H; subst c; reflexivity.
Qed.

Lemma length_list_ascii (b : string) :
  length (list_ascii_of_string b) = String.length b.
Proof. induction b as [|c b IH]; cbn; congruence. Qed.

(** On a 0/1 string the array built by the code is the bit vector. *)
Lemma int_array_bits (n : nat) (b : string) :
  is_bitstring n b = true ->
  int_array b = Some (bit_vector_int b)
  /\ map IZR (bit_vector_int b) = bit_vector b
  /\ length (bit_vector_int b) = n.
Proof.
  unfold is_bitstring. intros H. apply Bool.andb_true_iff in H.
  destruct H as [Hlen Hbits]. apply Nat.eqb_eq in Hlen.
  rewrite forallb_forall in Hbits.
  split; [|split].
  - unfold int_array, bit_vector_int.
    rewrite <- (map_id (list_ascii_of_string b)) at 1.
    apply mapM_map_Some. intros c Hc. apply int_of_char_bit, Hbits, Hc.
  - unfold bit_vector, bit_vector_int. rewrite map_map. apply map_ext.
    intros c. destruct (Ascii.eqb c "1"%char); reflexivity.
  - unfold bit_vector_int. rewrite length_map, length_list_ascii. exact Hlen.
Qed.

Lemma int_array_bitstring (n : nat) (b : string) :
  is_bitstring n b = true ->
  exists z, int_array b = Some z /\ map IZR z = bit_vector b /\ length z = n.
Proof.
  intros H. exists (bit_vector_int b). apply (int_array_bits n b H).
Qed.

Lemma width_square (n : nat) (Q : matrix) : is_square n Q -> width Q = n.
Proof.
  intros [Hlen Hrows]. destruct Q as [|r Q]; cbn in *; [exact Hlen|].
  inversion Hrows; assumption.
Qed.

(** [(z @ Q) @ z] is the quadratic form of [Q] at [z]. *)
Lemma vecmat_dot_form (Q : matrix) (z : vector) :
  is_square (length z) Q ->
  (v <- vecmat z Q ;; dot v z) = Some (qubo_form Q z).
Proof.
  intros HQ. pose proof (width_square _ _ HQ) as Hw. destruct HQ as [Hlen _].
  unfold vecmat. rewrite Hlen, Nat.eqb_refl, Hw. cbn [Err.bind].
  unfold dot. rewrite length_map, length_seq, Nat.eqb_refl.
  f_equal.
  rewrite (py_sum_map_nth _ _ (0, 0)), length_combine, length_map, length_seq,
    Nat.min_id.
  unfold qubo_form. rewrite sum_upto_swap.
  apply sum_upto_ext. intros j Hj.
  rewrite combine_nth by (rewrite length_map, length_seq; reflexivity).
  cbn [fst snd].
  rewrite (nth_indep _ 0 (py_sum (map (fun zr : R * list R =>
             fst zr * nth 0 (snd zr) 0) (combine z Q))))
    by (rewrite length_map, length_seq; exact Hj).
  rewrite (map_nth (fun j0 => py_sum (map (fun zr : R * list R =>
             fst zr * nth j0 (snd zr) 0) (combine z Q))) (seq 0 (length z)) 0%nat j).
  rewrite seq_nth by exact Hj. cbn [Nat.add].
  rewrite (py_sum_map_nth _ _ (0, [])), length_combine, Hlen, Nat.min_id.
  rewrite <- sum_upto_scal_r. apply sum_upto_ext. intros i Hi.
  rewrite combine_nth by (symmetry; exact Hlen). cbn [fst snd].
  reflexivity.
Qed.

(** The cost of one 0/1 string of the right length, on a float array. *)
Lemma get_cost_colouring_bitstring (n : nat) (Q : matrix) (b : string) :
  is_square n Q -> is_bitstring n b = true ->
  get_cost_colouring b (FloatArray Q)
  = Some (FloatScalar (qubo_form Q (bit_vector b))).
Proof.
  intros HQ Hb. destruct (int_array_bits n b Hb) as (Hz & Hv & Hl).
  unfold get_cost_colouring. rewrite Hz. cbn [Err.bind]. rewrite Hv.
  pose proof (vecmat_dot_form Q (bit_vector b)) as H.
  rewrite <- Hv, length_map, Hl, Hv in H. specialize (H HQ).
  destruct (vecmat (bit_vector b) Q) as [v|]; cbn [Err.bind] in *;
    [|discriminate H].
  rewrite H. reflexivity.
Qed.

Lemma square_int_real (n : nat) (Q : list (list Z)) :
  is_square_array n (IntArray Q) -> is_square n (map (map IZR) Q).
Proof.
  intros (Hlen & Hrows & _). split; [rewrite length_map; exact Hlen|].
  rewrite Forall_forall in *. intros r Hr. apply in_map_iff in Hr.
  destruct Hr as (r0 & <- & Hr0). rewrite length_map. apply Hrows, Hr0.
Qed.

Lemma width_int_square (n : nat) (Q : list (list Z)) :
  is_square_array n (IntArray Q) -> width_int Q = n.
Proof.
  intros (Hlen & Hrows & _). destruct Q as [|r Q]; cbn in *; [exact Hlen|].
  inversion Hrows; assumption.
Qed.

(** The exact integer form is the quadratic form of the spec. *)
Lemma form_exact_real (n : nat) (Q : list (list Z)) (b : string) :
  is_square_array n (IntArray Q) -> is_bitstring n b = true ->
  IZR (form_exact Q b) = qubo_form (map (map IZR) Q) (bit_vector b).
Proof.
  intros HQ Hb. destruct (int_array_bits n b Hb) as (_ & Hv & Hl).
  pose proof (vecmat_dot_form (map (map IZR) Q) (bit_vector b)) as H.
  rewrite <- Hv, length_map, Hl in H. specialize (H (square_int_real n Q HQ)).
  rewrite vecmat_IZR in H by (rewrite Hl; symmetry; apply HQ).
  cbn [Err.bind] in H.
  rewrite dot_IZR in H
    by (rewrite length_vecmat_exact, (width_int_square n Q HQ), Hl; reflexivity).
  injection H as H. rewrite Hv in H. exact H.
Qed.

(** The cost of one 0/1 string of the right length, on an int64 array. *)
Lemma get_cost_colouring_int (n : nat) (Q : list (list Z)) (b : string) :
  is_square_array n (IntArray Q) -> is_bitstring n b = true ->
  get_cost_colouring b (IntArray Q)
  = Some (IntScalar (Int64.wrap (form_exact Q b))).
Proof.
  intros HQ Hb. destruct (int_array_bits n b Hb) as (Hz & _ & Hl).
  unfold get_cost_colouring. rewrite Hz. cbn [Err.bind].
  rewrite vecmat_int_wrap by (rewrite Hl; symmetry; apply HQ).
  cbn [Err.bind].
  rewrite dot_int_wrap
    by (rewrite length_vecmat_exact, (width_int_square n Q HQ), Hl; reflexivity).
  reflexivity.
Qed.

(** On either dtype the code pairs a 0/1 string with its computed cost. *)
Lemma get_cost_colouring_computed (n : nat) (Q : ndarray) (b : string) :
  is_square_array n Q -> is_bitstring n b = true ->
  get_cost_colouring b Q = Some (computed_cost Q b).
Proof.
  destruct Q as [Q|Q]; intros HQ Hb.
  - apply (get_cost_colouring_bitstring n); assumption.
  - apply (get_cost_colouring_int n); assumption.
Qed.

(** The computed cost is the quadratic form whenever that fits. *)
Lemma computed_cost_exact (n : nat) (Q : ndarray) (b : string) :
  is_square_array n Q -> is_bitstring n b = true -> costs_fit n Q ->
  value (computed_cost Q b) = qubo_form (to_real Q) (bit_vector b).
Proof.
  destruct Q as [Q|Q]; intros HQ Hb Hfit; [reflexivity|].
  cbn [computed_cost value to_real].
  rewrite <- (form_exact_real n Q b HQ Hb).
  rewrite Int64Facts.wrap_in_range; [reflexivity|].
  apply fits_in_range. rewrite (form_exact_real n Q b HQ Hb).
  apply (Hfit b Hb).
Qed.

(** In a dict every stored key is found with its own value. *)
Lemma getitem_NoDup (c : counter) (k : string) (m : nat) :
  NoDup (keys c) -> In (k, m) c -> getitem c k = Some m.
Proof.
  induction c as [|[k' m'] c IH]; intros Hnd Hin; [contradiction|].
  cbn in Hnd. inversion Hnd as [|? ? Hnotin Hnd']; subst.
  cbn [getitem]. destruct Hin as [Heq|Hin].
  - injection Heq as -> ->. rewrite String.eqb_refl. reflexivity.
  - destruct (String.eqb k' k) eqn:E.
    + apply String.eqb_eq in E. subst k'.
      exfalso. apply Hnotin. unfold keys.
      apply (in_map fst) in Hin. exact Hin.
    + apply IH; assumption.
Qed.

Lemma total_fold_left (l : list nat) (a : nat) :
  fold_left Nat.add l a = (a + fold_right Nat.add 0 l)%nat.
Proof.
  revert a. induction l as [|x l IH]; intros a; cbn; [lia|].
  rewrite IH. lia.
Qed.

Lemma total_values (c : counter) :
  fold_left Nat.add (values c) 0%nat = total_count c.
Proof.
  rewrite total_fold_left. cbn [Nat.add]. unfold values, total_count.
  induction c as [|kv c IH]; cbn; [reflexivity|]. rewrite IH. reflexivity.
Qed.

Lemma py_sum_fold_right {A : Type} (f : A -> R) (l : list A) :
  py_sum (map f l) = fold_right (fun a acc => f a + acc) 0 l.
Proof.
  induction l as [|a l IH]; cbn [map fold_right]; [reflexivity|].
  rewrite py_sum_cons, IH. reflexivity.
Qed.

(** Python's [sum] over float scalars is the sum of their values. *)
Lemma sum_scalars_float (l : list R) :
  value (sum_scalars (map FloatScalar l)) = py_sum l.
Proof.
  unfold sum_scalars, py_sum.
  destruct l as [|x l]; [reflexivity|]. cbn [map fold_left plus value].
  change (IZR 0) with 0.
  generalize (0 + x) as a. induction l as [|y l IH]; intros a; cbn; [reflexivity|].
  apply IH.
Qed.

(** Python's [sum] over int64 scalars is the sum accumulated in int64. *)
Lemma sum_scalars_int (l : list Z) :
  sum_scalars (map IntScalar l) = IntScalar (Int64.sum l).
Proof.
  unfold sum_scalars, Int64.sum. generalize 0%Z as a.
  induction l as [|y l IH]; intros a; cbn; [reflexivity|]. apply IH.
Qed.

(** The terms of the generator all evaluate, on well-formed input. *)
Lemma get_cost_terms (n : nat) (c : counter) (Q : ndarray) :
  is_square_array n Q -> well_formed_counter n c ->
  Err.mapM (fun key =>
              m <- getitem c key ;;
              x <- get_cost_colouring key Q ;;
              Some (times m x)) (keys c)
  = Some (map (fun kv => times (snd kv) (computed_cost Q (fst kv))) c).
Proof.
  intros HQ [Hnd Hbits]. unfold keys at 1.
  apply mapM_map_Some. intros [k m] Hin. cbn [fst snd].
  rewrite (getitem_NoDup c k m Hnd Hin). cbn [Err.bind].
  rewrite (get_cost_colouring_computed n Q k HQ).
  - reflexivity.
  - rewrite Forall_forall in Hbits. apply Hbits.
    unfold keys. apply (in_map fst) in Hin. exact Hin.
Qed.

Lemma mapM_None {A B : Type} (f : A -> option B) (l : list A) (a : A) :
  In a l -> f a = None -> Err.mapM f l = None.
Proof.
  induction l as [|x l IH]; intros Hin Hf; [contradiction|].
  cbn. destruct Hin as [->|Hin].
  - rewrite Hf. reflexivity.
  - destruct (f x); [|reflexivity]. cbn. rewrite (IH Hin Hf). reflexivity.
Qed.

(** Nothing in [get_cost] handles a failure of [get_cost_colouring]: it
    comes out as a failure of [get_cost]. *)
Lemma get_cost_propagates_failure (c : counter) (Q : ndarray) (key : string) :
  In key (keys c) -> get_cost_colouring key Q = None -> get_cost c Q = None.
Proof.
  intros Hin Hfail. unfold get_cost.
  rewrite (mapM_None _ (keys c) key Hin); [reflexivity|].
  rewrite Hfail. destruct (getitem c key); reflexivity.
Qed.

(** On a float array [get_cost] fails exactly on the division. *)
Lemma get_cost_unfold (n : nat) (c : counter) (Q : matrix) :
  is_square n Q -> well_formed_counter n c ->
  get_cost c (FloatArray Q)
  = if (total_count c =? 0)%nat then None else Some (weighted_cost c Q).
Proof.
  intros HQ Hc. unfold get_cost.
  rewrite (get_cost_terms n c (FloatArray Q) HQ Hc). cbn [Err.bind].
  rewrite total_values. destruct (total_count c =? 0)%nat; [reflexivity|].
  cbn [computed_cost times].
  rewrite <- (map_map (fun kv => INR (snd kv) * qubo_form Q (bit_vector (fst kv)))
                      FloatScalar).
  rewrite sum_scalars_float.
  unfold weighted_cost. rewrite py_sum_fold_right. reflexivity.
Qed.

(** On an int64 array the numerator is the exact weighted sum, wrapped. *)
Lemma get_cost_unfold_int (n : nat) (c : counter) (Q : list (list Z)) :
  is_square_array n (IntArray Q) -> well_formed_counter n c ->
  get_cost c (IntArray Q)
  = if (total_count c =? 0)%nat then None
    else Some (IZR (Int64.wrap (weighted_sum_exact c Q)) / INR (total_count c)).
Proof.
  intros HQ Hc. unfold get_cost.
  rewrite (get_cost_terms n c (IntArray Q) HQ Hc). cbn [Err.bind].
  rewrite total_values. destruct (total_count c =? 0)%nat; [reflexivity|].
  cbn [computed_cost times].
  rewrite <- (map_map (fun kv => Int64.mul (Z.of_nat (snd kv))
                                   (Int64.wrap (form_exact Q (fst kv))))
                      IntScalar).
  rewrite sum_scalars_int. cbn [value].
  rewrite (sum_wrap (fun kv => (Z.of_nat (snd kv) * form_exact Q (fst kv))%Z)).
  - reflexivity.
  - intros kv _. apply mul_congr.
Qed.

(** The exact weighted sum is the weighted sum of the spec. *)
Lemma weighted_sum_exact_real (n : nat) (c : counter) (Q : list (list Z)) :
  is_square_array n (IntArray Q) -> well_formed_counter n c ->
  IZR (weighted_sum_exact c Q) = weighted_sum c (map (map IZR) Q).
Proof.
  intros HQ [_ Hbits]. unfold weighted_sum_exact, weighted_sum.
  rewrite IZR_sum_exact, map_map, py_sum_fold_right.
  induction c as [|[b m] c IH]; [reflexivity|].
  cbn [keys map fst] in Hbits. inversion Hbits as [|? ? Hb Hrest]; subst.
  cbn [fold_right fst snd]. rewrite (IH Hrest).
  rewrite mult_IZR, <- INR_IZR_INZ, (form_exact_real n Q b HQ Hb).
  reflexivity.
Qed.

(** On either dtype, when nothing wraps, [get_cost] is the quotient of the
    weighted sum by the total count, with no value on a zero total. *)
Lemma get_cost_average (n : nat) (c : counter) (Q : ndarray) :
  is_square_array n Q -> well_formed_counter n c -> sum_fits c Q ->
  get_cost c Q = weighted_average c Q.
Proof.
  destruct Q as [Q|Q]; intros HQ Hc Hfit; unfold weighted_average.
  - apply (get_cost_unfold n); assumption.
  - rewrite (get_cost_unfold_int n c Q HQ Hc).
    destruct (total_count c =? 0)%nat; [reflexivity|].
    cbn [to_real sum_fits] in *.
    rewrite <- (weighted_sum_exact_real n c Q HQ Hc) in Hfit.
    apply fits_in_range in Hfit.
    rewrite (Int64Facts.wrap_in_range _ Hfit).
    rewrite (weighted_sum_exact_real n c Q HQ Hc). reflexivity.
Qed.

(** C1, amended: on a float array, and on an int64 array as long as the
    weighted sum of the costs stays within the int64 range, [get_cost] of
    a non-empty counter of 0/1 strings of length [len(Q)] is the
    sample-weighted sum of the quadratic forms [z_b^T Q z_b] divided by
    the total count; the quotient has no value when the total is zero. *)
Theorem get_cost_weighted_average (n : nat) (c : counter) (Q : ndarray) :
  is_square_array n Q -> well_formed_counter n c -> c <> [] ->
  sum_fits c Q ->
  get_cost c Q = weighted_average c Q.
Proof.
  intros HQ Hc _ Hfit. apply (get_cost_average n); assumption.
Qed.

End QuboFacts.

(** * [get_cost] on each dtype *)

Module DtypeFacts.
Import Np Qubo Spec CounterViews SumFacts Int64Facts QuboFacts.

Lemma mapM_option_map {A B C : Type} (f : A -> option B) (h : B -> C)
    (l : list A) :
  Err.mapM (fun a => match f a with Some b => Some (h b) | None => None end) l
  = match Err.mapM f l with Some bs => Some (map h bs) | None => None end.
Proof.
  induction l as [|a l IH]; cbn; [reflexivity|].
  rewrite IH. destruct (f a); cbn; [|reflexivity].
  destruct (Err.mapM f l); reflexivity.
Qed.

Lemma mapM_ext {A B : Type} (f g : A -> option B) (l : list A) :
  (forall a, f a = g a) -> Err.mapM f l = Err.mapM g l.
Proof.
  intros H. induction l as [|a l IH]; cbn; [reflexivity|].
  rewrite H, IH. reflexivity.
Qed.

Lemma get_cost_colouring_float (key : string) (Q : matrix) :
  get_cost_colouring key (FloatArray Q)
  = match float_colouring key Q with
    | Some x => Some (FloatScalar x)
    | None => None
    end.
Proof.
  unfold get_cost_colouring, float_colouring.
  destruct (int_array key) as [z|]; cbn [Err.bind]; [|reflexivity].
  destruct (vecmat (map IZR z) Q) as [v|]; cbn [Err.bind]; [|reflexivity].
  destruct (dot v (map IZR z)); reflexivity.
Qed.

Lemma get_cost_colouring_int64 (key : string) (Q : list (list Z)) :
  get_cost_colouring key (IntArray Q)
  = match int_colouring key Q with
    | Some x => Some (IntScalar x)
    | None => None
    end.
Proof.
  unfold get_cost_colouring, int_colouring.
  destruct (int_array key) as [z|]; cbn [Err.bind]; [|reflexivity].
  destruct (vecmat_int z Q) as [v|]; cbn [Err.bind]; [|reflexivity].
  destruct (dot_int v z); reflexivity.
Qed.

(** On a float array [get_cost] is [float_cost]. *)
Lemma get_cost_float (c : counter) (Q : matrix) :
  get_cost c (FloatArray Q) = float_cost c Q.
Proof.
  unfold get_cost, float_cost.
  rewrite (mapM_ext _
             (fun key =>
                match (n <- getitem c key ;;
                       x <- float_colouring key Q ;; Some (INR n * x)) with
                | Some b => Some (FloatScalar b)
                | None => None
                end)).
  - rewrite mapM_option_map.
    destruct (Err.mapM _ (keys c)) as [ys|]; cbn [Err.bind]; [|reflexivity].
    rewrite sum_scalars_float. reflexivity.
  - intros key. destruct (getitem c key) as [n|]; cbn [Err.bind]; [|reflexivity].
    rewrite get_cost_colouring_float.
    destruct (float_colouring key Q); reflexivity.
Qed.

(** On an int64 array [get_cost] is [int_cost]. *)
Lemma get_cost_int (c : counter) (Q : list (list Z)) :
  get_cost c (IntArray Q) = int_cost c Q.
Proof.
  unfold get_cost, int_cost.
  rewrite (mapM_ext _
             (fun key =>
                match (n <- getitem c key ;;
                       x <- int_colouring key Q ;;
                       Some (Int64.mul (Z.of_nat n) x)) with
                | Some b => Some (IntScalar b)
                | None => None
                end)).
  - rewrite mapM_option_map.
    destruct (Err.mapM _ (keys c)) as [ys|]; cbn [Err.bind]; [|reflexivity].
    rewrite sum_scalars_int. reflexivity.
  - intros key. destruct (getitem c key) as [n|]; cbn [Err.bind]; [|reflexivity].
    rewrite get_cost_colouring_int64.
    destruct (int_colouring key Q); reflexivity.
Qed.

End DtypeFacts.

(** * Lists cut into rows, and the condensed vector *)

Module ListFacts.
Import Np Scipy Condensed.

Lemma firstn_app_exact {A : Type} (n : nat) (l1 l2 : list A) :
  length l1 = n -> firstn n (l1 ++ l2) = l1.
Proof.
  intros <-. induction l1 as [|a l1 IH]; cbn; [reflexivity|f_equal; exact IH].
Qed.

Lemma skipn_app_exact {A : Type} (n : nat) (l1 l2 : list A) :
  length l1 = n -> skipn n (l1 ++ l2) = l2.
Proof.
  intros <-. induction l1 as [|a l1 IH]; cbn; [reflexivity|exact IH].
Qed.

Lemma nth_map_seq {B : Type} (F : nat -> B) (n i : nat) (d : B) :
  (i < n)%nat -> nth i (map F (seq 0 n)) d = F i.
Proof.
  intros Hi.
  rewrite (nth_indep _ d (F 0%nat)) by (rewrite length_map, length_seq; exact Hi).
  rewrite (map_nth F (seq 0 n) 0%nat i), seq_nth by exact Hi. reflexivity.
Qed.

Lemma nth_map_lt {A B : Type} (f : A -> B) (l : list A) (i : nat) (d : B)
    (a : A) :
  (i < length l)%nat -> nth i (map f l) d = f (nth i l a).
Proof.
  intros Hi.
  rewrite (nth_indep _ d (f a)) by (rewrite length_map; exact Hi).
  apply map_nth.
Qed.

(** Reshaping a flat vector of even length into rows of two. *)
Lemma chunks_rows_of_two (n : nat) (v : vector) :
  length v = (2 * n)%nat ->
  chunks 2 n v = map (fun i => [nth (2 * i) v 0; nth (2 * i + 1) v 0]) (seq 0 n).
Proof.
  revert v. induction n as [|n IH]; intros v Hlen; [reflexivity|].
  destruct v as [|a [|b v']]; cbn in Hlen; try lia.
  cbn [chunks firstn skipn seq map].
  f_equal. rewrite IH by lia.
  rewrite <- seq_shift, map_map. apply map_ext. intros i.
  replace (2 * S i)%nat with (S (S (2 * i))) by lia.
  replace (S (S (2 * i)) + 1)%nat with (S (S (2 * i + 1))) by lia.
  reflexivity.
Qed.

Lemma pdist_pairs_with (X : matrix) : pdist X = pairs_with euclidean X.
Proof. induction X as [|p ps IH]; cbn; [reflexivity|rewrite IH; reflexivity]. Qed.

Lemma map_pairs_with {A : Type} (f : R -> R) (g : A -> A -> R) (X : list A) :
  map f (pairs_with g X) = pairs_with (fun p q => f (g p q)) X.
Proof.
  induction X as [|p ps IH]; cbn; [reflexivity|].
  rewrite map_app, map_map, IH. reflexivity.
Qed.

(** The condensed vector of [n] points has [n (n - 1) / 2] entries. *)
Lemma length_pairs_with {A : Type} (g : A -> A -> R) (X : list A) :
  (2 * length (pairs_with g X) = length X * (length X - 1))%nat.
Proof.
  induction X as [|p ps IH]; cbn [pairs_with length]; [reflexivity|].
  rewrite length_app, length_map. nia.
Qed.

(** Membership in the condensed vector. *)
Lemma in_pairs_with {A : Type} (g : A -> A -> R) (X : list A) (d : A) (x : R) :
  In x (pairs_with g X) <->
  exists i j, (i < j)%nat /\ (j < length X)%nat
              /\ x = g (nth i X d) (nth j X d).
Proof.
  induction X as [|p ps IH]; cbn [pairs_with length].
  - split; [contradiction|]. intros (i & j & _ & Hj & _). lia.
  - rewrite in_app_iff, in_map_iff, IH. split.
    + intros [(q & Hq & Hin)|(i & j & Hij & Hj & Hx)].
      * destruct (In_nth _ _ d Hin) as (k & Hk & Hnth).
        exists 0%nat, (S k). repeat split; try lia.
        cbn. rewrite Hnth. symmetry; exact Hq.
      * exists (S i), (S j). repeat split; try lia. exact Hx.
    + intros (i & j & Hij & Hj & Hx).
      destruct j as [|j]; [lia|]. destruct i as [|i].
      * left. exists (nth j ps d). split; [symmetry; exact Hx|].
        apply nth_In. lia.
      * right. exists i, j. repeat split; try lia. exact Hx.
Qed.

(** Cutting the condensed vector into the rows of the upper triangle. *)
Lemma upper_rows_pairs_with {A : Type} (g : A -> A -> R) (X : list A) :
  upper_rows (length X) (pairs_with g X) = tails_rows g X.
Proof.
  induction X as [|p ps IH]; cbn [length pairs_with upper_rows tails_rows];
    [reflexivity|].
  rewrite firstn_app_exact, skipn_app_exact by apply length_map.
  rewrite IH. reflexivity.
Qed.

Lemma nth_tails_rows {A : Type} (g : A -> A -> R) (X : list A) (d : A)
    (i : nat) :
  (i < length X)%nat ->
  nth i (tails_rows g X) [] = map (g (nth i X d)) (skipn (S i) X).
Proof.
  revert i. induction X as [|p ps IH]; intros i Hi; cbn in Hi; [lia|].
  destruct i as [|i]; [reflexivity|].
  cbn [tails_rows nth]. rewrite IH by lia. reflexivity.
Qed.

(** The entries of the square form are the values on the pairs. *)
Lemma sq_entry_pairs_with {A : Type} (g : A -> A -> R) (X : list A) (d : A)
    (i j : nat) :
  (i < length X)%nat -> (j < length X)%nat ->
  sq_entry (upper_rows (length X) (pairs_with g X)) i j
  = if (i <? j)%nat then g (nth i X d) (nth j X d)
    else if (j <? i)%nat then g (nth j X d) (nth i X d)
    else 0.
Proof.
  intros Hi Hj. rewrite upper_rows_pairs_with. unfold sq_entry.
  destruct (i <? j)%nat eqn:Eij; [|destruct (j <? i)%nat eqn:Eji];
    [apply Nat.ltb_lt in Eij | apply Nat.ltb_lt in Eji | reflexivity].
  - rewrite (nth_tails_rows g X d i Hi).
    rewrite (nth_map_lt _ _ _ _ d) by (rewrite length_skipn; lia).
    rewrite nth_skipn. f_equal. f_equal. lia.
  - rewrite (nth_tails_rows g X d j Hj).
    rewrite (nth_map_lt _ _ _ _ d) by (rewrite length_skipn; lia).
    rewrite nth_skipn. f_equal. f_equal. lia.
Qed.

End ListFacts.

(** * The embedding cost *)

Module EmbeddingFacts.
Import Np Scipy Condensed Embedding Spec SumFacts ListFacts.

Lemma euclidean_rows (a b c d : R) :
  euclidean [a; b] [c; d] = dist (a, b) (c, d).
Proof.
  unfold euclidean, dist, py_sum. cbn. f_equal. ring.
Qed.

Lemma dist_sym (p q : R * R) : dist p q = dist q p.
Proof. unfold dist. f_equal. ring. Qed.

Lemma dist_zero_iff (p q : R * R) : dist p q = 0 <-> p = q.
Proof.
  destruct p as [a b], q as [c d]. unfold dist. cbn [fst snd]. split.
  - intros H. apply sqrt_eq_0 in H.
    + rewrite <- !Rsqr_pow2 in H. apply Rplus_sqr_eq_0 in H.
      destruct H as [Hx Hy]. f_equal; lra.
    + rewrite <- !Rsqr_pow2.
      apply Rplus_le_le_0_compat; apply Rle_0_sqr.
  - intros H. injection H as -> ->.
    replace ((c - c) ^ 2 + (d - d) ^ 2) with 0 by ring. apply sqrt_0.
Qed.

Lemma div_scalar_by_Some (c : R) (d : vector) :
  Forall (fun x => x <> 0) d ->
  div_scalar_by c d = Some (map (fun x => c / x) d).
Proof.
  unfold div_scalar_by. induction 1 as [|x d Hx Hd IH]; cbn; [reflexivity|].
  destruct (Req_dec_T x 0) as [E|_]; [contradiction|].
  cbn. rewrite IH. reflexivity.
Qed.

Lemma div_scalar_by_inv (c : R) (d w : vector) :
  div_scalar_by c d = Some w -> Forall (fun x => x <> 0) d.
Proof.
  unfold div_scalar_by. revert w. induction d as [|x d IH]; intros w H.
  - constructor.
  - cbn in H. destruct (Req_dec_T x 0) as [E|E]; [discriminate|].
    cbn in H.
    destruct (Err.mapM _ d) as [w'|] eqn:E'; [|discriminate].
    constructor; [exact E|]. apply (IH w'). reflexivity.
Qed.

(** The rows of the reshaped coordinate vector. *)
Lemma reshape_rows (n : nat) (v : vector) :
  length v = (2 * n)%nat ->
  reshape v (n, 2%nat)
  = Some (map (fun i => [nth (2 * i) v 0; nth (2 * i + 1) v 0]) (seq 0 n)).
Proof.
  intros Hlen. unfold reshape.
  rewrite Hlen, (Nat.mul_comm n 2), Nat.eqb_refl.
  rewrite chunks_rows_of_two by exact Hlen. reflexivity.
Qed.

(** [squareform] accepts every condensed vector of pairs. *)
Lemma squareform_pairs_with {A : Type} (g : A -> A -> R) (X : list A) :
  (0 < length X)%nat ->
  squareform (pairs_with g X)
  = Some (to_squareform (length X) (pairs_with g X)).
Proof.
  intros Hpos. pose proof (length_pairs_with g X) as Hk.
  unfold squareform.
  destruct (length (pairs_with g X) =? 0)%nat eqn:E.
  - apply Nat.eqb_eq in E.
    assert (length X = 1%nat) as H1 by nia.
    destruct X as [|p [|q X]]; cbn in H1; try lia. reflexivity.
  - apply Nat.eqb_neq in E.
    assert (Nat.sqrt_up (2 * length (pairs_with g X)) = length X) as ->.
    { apply Nat.sqrt_up_unique; [lia|]. rewrite Hk.
      destruct (length X) as [|[|m]]; cbn [Nat.pred]; nia. }
    rewrite Nat.mul_comm in Hk. rewrite <- Hk, Nat.mul_comm, Nat.eqb_refl.
    reflexivity.
Qed.

Lemma py_sum_concat (f : R -> R) (ll : list (list R)) :
  py_sum (map f (concat ll)) = py_sum (map (fun l => py_sum (map f l)) ll).
Proof.
  induction ll as [|l ll IH]; cbn [concat map]; [reflexivity|].
  rewrite map_app, py_sum_app, py_sum_cons, IH. reflexivity.
Qed.

(** The Frobenius norm of an array given by its entries. *)
Lemma norm_of_entries (n m : nat) (a : nat -> nat -> R) :
  norm (map (fun i => map (fun j => a i j) (seq 0 m)) (seq 0 n))
  = sqrt (sum_upto n (fun i => sum_upto m (fun j => a i j * a i j))).
Proof.
  unfold norm. f_equal. rewrite py_sum_concat, map_map, py_sum_map_seq.
  apply sum_upto_ext. intros i _. rewrite map_map, py_sum_map_seq.
  reflexivity.
Qed.

Lemma bidx_lt (n i : nat) : (i < n)%nat -> bidx n i = i.
Proof.
  intros Hi. unfold bidx. destruct (n =? 1)%nat eqn:E; [|reflexivity].
  apply Nat.eqb_eq in E. lia.
Qed.

(** The difference of two arrays of one shape is taken entry by entry. *)
Lemma bsub_same_shape (n : nat) (A Q : matrix) :
  length A = n -> width A = n -> length Q = n -> width Q = n ->
  bsub A Q
  = Some (map (fun i => map (fun j => entry A i j - entry Q i j) (seq 0 n))
              (seq 0 n)).
Proof.
  intros HA HwA HQ HwQ. unfold bsub, bdim.
  rewrite HA, HQ, HwA, HwQ, Nat.eqb_refl. cbn [Err.bind]. f_equal.
  apply map_ext_in. intros i Hi. apply in_seq in Hi.
  apply map_ext_in. intros j Hj. apply in_seq in Hj.
  rewrite !bidx_lt by lia. reflexivity.
Qed.

Lemma length_to_squareform (d : nat) (w : vector) :
  length (to_squareform d w) = d.
Proof. unfold to_squareform. rewrite length_map, length_seq. reflexivity. Qed.

Lemma width_to_squareform (d : nat) (w : vector) :
  width (to_squareform d w) = d.
Proof.
  unfold to_squareform. destruct d as [|d]; [reflexivity|].
  cbn [seq map width].
  change (length (map (fun j => sq_entry (upper_rows (S d) w) 0 j)
                      (seq 0 (S d))) = S d).
  rewrite length_map, length_seq. reflexivity.
Qed.

Lemma entry_to_squareform (d : nat) (w : vector) (i j : nat) :
  (i < d)%nat -> (j < d)%nat ->
  entry (to_squareform d w) i j = sq_entry (upper_rows d w) i j.
Proof.
  intros Hi Hj. unfold entry, to_squareform.
  rewrite (nth_map_seq _ d i []) by exact Hi.
  rewrite (nth_map_seq _ d j 0) by exact Hj. reflexivity.
Qed.

Section WithDevice.

Variable coeff : R.

Local Abbreviation rows v n :=
  (map (fun i => [nth (2 * i) v 0; nth (2 * i + 1) v 0]) (seq 0 n)).

Lemma nth_rows (v : vector) (n i : nat) :
  (i < n)%nat ->
  nth i (rows v n) [] = [nth (2 * i) v 0; nth (2 * i + 1) v 0].
Proof. intros Hi. rewrite nth_map_seq by exact Hi. reflexivity. Qed.

(** Distinct points have non-zero sixth powers of their distances. *)
Lemma sixth_powers_nonzero (n : nat) (v : vector) :
  pairwise_distinct n v ->
  Forall (fun x => x <> 0)
         (pairs_with (fun p q => euclidean p q ^ 6) (rows v n)).
Proof.
  intros Hd. apply Forall_forall. intros x Hin.
  apply (in_pairs_with _ _ []) in Hin. destruct Hin as (i & j & Hij & Hj & ->).
  rewrite length_map, length_seq in Hj.
  rewrite !nth_rows by lia. rewrite euclidean_rows.
  apply pow_nonzero. intros H0. apply dist_zero_iff in H0.
  apply (Hd i j); [lia|lia|lia|exact H0].
Qed.

(** The entries of the interaction matrix built by the code. *)
Lemma entry_new_Q (n : nat) (v : vector) (i j : nat) :
  (i < n)%nat -> (j < n)%nat ->
  entry (to_squareform (length (rows v n))
           (pairs_with (fun p q => coeff / euclidean p q ^ 6) (rows v n))) i j
  = new_Q coeff v i j.
Proof.
  intros Hi Hj.
  assert (length (rows v n) = n) as HX by (rewrite length_map, length_seq; reflexivity).
  rewrite entry_to_squareform by (rewrite HX; assumption).
  rewrite (sq_entry_pairs_with _ _ []) by (rewrite HX; assumption).
  rewrite !nth_rows by assumption. rewrite !euclidean_rows.
  unfold new_Q, point.
  destruct (i <? j)%nat eqn:Eij; [|destruct (j <? i)%nat eqn:Eji].
  - apply Nat.ltb_lt in Eij.
    destruct (i =? j)%nat eqn:E; [apply Nat.eqb_eq in E; lia|reflexivity].
  - apply Nat.ltb_lt in Eji.
    destruct (i =? j)%nat eqn:E; [apply Nat.eqb_eq in E; lia|].
    rewrite dist_sym. reflexivity.
  - apply Nat.ltb_ge in Eij. apply Nat.ltb_ge in Eji.
    assert (i = j) as -> by lia. rewrite Nat.eqb_refl. reflexivity.
Qed.

(** [evaluate_mapping] once the division has gone through. *)
Lemma evaluate_mapping_unfold (n : nat) (v : vector) (Q : matrix) :
  is_square n Q -> length v = (2 * n)%nat ->
  evaluate_mapping coeff v Q (n, 2%nat)
  = (_ <- div_scalar_by coeff
            (pairs_with (fun p q => euclidean p q ^ 6) (rows v n)) ;;
     Some (mapping_cost coeff n v Q)).
Proof.
  intros HQ Hlen. unfold evaluate_mapping.
  rewrite (reshape_rows n v Hlen). cbn [Err.bind].
  rewrite pdist_pairs_with, map_pairs_with.
  destruct (div_scalar_by coeff _) as [w|] eqn:Ew; [|reflexivity].
  cbn [Err.bind].
  pose proof (div_scalar_by_inv _ _ _ Ew) as Hnz.
  rewrite (div_scalar_by_Some _ _ Hnz) in Ew.
  assert (w = map (fun x => coeff / x)
                  (pairs_with (fun p q => euclidean p q ^ 6) (rows v n)))
    as -> by congruence.
  clear Ew.
  rewrite map_pairs_with.
  assert (length (rows v n) = n) as HX by (rewrite length_map, length_seq; reflexivity).
  destruct n as [|n].
  - destruct HQ as [HQ _]. destruct Q; [|discriminate HQ]. reflexivity.
  - rewrite squareform_pairs_with by (rewrite HX; lia). cbn [Err.bind].
    rewrite (bsub_same_shape (S n)).
    + cbn [Err.bind]. f_equal. rewrite norm_of_entries. unfold mapping_cost.
      f_equal. apply sum_upto_ext. intros i Hi.
      apply sum_upto_ext. intros j Hj.
      rewrite (entry_new_Q (S n) v i j Hi Hj). ring.
    + rewrite length_to_squareform. exact HX.
    + rewrite width_to_squareform. exact HX.
    + apply HQ.
    + apply QuboFacts.width_square. exact HQ.
Qed.

(** C4: on pairwise distinct points [evaluate_mapping] returns the
    Frobenius norm of [new_Q - Q], where [new_Q] is zero on the diagonal
    and [interaction_coeff / d(p_i, p_j)^6] off it. *)
Theorem evaluate_mapping_frobenius (n : nat) (v : vector) (Q : matrix) :
  is_square n Q -> length v = (2 * n)%nat -> pairwise_distinct n v ->
  evaluate_mapping coeff v Q (n, 2%nat) = Some (mapping_cost coeff n v Q).
Proof.
  intros HQ Hlen Hd. rewrite (evaluate_mapping_unfold n v Q HQ Hlen).
  rewrite (div_scalar_by_Some _ _ (sixth_powers_nonzero n v Hd)).
  reflexivity.
Qed.

(** When [evaluate_mapping] has a value the points are pairwise distinct. *)
Lemma evaluate_mapping_defined_distinct (n : nat) (v : vector) (Q : matrix)
    (r : R) :
  is_square n Q -> length v = (2 * n)%nat ->
  evaluate_mapping coeff v Q (n, 2%nat) = Some r -> pairwise_distinct n v.
Proof.
  intros HQ Hlen H. rewrite (evaluate_mapping_unfold n v Q HQ Hlen) in H.
  destruct (div_scalar_by coeff _) as [w|] eqn:Ew; [|discriminate H].
  apply div_scalar_by_inv in Ew. rewrite Forall_forall in Ew.
  assert (forall i j, (i < j)%nat -> (j < n)%nat -> point v i <> point v j)
    as Hlt.
  { intros i j Hij Hj Heq.
    apply (Ew (euclidean (nth i (rows v n) []) (nth j (rows v n) []) ^ 6)).
    - apply (in_pairs_with _ _ []). exists i, j.
      rewrite length_map, length_seq. repeat split; assumption.
    - rewrite !nth_rows by lia. rewrite euclidean_rows.
      apply dist_zero_iff in Heq. unfold point in Heq. rewrite Heq. ring. }
  intros i j Hi Hj Hne.
  destruct (Nat.lt_total i j) as [Hc|[Hc|Hc]].
  - apply Hlt; assumption.
  - contradiction.
  - intros Heq. apply (Hlt j i Hc Hi). symmetry. exact Heq.
Qed.

End WithDevice.

End EmbeddingFacts.

(** * The ring register *)

Module RingFacts.
Import RingRegister.

Lemma INR_L : INR L = 14.
Proof. unfold L. simpl. lra. Qed.

Lemma chord_sqr (a b : R) :
  (cos a - cos b) * (cos a - cos b) + (sin a - sin b) * (sin a - sin b)
  = 2 - 2 * cos (a - b).
Proof.
  rewrite cos_minus.
  pose proof (sin2_cos2 a) as Ha. pose proof (sin2_cos2 b) as Hb.
  unfold Rsqr in Ha, Hb. nra.
Qed.

Lemma half_step_bounds : 0 < PI / INR L < PI / 2.
Proof.
  rewrite INR_L. pose proof PI_RGT_0. split; lra.
Qed.

(** Two atoms whose angles differ by one step or by a full turn less one
    step are at distance [R cos(pi / L)]. *)
Lemma distance_of_step (R0 a b : R) :
  0 <= R0 ->
  cos (a - b) = cos (2 * (PI / INR L)) ->
  let k := R0 / (2 * tan (PI / INR L)) in
  distance (k * cos a, k * sin a) (k * cos b, k * sin b)
  = R0 * cos (PI / INR L).
Proof.
  intros HR Hcos k. unfold distance. cbn [fst snd].
  destruct half_step_bounds as [Hlo Hhi].
  assert (0 < sin (PI / INR L)) as Hs by (apply sin_gt_0; pose proof PI_RGT_0; lra).
  assert (0 < cos (PI / INR L)) as Hc
    by (apply cos_gt_0; pose proof PI_RGT_0; lra).
  replace ((k * cos a - k * cos b) * (k * cos a - k * cos b)
           + (k * sin a - k * sin b) * (k * sin a - k * sin b))
    with (k * k * ((cos a - cos b) * (cos a - cos b)
                   + (sin a - sin b) * (sin a - sin b))) by ring.
  rewrite chord_sqr, Hcos, cos_2a_sin.
  replace (k * k * (2 - 2 * (1 - 2 * sin (PI / INR L) * sin (PI / INR L))))
    with ((R0 * cos (PI / INR L)) * (R0 * cos (PI / INR L))).
  - apply sqrt_square. apply Rmult_le_pos; lra.
  - unfold k, tan. field. split; lra.
Qed.

Lemma ring_point_next (R0 : R) (k : nat) :
  0 <= R0 ->
  distance (ring_point R0 k) (ring_point R0 (S k)) = R0 * cos (PI / INR L).
Proof.
  intros HR. unfold ring_point. apply distance_of_step; [exact HR|].
  rewrite <- cos_neg. f_equal. rewrite S_INR, INR_L. field.
Qed.

Lemma ring_point_wrap (R0 : R) :
  0 <= R0 ->
  distance (ring_point R0 (L - 1)) (ring_point R0 0) = R0 * cos (PI / INR L).
Proof.
  intros HR. unfold ring_point. apply distance_of_step; [exact HR|].
  replace (INR (L - 1) * 2 * PI / INR L - INR 0 * 2 * PI / INR L)
    with (2 * PI - 2 * (PI / INR L)).
  - rewrite cos_minus, cos_2PI, sin_2PI. ring.
  - rewrite INR_L. unfold L. simpl. field.
Qed.

Lemma nth_coords (R0 : R) (k : nat) (d : R * R) :
  (k < L)%nat -> nth k (coords R0) d = ring_point R0 k.
Proof. intros Hk. unfold coords. apply ListFacts.nth_map_seq. exact Hk. Qed.

Lemma cos_half_step_lt_1 : cos (PI / INR L) < 1.
Proof.
  destruct half_step_bounds as [Hlo Hhi]. pose proof PI_RGT_0.
  rewrite <- cos_0. apply cos_decreasing_1; lra.
Qed.

(** C7 (the separation is not the blockade radius): every pair of
    circularly adjacent atoms of [coords] is at distance
    [R_interatomic * cos(pi / 14)], which is less than [R_interatomic]. *)
Theorem ring_adjacent_distance (R_interatomic : R) (k : nat) :
  0 < R_interatomic -> (k < L)%nat ->
  let p := nth k (coords R_interatomic) (0, 0) in
  let q := nth ((k + 1) mod L) (coords R_interatomic) (0, 0) in
  distance p q = R_interatomic * cos (PI / INR L)
  /\ distance p q < R_interatomic.
Proof.
  intros HR Hk p q.
  assert (distance p q = R_interatomic * cos (PI / INR L)) as Hd.
  { unfold p, q.
    rewrite !nth_coords by (try apply Nat.mod_upper_bound; unfold L in *; lia).
    destruct (Nat.eq_dec k (L - 1)) as [->|Hne].
    - replace ((L - 1 + 1) mod L)%nat with 0%nat by reflexivity.
      apply ring_point_wrap. lra.
    - rewrite Nat.mod_small by (unfold L in *; lia).
      replace (k + 1)%nat with (S k) by lia.
      apply ring_point_next. lra. }
  split; [exact Hd|]. rewrite Hd.
  pose proof cos_half_step_lt_1. nra.
Qed.

Lemma ring_adjacent_distance_witness :
  distance (nth 0 (coords 1) (0, 0)) (nth 1 (coords 1) (0, 0)) < 1.
Proof.
  apply (ring_adjacent_distance 1 0); [lra | unfold L; lia].
Defined.

End RingFacts.

(** * Where the cost functions are defined *)

Module DefinedFacts.
Import Np Qubo Embedding Spec CounterViews Int64Facts QuboFacts EmbeddingFacts.

(** A two-variable instance used to exercise the statements. *)
Lemma example_square : is_square 2 [[0; 1]; [1; 0]].
Proof. split; [reflexivity|repeat constructor]. Qed.

Lemma example_int_square : is_square_array 2 (IntArray [[0; 1]; [1; 0]]%Z).
Proof.
  split; [reflexivity|]. split; [repeat constructor|].
  repeat constructor; discriminate.
Qed.

Lemma example_counter :
  well_formed_counter 2 [("01"%string, 1%nat); ("11"%string, 3%nat)].
Proof.
  split; cbn.
  - repeat constructor; cbn; intuition discriminate.
  - repeat constructor.
Qed.

Lemma example_sum_fits :
  sum_fits [("01"%string, 1%nat); ("11"%string, 3%nat)]
           (IntArray [[0; 1]; [1; 0]]%Z).
Proof.
  cbn [sum_fits to_real].
  rewrite <- (weighted_sum_exact_real 2 _ _ example_int_square example_counter).
  apply fits_in_range. split; [vm_compute; discriminate|vm_compute; reflexivity].
Qed.

Lemma example_points : pairwise_distinct 2 [0; 0; 1; 0].
Proof.
  intros i j Hi Hj Hne.
  destruct i as [|[|i]], j as [|[|j]]; try lia;
    unfold point; cbn; intros H; injection H; intros; lra.
Qed.

Lemma get_cost_weighted_average_witness :
  get_cost [("01"%string, 1%nat); ("11"%string, 3%nat)]
           (FloatArray [[0; 1]; [1; 0]])
  = weighted_average [("01"%string, 1%nat); ("11"%string, 3%nat)]
                     (FloatArray [[0; 1]; [1; 0]])
  /\ get_cost [("01"%string, 1%nat); ("11"%string, 3%nat)]
              (IntArray [[0; 1]; [1; 0]]%Z)
     = weighted_average [("01"%string, 1%nat); ("11"%string, 3%nat)]
                        (IntArray [[0; 1]; [1; 0]]%Z).
Proof.
  split.
  - apply (get_cost_weighted_average 2).
    + exact example_square.
    + exact example_counter.
    + discriminate.
    + exact I.
  - apply (get_cost_weighted_average 2).
    + exact example_int_square.
    + exact example_counter.
    + discriminate.
    + exact example_sum_fits.
Defined.

(** C1 as stated fails on an integer matrix: with every entry of [Q] equal
    to 2^62 the cost of ['11'] is 2^64, which the int64 products hold as
    0; [get_cost] returns 0 where the weighted average is 2^64. *)
Lemma get_cost_int64_wrap_counterexample :
  let Q := IntArray [[4611686018427387904; 4611686018427387904];
                     [4611686018427387904; 4611686018427387904]]%Z in
  let c := [("11"%string, 1%nat)] in
  is_square_array 2 Q
  /\ well_formed_counter 2 c
  /\ c <> []
  /\ get_cost c Q = Some 0
  /\ weighted_average c Q = Some 18446744073709551616
  /\ get_cost c Q <> weighted_average c Q.
Proof.
  cbv zeta.
  set (Q := [[4611686018427387904; 4611686018427387904];
             [4611686018427387904; 4611686018427387904]]%Z).
  set (c := [("11"%string, 1%nat)]).
  assert (is_square_array 2 (IntArray Q)) as HQ.
  { split; [reflexivity|]. split; [repeat constructor|].
    repeat constructor; discriminate. }
  assert (well_formed_counter 2 c) as Hc.
  { split; cbn; repeat constructor. intros []. }
  assert (get_cost c (IntArray Q) = Some 0) as Hcode.
  { rewrite (get_cost_unfold_int 2 c Q HQ Hc).
    change (total_count c) with 1%nat. cbn [Nat.eqb INR].
    replace (Int64.wrap (weighted_sum_exact c Q)) with 0%Z by reflexivity.
    f_equal. lra. }
  assert (weighted_average c (IntArray Q) = Some 18446744073709551616) as Hspec.
  { unfold weighted_average. change (total_count c) with 1%nat.
    cbn [Nat.eqb INR to_real]. f_equal.
    change (weighted_cost c (map (map IZR) Q))
      with (weighted_sum c (map (map IZR) Q) / INR (total_count c)).
    rewrite <- (weighted_sum_exact_real 2 c Q HQ Hc).
    replace (weighted_sum_exact c Q) with 18446744073709551616%Z by reflexivity.
    change (total_count c) with 1%nat. cbn [INR]. lra. }
  repeat split; try assumption; try apply HQ; try apply Hc.
  - discriminate.
  - rewrite Hcode, Hspec. intros H. injection H as H. lra.
Qed.

Lemma evaluate_mapping_frobenius_witness :
  evaluate_mapping 1 [0; 0; 1; 0] [[0; 1]; [1; 0]] (2%nat, 2%nat)
  = Some (mapping_cost 1 2 [0; 0; 1; 0] [[0; 1]; [1; 0]]).
Proof.
  apply (evaluate_mapping_frobenius 1 2).
  - exact example_square.
  - reflexivity.
  - exact example_points.
Defined.

(** [get_cost] has a value exactly when the division has one. *)
Lemma get_cost_defined (n : nat) (c : counter) (Q : ndarray) :
  is_square_array n Q -> well_formed_counter n c ->
  (exists x, get_cost c Q = Some x) <-> (0 < total_count c)%nat.
Proof.
  intros HQ Hc.
  assert (exists y, get_cost c Q
                    = if (total_count c =? 0)%nat then None else Some y)
    as [y Hy].
  { destruct Q as [Q|Q].
    - exists (weighted_cost c Q). apply (get_cost_unfold n); assumption.
    - exists (IZR (Int64.wrap (weighted_sum_exact c Q)) / INR (total_count c)).
      apply (get_cost_unfold_int n); assumption. }
  rewrite Hy. destruct (total_count c =? 0)%nat eqn:E.
  - apply Nat.eqb_eq in E. split; [intros [x Hx]; discriminate|lia].
  - apply Nat.eqb_neq in E. split; [lia|]. intros _. exists y. reflexivity.
Qed.

(** C6: on well-formed input the only undefined step of [get_cost] is the
    division by the total count, and the only undefined step of
    [evaluate_mapping] is the division by the sixth powers of the
    distances; so the first has a value exactly when the counter is not
    empty and its total is positive, the second exactly when the points
    are pairwise distinct.  This holds for a matrix of either dtype. *)
Theorem cost_functions_defined_iff (coeff : R) (n : nat) (c : counter)
    (v : vector) (Q : ndarray) :
  is_square_array n Q -> well_formed_counter n c -> length v = (2 * n)%nat ->
  ((exists x, get_cost c Q = Some x)
   <-> c <> [] /\ (0 < total_count c)%nat)
  /\ ((exists r, evaluate_mapping coeff v (to_real Q) (n, 2%nat) = Some r)
      <-> pairwise_distinct n v).
Proof.
  intros HQ Hc Hlen.
  assert (is_square n (to_real Q)) as HR.
  { destruct Q as [Q|Q]; [exact HQ|apply square_int_real; exact HQ]. }
  split; split.
  - intros Hx. apply (get_cost_defined n c Q HQ Hc) in Hx.
    split; [|exact Hx]. intros ->. cbn in Hx. lia.
  - intros [_ Hpos]. apply (get_cost_defined n c Q HQ Hc). exact Hpos.
  - intros [r Hr].
    apply (evaluate_mapping_defined_distinct coeff n v (to_real Q) r);
      assumption.
  - intros Hd. exists (mapping_cost coeff n v (to_real Q)).
    rewrite (evaluate_mapping_unfold coeff n v (to_real Q) HR Hlen).
    rewrite (div_scalar_by_Some _ _ (sixth_powers_nonzero n v Hd)).
    reflexivity.
Qed.

Lemma cost_functions_defined_iff_witness :
  (exists x, get_cost [("01"%string, 1%nat); ("11"%string, 3%nat)]
                      (FloatArray [[0; 1]; [1; 0]]) = Some x)
  /\ (exists r, evaluate_mapping 1 [0; 0; 1; 0] [[0; 1]; [1; 0]]
                                 (2%nat, 2%nat) = Some r).
Proof.
  destruct (cost_functions_defined_iff 1 2
              [("01"%string, 1%nat); ("11"%string, 3%nat)]
              [0; 0; 1; 0] (FloatArray [[0; 1]; [1; 0]])
              example_square example_counter eq_refl) as [Hcost Hmap].
  split.
  - apply Hcost. split; [discriminate|cbn; lia].
  - apply Hmap. exact example_points.
Defined.

End DefinedFacts.

(** * The QAOA repetition loop *)

Module QaoaFacts.
Import Qaoa.

Section Loop.

Variable World : Type.
Variable draw_guess : World -> World * (list R * list R).
Variable minimize : World -> list R -> World * outcome OptimizeResult.

(** A repetition whose [minimize] returns appends one score and one
    parameter vector. *)
Lemma repetition_success (st : loop_state World) (w2 : World)
    (res : OptimizeResult) :
  minimize (fst (draw_guess (world st)))
           (fst (snd (draw_guess (world st)))
            ++ snd (snd (draw_guess (world st))))
  = (w2, Returns res) ->
  repetition World draw_guess minimize st
  = Normal (mkLoop w2 (scores st ++ [res_fun res]) (params st ++ [res_x res])).
Proof.
  intros H. unfold repetition.
  destruct (draw_guess (world st)) as [w1 guess]. cbn [fst snd] in H.
  rewrite H. reflexivity.
Qed.

Lemma repetition_caught (st : loop_state World) (w2 : World) (e : py_exc) :
  minimize (fst (draw_guess (world st)))
           (fst (snd (draw_guess (world st)))
            ++ snd (snd (draw_guess (world st))))
  = (w2, Raises e) ->
  isinstance_Exception e = true ->
  repetition World draw_guess minimize st
  = Normal (mkLoop w2 (scores st) (params st)).
Proof.
  intros H He. unfold repetition.
  destruct (draw_guess (world st)) as [w1 guess]. cbn [fst snd] in H.
  rewrite H, He. reflexivity.
Qed.

(** A repetition that ends normally keeps or extends both lists by one
    element, the same for both. *)
Lemma repetition_appends (st st' : loop_state World) :
  repetition World draw_guess minimize st = Normal st' ->
  (scores st' = scores st /\ params st' = params st)
  \/ (exists res, scores st' = scores st ++ [res_fun res]
                  /\ params st' = params st ++ [res_x res]).
Proof.
  unfold repetition. destruct (draw_guess (world st)) as [w1 guess].
  destruct (minimize w1 (fst guess ++ snd guess)) as [w2 [res|e]].
  - intros H. injection H as <-. right. exists res. split; reflexivity.
  - destruct (isinstance_Exception e); intros H; [|discriminate H].
    injection H as <-. left. split; reflexivity.
Qed.

(** The two lists stay of one length, and grow by at most one element for
    each repetition. *)
Lemma run_loop_lengths (n : nat) (st st' : loop_state World) :
  run_loop World draw_guess minimize n st = Normal st' ->
  length (scores st) = length (params st) ->
  length (scores st') = length (params st')
  /\ (length (scores st) <= length (scores st') <= length (scores st) + n)%nat.
Proof.
  revert st. induction n as [|n IH]; intros st Hrun Hlen; cbn [run_loop] in Hrun.
  - injection Hrun as <-. split; [exact Hlen|lia].
  - destruct (repetition World draw_guess minimize st) as [st1|e st1] eqn:Hrep;
      [|discriminate Hrun].
    destruct (repetition_appends st st1 Hrep) as [[Hs Hp]|(res & Hs & Hp)].
    + destruct (IH st1 Hrun) as [H1 H2]; [rewrite Hs, Hp; exact Hlen|].
      rewrite Hs in H2. split; [exact H1|lia].
    + destruct (IH st1 Hrun) as [H1 H2];
        [rewrite Hs, Hp, !length_app; cbn; lia|].
      rewrite Hs, length_app in H2. cbn in H2. split; [exact H1|lia].
Qed.

(** When [minimize] raises an instance of [Exception] the repetition ends
    normally with [scores] and [params] unchanged, and the loop goes on
    with the remaining repetitions from that state. *)
Lemma caught_then_continues (st : loop_state World) (w2 : World)
    (e : py_exc) (k : nat) :
  minimize (fst (draw_guess (world st)))
           (fst (snd (draw_guess (world st)))
            ++ snd (snd (draw_guess (world st))))
  = (w2, Raises e) ->
  isinstance_Exception e = true ->
  repetition World draw_guess minimize st
  = Normal (mkLoop w2 (scores st) (params st))
  /\ run_loop World draw_guess minimize (S k) st
     = run_loop World draw_guess minimize k (mkLoop w2 (scores st) (params st)).
Proof.
  intros H He. pose proof (repetition_caught st w2 e H He) as Hrep.
  split; [exact Hrep|]. cbn [run_loop]. rewrite Hrep. reflexivity.
Qed.

(** An exception that is not an instance of [Exception] leaves the loop. *)
Lemma base_exception_propagates (st : loop_state World) (w2 : World)
    (e : py_exc) (k : nat) :
  minimize (fst (draw_guess (world st)))
           (fst (snd (draw_guess (world st)))
            ++ snd (snd (draw_guess (world st))))
  = (w2, Raises e) ->
  isinstance_Exception e = false ->
  run_loop World draw_guess minimize (S k) st
  = Propagates e (mkLoop w2 (scores st) (params st)).
Proof.
  intros H He. cbn [run_loop]. unfold repetition.
  destruct (draw_guess (world st)) as [w1 guess]. cbn [fst snd] in H.
  rewrite H, He. reflexivity.
Qed.

(** As long as [minimize] raises nothing but instances of [Exception], no
    repetition stops the loop: it runs through all its repetitions. *)
Lemma run_loop_completes (n : nat) (st : loop_state World) :
  (forall w x w' e, minimize w x = (w', Raises e) ->
                    isinstance_Exception e = true) ->
  exists st', run_loop World draw_guess minimize n st = Normal st'.
Proof.
  intros Hexc. revert st. induction n as [|n IH]; intros st; cbn [run_loop].
  - exists st. reflexivity.
  - unfold repetition. destruct (draw_guess (world st)) as [w1 guess].
    destruct (minimize w1 (fst guess ++ snd guess)) as [w2 [a|e]] eqn:Em.
    + apply IH.
    + rewrite (Hexc _ _ _ _ Em). apply IH.
Qed.

End Loop.

(** C5 as stated fails: a [KeyboardInterrupt] raised inside [minimize] is
    not an instance of [Exception]; it is not caught, and the loop stops
    in its first repetition. *)
Lemma keyboard_interrupt_counterexample :
  let e := mkExc "KeyboardInterrupt" FromBaseExceptionOnly in
  let draw := fun w : unit => (w, ([1], [2])) in
  let minimize := fun (w : unit) (_ : list R) =>
                    (w, @Raises OptimizeResult e) in
  repetition unit draw minimize (mkLoop tt [] [])
  = Propagates e (mkLoop tt [] [])
  /\ qaoa_loop unit draw minimize tt = Propagates e (mkLoop tt [] [])
  /\ forall st', repetition unit draw minimize (mkLoop tt [] []) <> Normal st'.
Proof.
  cbv zeta. repeat split; try reflexivity. intros st'. discriminate.
Qed.

End QaoaFacts.

(** * Statements and the exceptions they let through *)

Module ExecFacts.
Import Qaoa Repo.

(** Induction over statements, through the lists of statements in them. *)
Lemma stmt_induction (P : stmt -> Prop) :
  (forall line src, P (Simple line src)) ->
  (forall line header body, Forall P body -> P (For line header body)) ->
  (forall line test body orelse,
     Forall P body -> Forall P orelse -> P (If line test body orelse)) ->
  (forall line name body, Forall P body -> P (Def line name body)) ->
  (forall line body cls handler,
     Forall P body -> Forall P handler -> P (Try line body cls handler)) ->
  forall s, P s.
Proof.
  intros HS HF HI HD HT. fix IH 1.
  assert (forall l, Forall P l) as Hl.
  { intros l. induction l as [|s l IHl]; constructor; [apply IH|exact IHl]. }
  intros [line src|line header body|line test body orelse|line name body
         |line body cls handler].
  - apply HS.
  - apply HF, Hl.
  - apply HI; apply Hl.
  - apply HD, Hl.
  - apply HT; apply Hl.
Qed.

Lemma caught_by_incl (hs hs' : list site) (e : py_exc) :
  incl hs hs' -> caught_by hs e -> caught_by hs' e.
Proof.
  intros Hi (line & cls & h & Hin & Hc). exists line, cls, h.
  split; [apply Hi, Hin|exact Hc].
Qed.

Lemma accounts_incl {World : Type} (hs hs' : list site)
    (f : World -> list py_exc -> World * list py_exc * option py_exc) :
  incl hs hs' -> accounts hs f -> accounts hs' f.
Proof.
  intros Hi Hf w log. destruct (Hf w log) as (sw & Hsw & Hlog).
  exists sw. split; [|exact Hlog].
  eapply Forall_impl; [|exact Hsw]. intros e. apply caught_by_incl, Hi.
Qed.

Section Exec.

Variable World : Type.
Variable run : nat -> World -> World * option py_exc.
Variable items : nat -> World -> nat.
Variable holds : nat -> World -> bool.

Let exec := exec World run items holds.

Lemma step_log (line : nat) (w : World) (log : list py_exc) :
  match step World run line w log with
  | (_, log', None) => log' = log
  | (_, log', Some e) => log' = log ++ [e]
  end.
Proof. unfold step. destruct (run line w) as [w' [e|]]; reflexivity. Qed.

Lemma step_accounts (hs : list site) (line : nat) :
  accounts hs (step World run line).
Proof.
  intros w log. exists []. split; [constructor|].
  pose proof (step_log line w log) as H.
  destruct (step World run line w log) as [[w' log'] [e|]]; cbn;
    rewrite ?app_nil_r; exact H.
Qed.

(** One run after another. *)
Lemma then_accounts (hs : list site)
    (f g : World -> list py_exc -> result World) :
  accounts hs f -> accounts hs g ->
  accounts hs (fun w log =>
                 match f w log with
                 | (w', log', None) => g w' log'
                 | r => r
                 end).
Proof.
  intros Hf Hg w log. destruct (Hf w log) as (sw & Hsw & Hlog).
  destruct (f w log) as [[w' log'] [e|]].
  - exists sw. split; assumption.
  - destruct (Hg w' log') as (sw' & Hsw' & Hlog'). subst log'.
    exists (sw ++ sw'). split; [apply Forall_app; split; assumption|].
    destruct (g w' (log ++ sw)) as [[w'' log''] [e|]]; subst log'';
      rewrite <- ?app_assoc; reflexivity.
Qed.

Lemma block_accounts (l : list stmt) :
  Forall (fun s => accounts (handlers s) (exec s)) l ->
  accounts (flat_map handlers l) (exec_block World exec l).
Proof.
  induction 1 as [|s l Hs _ IH]; cbn [flat_map exec_block].
  - intros w log. exists []. split; [constructor|]. rewrite app_nil_r.
    reflexivity.
  - apply (then_accounts _ (exec s) (exec_block World exec l)).
    + apply (accounts_incl (handlers s)); [apply incl_appl, incl_refl|exact Hs].
    + apply (accounts_incl (flat_map handlers l));
        [apply incl_appr, incl_refl|exact IH].
Qed.

Lemma iterate_accounts (hs : list site)
    (body : World -> list py_exc -> result World) (n : nat) :
  accounts hs body -> accounts hs (iterate World body n).
Proof.
  intros Hb. induction n as [|n IH]; cbn [iterate].
  - intros w log. exists []. split; [constructor|]. rewrite app_nil_r.
    reflexivity.
  - apply (then_accounts hs body (iterate World body n)); assumption.
Qed.

(** Whatever a statement swallows was caught by a handler inside it. *)
Lemma exec_accounts (s : stmt) : accounts (handlers s) (exec s).
Proof.
  induction s as [line src|line header body IH|line test body orelse IHb IHo
                 |line name body IH|line body cls handler IHb IHh]
    using stmt_induction; cbn [handlers].
  - apply (step_accounts [] line).
  - pose proof (block_accounts body IH) as Hb.
    apply (then_accounts _ (step World run line)
             (fun w1 log1 =>
                iterate World (exec_block World exec body) (items line w1)
                        w1 log1)).
    + apply step_accounts.
    + intros w1 log1. apply (iterate_accounts _ _ (items line w1) Hb).
  - pose proof (block_accounts body IHb) as Hb.
    pose proof (block_accounts orelse IHo) as Ho.
    apply (then_accounts _ (step World run line)
             (fun w1 log1 =>
                if holds line w1 then exec_block World exec body w1 log1
                else exec_block World exec orelse w1 log1)).
    + apply step_accounts.
    + intros w1 log1. destruct (holds line w1).
      * apply (accounts_incl (flat_map handlers body));
          [apply incl_appl, incl_refl|exact Hb].
      * apply (accounts_incl (flat_map handlers orelse));
          [apply incl_appr, incl_refl|exact Ho].
  - intros w log. exists []. split; [constructor|]. rewrite app_nil_r.
    reflexivity.
  - pose proof (block_accounts body IHb) as Hb.
    pose proof (block_accounts handler IHh) as Hh.
    set (hs := (line, cls, handler)
                 :: flat_map handlers body ++ flat_map handlers handler).
    assert (incl (flat_map handlers body) hs) as Hib
      by (apply incl_tl, incl_appl, incl_refl).
    assert (incl (flat_map handlers handler) hs) as Hih
      by (apply incl_tl, incl_appr, incl_refl).
    intros w log. unfold exec. cbn [Repo.exec]. fold exec.
    destruct (Hb w log) as (sw & Hsw & Hlog).
    assert (Forall (caught_by hs) sw) as Hsw'.
    { eapply Forall_impl; [|exact Hsw]. intros e. apply caught_by_incl, Hib. }
    destruct (exec_block World exec body w log) as [[w1 log1] [e|]].
    + destruct (catches cls e) eqn:Hc.
      * destruct (Hh w1 log1) as (sw2 & Hsw2 & Hlog2). subst log1.
        exists (sw ++ [e] ++ sw2). split.
        { apply Forall_app. split; [exact Hsw'|]. apply Forall_app. split.
          - constructor; [|constructor]. exists line, cls, handler.
            split; [left; reflexivity|exact Hc].
          - eapply Forall_impl; [|exact Hsw2]. intros e'.
            apply caught_by_incl, Hih. }
        destruct (exec_block World exec handler w1 (log ++ sw ++ [e]))
          as [[w2 log2] [e2|]]; subst log2; rewrite <- ?app_assoc; reflexivity.
      * exists sw. split; assumption.
    + exists sw. split; assumption.
Qed.

Lemma cell_accounts (l : list stmt) :
  accounts (flat_map handlers l) (exec_cell World run items holds l).
Proof.
  apply block_accounts. rewrite Forall_forall. intros s _. apply exec_accounts.
Qed.

End Exec.

(** A block with no handler in it swallows nothing. *)
Lemma no_handler_swallows_nothing (l : list stmt) :
  flat_map handlers l = [] -> swallows_nothing l.
Proof.
  intros Hnone World run items holds w log.
  destruct (cell_accounts World run items holds l w log) as (sw & Hsw & Hlog).
  rewrite Hnone in Hsw.
  assert (sw = []) as ->.
  { destruct sw as [|e sw]; [reflexivity|]. inversion Hsw as [|? ? He _]; subst.
    destruct He as (? & ? & ? & [] & _). }
  cbn [app] in Hlog.
  destruct (exec_cell World run items holds l w log) as [[w' log'] [e|]];
    [exact Hlog|rewrite app_nil_r in Hlog; exact Hlog].
Qed.

(** A block whose handlers all name [Exception] swallows nothing else. *)
Lemma Exception_handlers_only (l : list stmt) :
  Forall (fun h : site => snd (fst h) = "Exception"%string)
         (flat_map handlers l) ->
  swallows_only_Exception l.
Proof.
  intros Hall World run items holds w log.
  destruct (cell_accounts World run items holds l w log) as (sw & Hsw & Hlog).
  exists sw. split; [|exact Hlog].
  eapply Forall_impl; [|exact Hsw].
  intros e (line & cls & h & Hin & Hc).
  rewrite Forall_forall in Hall. specialize (Hall _ Hin). cbn in Hall.
  subst cls. exact Hc.
Qed.

(** The whole repository holds one handler, in the QAOA cell. *)
Lemma repository_handlers :
  flat_map (flat_map handlers) repository = [the_handler].
Proof. reflexivity. Qed.

Lemma repository_split :
  repository = cells_before ++ qaoa_cell :: cells_after.
Proof. reflexivity. Qed.

Lemma other_cells_no_handler :
  Forall (fun cell => flat_map handlers cell = []) (cells_before ++ cells_after).
Proof. repeat constructor. Qed.

Lemma def_bodies_no_handler :
  Forall (fun body => flat_map handlers body = [])
         (flat_map (flat_map def_bodies) repository).
Proof. repeat constructor. Qed.

End ExecFacts.

(** * The QAOA cell, statement by statement *)

Module ReadingFacts.
Import Qaoa Repo.

Section Reading.

Variable World : Type.
Variable draw_guess : World -> World * (list R * list R).
Variable minimize : World -> list R -> World * outcome OptimizeResult.

Let exec :=
  Repo.exec (cell_state World) (run_qaoa World draw_guess minimize)
            (items_qaoa World) (holds_qaoa World).

(** One pass through the body of the [for], statement by statement, is a
    repetition of [Qaoa]. *)
Lemma body_agrees (cs : cell_state World) (log : list py_exc) :
  agrees World
    (exec_block (cell_state World) exec
       [Simple 911 "guess = {'t': np.random.uniform(1, 10, LAYERS), 's': np.rando...";
        qaoa_try] cs log)
    (repetition World draw_guess minimize (loop cs)).
Proof.
  destruct cs as [[w sc pa] x r].
  cbv [repetition agrees exec qaoa_try Repo.exec exec_block step run_qaoa
       Nat.eqb loop world scores params x0 res catches String.eqb Ascii.eqb
       Bool.eqb fst snd].
  destruct (draw_guess w) as [w1 guess].
  destruct (minimize w1
              ((let (a, _) := guess in a) ++ (let (_, b) := guess in b)))
    as [w2 [a|e]].
  - split; reflexivity.
  - destruct (isinstance_Exception e); split; reflexivity.
Qed.

(** The [for] over [n] items is [run_loop]. *)
Lemma iterate_agrees (n : nat) (cs : cell_state World) (log : list py_exc) :
  agrees World
    (iterate (cell_state World)
       (exec_block (cell_state World) exec
          [Simple 911 "guess = {'t': np.random.uniform(1, 10, LAYERS), 's': np.rando...";
           qaoa_try]) n cs log)
    (run_loop World draw_guess minimize n (loop cs)).
Proof.
  revert cs log. induction n as [|n IH]; intros cs log; cbn [iterate run_loop].
  - split; reflexivity.
  - pose proof (body_agrees cs log) as Hb.
    destruct (exec_block _ _ _ cs log) as [[cs1 log1] [e|]];
      destruct (repetition World draw_guess minimize (loop cs)) as [st1|e1 st1];
      cbn [agrees fst snd] in Hb; destruct Hb as [Hst He]; try discriminate.
    + injection He as ->. split; [exact Hst|reflexivity].
    + subst st1. apply IH.
Qed.

Lemma block_single (s : stmt) (cs : cell_state World) (log : list py_exc) :
  exec_block (cell_state World) exec [s] cs log = exec s cs log.
Proof.
  cbn [exec_block]. destruct (exec s cs log) as [[cs' log'] [e|]]; reflexivity.
Qed.

(** The whole cell, run from any state, is the loop of [Qaoa] started
    with both lists empty. *)
Lemma qaoa_cell_agrees (cs : cell_state World) (log : list py_exc) :
  agrees World
    (exec_cell (cell_state World) (run_qaoa World draw_guess minimize)
               (items_qaoa World) (holds_qaoa World) qaoa_cell cs log)
    (qaoa_loop World draw_guess minimize (world (loop cs))).
Proof.
  destruct cs as [[w sc pa] x r]. unfold qaoa_loop, exec_cell, qaoa_cell.
  fold exec.
  change (exec_block (cell_state World) exec
            [Simple 906 "scores = []"; Simple 907 "params = []";
             Simple 909 "np.random.seed(42 + 2)"; qaoa_for]
            (mkCell (mkLoop w sc pa) x r) log)
    with (exec_block (cell_state World) exec [qaoa_for]
            (mkCell (mkLoop w [] []) x r) log).
  rewrite block_single.
  apply (iterate_agrees 10 (mkCell (mkLoop w [] []) x r) log).
Qed.

End Reading.

End ReadingFacts.

(** * Where exceptions are handled *)

Module HandlerFacts.
Import Qaoa Repo QaoaFacts ExecFacts ReadingFacts.

(** C5, amended.  The code cells of the repository hold exactly one
    handler: [except Exception as e: pass], around the call of [minimize]
    and the two [append] in the [for] of the QAOA cell, and that cell runs
    as the loop of [Qaoa].  In every repetition in which [minimize] raises
    an instance of [Exception] the repetition ends normally with [scores]
    and [params] unchanged and the loop goes on with the next repetition;
    as long as nothing else is raised the loop runs through all its
    repetitions.  Everywhere else exceptions propagate: a block of
    statements without a handler swallows nothing, which covers every
    other cell and the body of every function, and whatever a cell
    swallows is an instance of [Exception]. *)
Theorem exception_caught_and_ignored :
  flat_map (flat_map handlers) repository = [the_handler]
  /\ repository = cells_before ++ qaoa_cell :: cells_after
  /\ flat_map handlers qaoa_cell = [the_handler]
  /\ (forall (World : Type) (draw_guess : World -> World * (list R * list R))
             (minimize : World -> list R -> World * outcome OptimizeResult)
             (cs : cell_state World) (log : list py_exc),
        agrees World
          (exec_cell (cell_state World) (run_qaoa World draw_guess minimize)
                     (items_qaoa World) (holds_qaoa World) qaoa_cell cs log)
          (qaoa_loop World draw_guess minimize (world (loop cs))))
  /\ (forall (World : Type) (draw_guess : World -> World * (list R * list R))
             (minimize : World -> list R -> World * outcome OptimizeResult)
             (st : loop_state World) (w2 : World) (e : py_exc) (k : nat),
        minimize (fst (draw_guess (world st)))
                 (fst (snd (draw_guess (world st)))
                  ++ snd (snd (draw_guess (world st))))
        = (w2, Raises e) ->
        isinstance_Exception e = true ->
        repetition World draw_guess minimize st
        = Normal (mkLoop w2 (scores st) (params st))
        /\ run_loop World draw_guess minimize (S k) st
           = run_loop World draw_guess minimize k
               (mkLoop w2 (scores st) (params st)))
  /\ (forall (World : Type) (draw_guess : World -> World * (list R * list R))
             (minimize : World -> list R -> World * outcome OptimizeResult)
             (n : nat) (st : loop_state World),
        (forall w x w' e, minimize w x = (w', Raises e) ->
                          isinstance_Exception e = true) ->
        exists st', run_loop World draw_guess minimize n st = Normal st')
  /\ (forall l, flat_map handlers l = [] -> swallows_nothing l)
  /\ Forall swallows_nothing (cells_before ++ cells_after)
  /\ Forall swallows_nothing (flat_map (flat_map def_bodies) repository)
  /\ Forall swallows_only_Exception repository.
Proof.
  split; [exact repository_handlers|].
  split; [exact repository_split|].
  split; [reflexivity|].
  split; [intros; apply qaoa_cell_agrees|].
  split; [intros World draw_guess minimize st w2 e k H He;
          apply (caught_then_continues World draw_guess minimize st w2 e k H He)|].
  split; [intros World draw_guess minimize n st H;
          apply (run_loop_completes World draw_guess minimize n st H)|].
  split; [exact no_handler_swallows_nothing|].
  split; [eapply Forall_impl; [|exact other_cells_no_handler];
          intros cell; apply no_handler_swallows_nothing|].
  split; [eapply Forall_impl; [|exact def_bodies_no_handler];
          intros body; apply no_handler_swallows_nothing|].
  rewrite Forall_forall. intros cell Hin. apply Exception_handlers_only.
  rewrite Forall_forall. intros h Hh.
  assert (In h (flat_map (flat_map handlers) repository)) as Hall.
  { apply in_flat_map. exists cell. split; assumption. }
  rewrite repository_handlers in Hall. destruct Hall as [<-|[]]. reflexivity.
Qed.

Lemma exception_caught_and_ignored_witness :
  run_loop unit (fun w => (w, ([1], [2])))
           (fun w _ => (w, Raises (mkExc "ValueError" FromException)))
           10%nat (mkLoop tt [] [])
  = run_loop unit (fun w => (w, ([1], [2])))
             (fun w _ => (w, Raises (mkExc "ValueError" FromException)))
             9%nat (mkLoop tt [] [])
  /\ (exists st',
        run_loop unit (fun w => (w, ([1], [2])))
                 (fun w _ => (w, Raises (mkExc "ValueError" FromException)))
                 10%nat (mkLoop tt [] [])
        = Normal st')
  /\ swallows_nothing
       [Simple 859%nat "return cost / sum(counter.values())"].
Proof.
  destruct exception_caught_and_ignored
    as (_ & _ & _ & _ & Hcaught & Hruns & Hnone & _).
  split; [|split].
  - apply (Hcaught unit (fun w => (w, ([1], [2])))
             (fun w _ => (w, Raises (mkExc "ValueError" FromException)))
             (mkLoop tt [] []) tt (mkExc "ValueError" FromException) 9%nat);
      reflexivity.
  - apply Hruns. intros w x w' e H. injection H as _ <-. reflexivity.
  - apply Hnone. reflexivity.
Defined.

End HandlerFacts.

(** * More on the noise channels and the Bloch conversions *)

Module NoiseMore.
Import Cplx Qobj Noise Sweep NoiseFacts.

Lemma triple_eq (a b c a' b' c' : R) :
  a = a' -> b = b' -> c = c' -> (a, b, c) = (a', b', c').
Proof. intros -> -> ->. reflexivity. Qed.

(** X1: the depolarizing channel scales all three coordinates of a Bloch
    vector by [1 - p]. *)
Theorem depolarizing_channel_bloch (r_x r_y r_z p : R) :
  depolarizing_channel (vector_to_dm r_x r_y r_z) p
  = vector_to_dm ((1 - p) * r_x) ((1 - p) * r_y) ((1 - p) * r_z).
Proof. by_components. Qed.

Lemma vector_to_dm_hermitian (r_x r_y r_z : R) :
  is_hermitian (vector_to_dm r_x r_y r_z).
Proof. unfold is_hermitian. by_components. Qed.

Lemma vector_to_dm_trace (r_x r_y r_z : R) :
  trace (vector_to_dm r_x r_y r_z) = C1.
Proof. unfold_ops. apply C_eq; cbn [Re Im]; field. Qed.

(** X2: [vector_to_dm] returns a Hermitian operator of trace one, and for
    a vector on the sphere the operator is a projector. *)
Theorem vector_to_dm_density (r_x r_y r_z : R) :
  is_hermitian (vector_to_dm r_x r_y r_z)
  /\ trace (vector_to_dm r_x r_y r_z) = C1
  /\ (r_x * r_x + r_y * r_y + r_z * r_z = 1 ->
      mmul (vector_to_dm r_x r_y r_z) (vector_to_dm r_x r_y r_z)
      = vector_to_dm r_x r_y r_z).
Proof.
  split; [apply vector_to_dm_hermitian|split; [apply vector_to_dm_trace|]].
  intros H. unfold_ops. apply M2_eq; cbn [m00 m01 m10 m11];
    apply C_eq; cbn [Re Im]; nra.
Qed.

Lemma vector_to_dm_density_witness :
  mmul (vector_to_dm 0 1 0) (vector_to_dm 0 1 0) = vector_to_dm 0 1 0.
Proof. apply (vector_to_dm_density 0 1 0). lra. Defined.

Lemma hermitian_entries (rho : M2) :
  is_hermitian rho ->
  Im (m00 rho) = 0 /\ Im (m11 rho) = 0
  /\ Re (m10 rho) = Re (m01 rho) /\ Im (m10 rho) = - Im (m01 rho).
Proof.
  destruct rho as [[a0 b0] [a1 b1] [a2 b2] [a3 b3]].
  unfold is_hermitian, dag, conj. cbn [m00 m01 m10 m11 Re Im].
  intros H. injection H. intros. repeat split; lra.
Qed.

(** X3: on a Hermitian operator [dm_to_vector] returns a zero
    y-coordinate, whatever the operator. *)
Theorem dm_to_vector_hermitian (rho : M2) :
  is_hermitian rho ->
  dm_to_vector rho = (2 * Re (m01 rho), 0, 2 * Re (m00 rho) - 1).
Proof.
  intros H. destruct (hermitian_entries rho H) as (_ & _ & Hre & _).
  destruct rho as [[a0 b0] [a1 b1] [a2 b2] [a3 b3]].
  cbn [m00 m01 m10 m11 Re Im] in *. unfold_ops.
  apply triple_eq; lra.
Qed.

Lemma dm_to_vector_hermitian_witness :
  dm_to_vector sigmay = (2 * Re (m01 sigmay), 0, 2 * Re (m00 sigmay) - 1).
Proof.
  apply (dm_to_vector_hermitian sigmay). unfold is_hermitian.
  apply pauli_self_adjoint.
Defined.

(** X4: for a Hermitian operator of trace one, converting to the Bloch
    vector and back returns the operator exactly when its off-diagonal
    entry [rho[0,1]] is real, that is, when it has no y-component. *)
Theorem vector_to_dm_of_dm_to_vector (rho : M2) :
  is_hermitian rho -> trace rho = C1 ->
  (let '(r_x, r_y, r_z) := dm_to_vector rho in
   vector_to_dm r_x r_y r_z = rho)
  <-> Im (m01 rho) = 0.
Proof.
  intros H Ht.
  destruct (hermitian_entries rho H) as (H0 & H3 & Hre & Him').
  destruct rho as [[a0 b0] [a1 b1] [a2 b2] [a3 b3]].
  cbn [m00 m01 m10 m11 Re Im] in *.
  unfold trace, add, C1 in Ht. cbn [m00 m11 Re Im] in Ht.
  injection Ht as Ht _.
  split.
  - intros Hrt. apply (f_equal (fun m => Im (m01 m))) in Hrt.
    revert Hrt. unfold_ops. intros Hrt. lra.
  - intros Him.
    unfold_ops. apply M2_eq; cbn [m00 m01 m10 m11]; apply C_eq; cbn [Re Im]; lra.
Qed.

Lemma vector_to_dm_of_dm_to_vector_witness :
  (let '(r_x, r_y, r_z) := dm_to_vector (vector_to_dm 1 0 0) in
   vector_to_dm r_x r_y r_z = vector_to_dm 1 0 0)
  /\ ((let '(r_x, r_y, r_z) := dm_to_vector (vector_to_dm 0 1 0) in
       vector_to_dm r_x r_y r_z = vector_to_dm 0 1 0)
      -> False).
Proof.
  split.
  - apply (vector_to_dm_of_dm_to_vector (vector_to_dm 1 0 0)).
    + apply vector_to_dm_hermitian.
    + apply vector_to_dm_trace.
    + unfold_ops. lra.
  - intros Hrt.
    apply (vector_to_dm_of_dm_to_vector (vector_to_dm 0 1 0)) in Hrt.
    + revert Hrt. unfold_ops. lra.
    + apply vector_to_dm_hermitian.
    + apply vector_to_dm_trace.
Defined.

(** X5: applying a channel twice is applying it once with the combined
    probability [p + q - p q]. *)
Theorem channels_compose (rho : M2) (p q : R) :
  dephasing_channel (dephasing_channel rho p) q
  = dephasing_channel rho (p + q - p * q)
  /\ depolarizing_channel (depolarizing_channel rho p) q
     = depolarizing_channel rho (p + q - p * q).
Proof.
  destruct rho as [[? ?] [? ?] [? ?] [? ?]]. split; by_components.
Qed.

(** X6: the two channels commute. *)
Theorem channels_commute (rho : M2) (p q : R) :
  dephasing_channel (depolarizing_channel rho p) q
  = depolarizing_channel (dephasing_channel rho q) p.
Proof.
  destruct rho as [[? ?] [? ?] [? ?] [? ?]]. by_components.
Qed.

Lemma channels_dag (rho : M2) (p : R) :
  dag (dephasing_channel rho p) = dephasing_channel (dag rho) p
  /\ dag (depolarizing_channel rho p) = depolarizing_channel (dag rho) p.
Proof.
  destruct rho as [[? ?] [? ?] [? ?] [? ?]]. split; by_components.
Qed.

(** X7: both channels send Hermitian operators to Hermitian operators. *)
Theorem channels_preserve_hermitian (rho : M2) (p : R) :
  is_hermitian rho ->
  is_hermitian (dephasing_channel rho p)
  /\ is_hermitian (depolarizing_channel rho p).
Proof.
  unfold is_hermitian. intros H.
  destruct (channels_dag rho p) as [H1 H2].
  rewrite H1, H2, H. split; reflexivity.
Qed.

Lemma channels_preserve_hermitian_witness :
  is_hermitian (dephasing_channel sigmax (1 / 2))
  /\ is_hermitian (depolarizing_channel sigmax (1 / 2)).
Proof.
  apply (channels_preserve_hermitian sigmax (1 / 2)).
  unfold is_hermitian. apply pauli_self_adjoint.
Defined.

(** X8: with probability 0 both channels are the identity; with
    probability 1 the depolarizing channel sends every operator of trace
    one to the maximally mixed state and the dephasing channel erases the
    off-diagonal entries. *)
Theorem channels_at_extremes (rho : M2) :
  dephasing_channel rho 0 = rho
  /\ depolarizing_channel rho 0 = rho
  /\ dephasing_channel rho 1 = mkM2 (m00 rho) C0 C0 (m11 rho)
  /\ (trace rho = C1 -> depolarizing_channel rho 1 = vector_to_dm 0 0 0).
Proof.
  destruct rho as [[a0 b0] [a1 b1] [a2 b2] [a3 b3]].
  split; [|split; [|split]]; try by_components.
  intros Ht. unfold trace, add, C1 in Ht. cbn [m00 m11 Re Im] in Ht.
  injection Ht as Ht1 Ht2.
  unfold_ops. apply M2_eq; cbn [m00 m01 m10 m11]; apply C_eq; cbn [Re Im]; lra.
Qed.

Lemma channels_at_extremes_witness :
  depolarizing_channel (vector_to_dm 0 0 1) 1 = vector_to_dm 0 0 0.
Proof.
  apply (channels_at_extremes (vector_to_dm 0 0 1)).
  apply vector_to_dm_trace.
Defined.

Lemma sweep_point_values (x y z p : R) :
  sweep_point dephasing_channel p x y z = ((1 - p) * x, 0, z)
  /\ sweep_point depolarizing_channel p x y z = ((1 - p) * x, 0, (1 - p) * z).
Proof.
  split; cbv [sweep_point]; unfold_ops; apply triple_eq; field.
Qed.

(** X9: what the sweeps store for a point [(x, y, z)]: the dephasing sweep
    stores [((1 - p) x, 0, z)], the depolarizing sweep
    [((1 - p) x, 0, (1 - p) z)]; for a probability [p] and a point of the
    unit ball both stored points are in the unit ball. *)
Theorem sweep_point_in_ball (x y z p : R) :
  0 <= p <= 1 -> norm2 (x, y, z) <= 1 ->
  sweep_point dephasing_channel p x y z = ((1 - p) * x, 0, z)
  /\ sweep_point depolarizing_channel p x y z = ((1 - p) * x, 0, (1 - p) * z)
  /\ norm2 (sweep_point dephasing_channel p x y z) <= 1
  /\ norm2 (sweep_point depolarizing_channel p x y z) <= 1.
Proof.
  intros Hp Hball. destruct (sweep_point_values x y z p) as [H1 H2].
  rewrite H1, H2. unfold norm2 in *.
  assert ((1 - p) * x * ((1 - p) * x) <= x * x) by nra.
  assert ((1 - p) * z * ((1 - p) * z) <= z * z) by nra.
  repeat split; nra.
Qed.

Lemma sweep_point_in_ball_witness :
  norm2 (sweep_point depolarizing_channel (1 / 2) 0 1 0) <= 1.
Proof.
  apply (sweep_point_in_ball 0 1 0 (1 / 2)); unfold norm2; lra.
Defined.

End NoiseMore.

(** * Stable sorting *)

Module SortFacts.
Import PySort.

Section Sort.

Context {A : Type} (le : A -> A -> bool).
Hypothesis le_total : forall a b, le a b = true \/ le b a = true.
Hypothesis le_trans :
  forall a b c, le a b = true -> le b c = true -> le a c = true.

Lemma insert_perm (x : A) (l : list A) : Permutation (x :: l) (insert le x l).
Proof.
  induction l as [|y t IH]; cbn; [apply Permutation_refl|].
  destruct (le x y); [apply Permutation_refl|].
  eapply Permutation_trans; [apply perm_swap|].
  apply perm_skip. exact IH.
Qed.

Lemma sorted_perm (l : list A) : Permutation l (sorted le l).
Proof.
  induction l as [|x l IH]; cbn; [apply perm_nil|].
  eapply Permutation_trans; [apply perm_skip; exact IH|apply insert_perm].
Qed.

Lemma insert_sorted (x : A) (l : list A) :
  StronglySorted (fun a b => le a b = true) l ->
  StronglySorted (fun a b => le a b = true) (insert le x l).
Proof.
  induction 1 as [|y t Ht IH Hy]; cbn.
  - constructor; constructor.
  - destruct (le x y) eqn:E.
    + constructor; [constructor; assumption|].
      constructor; [exact E|].
      rewrite Forall_forall in *. intros z Hz.
      apply (le_trans x y z E). apply Hy. exact Hz.
    + constructor; [exact IH|].
      rewrite Forall_forall in *. intros z Hz.
      apply (Permutation_in z (Permutation_sym (insert_perm x t))) in Hz.
      destruct Hz as [<-|Hz].
      * destruct (le_total x y) as [H|H]; [congruence|exact H].
      * apply Hy. exact Hz.
Qed.

Lemma sorted_sorted (l : list A) :
  StronglySorted (fun a b => le a b = true) (sorted le l).
Proof.
  induction l as [|x l IH]; cbn; [constructor|].
  apply insert_sorted. exact IH.
Qed.

(** The first element of the result is below every element of the input. *)
Lemma sorted_head_min (l r : list A) (a : A) :
  sorted le l = a :: r -> forall b, In b l -> le a b = true.
Proof.
  intros Hs b Hb.
  pose proof (sorted_sorted l) as Hsorted. rewrite Hs in Hsorted.
  apply (Permutation_in b (sorted_perm l)) in Hb. rewrite Hs in Hb.
  destruct Hb as [<-|Hb].
  - destruct (le_total a a); assumption.
  - inversion Hsorted as [|? ? _ Hall]; subst.
    rewrite Forall_forall in Hall. apply Hall. exact Hb.
Qed.

(** Stability: the elements that compare equal to a given one come out in
    their input order. *)
Lemma insert_stable (a0 x : A) (l : list A) :
  filter (fun b => andb (le a0 b) (le b a0)) (insert le x l)
  = filter (fun b => andb (le a0 b) (le b a0)) (x :: l).
Proof.
  induction l as [|y t IH]; cbn [insert]; [reflexivity|].
  destruct (le x y) eqn:E; [reflexivity|].
  cbn [filter] in *. rewrite IH.
  destruct (andb (le a0 y) (le y a0)) eqn:Ey;
    destruct (andb (le a0 x) (le x a0)) eqn:Ex; try reflexivity.
  apply Bool.andb_true_iff in Ey, Ex.
  destruct Ey as [Hy _], Ex as [_ Hx].
  rewrite (le_trans x a0 y Hx Hy) in E. discriminate.
Qed.

Lemma sorted_stable (a0 : A) (l : list A) :
  filter (fun b => andb (le a0 b) (le b a0)) (sorted le l)
  = filter (fun b => andb (le a0 b) (le b a0)) l.
Proof.
  induction l as [|x l IH]; cbn [sorted fold_right]; [reflexivity|].
  change (fold_right (insert le) [] l) with (sorted le l).
  rewrite insert_stable. cbn [filter]. rewrite IH. reflexivity.
Qed.

End Sort.

Lemma Rleb_le (a b : R) : Rleb a b = true <-> a <= b.
Proof. unfold Rleb. destruct (Rle_dec a b); split; intros; try lra; discriminate. Qed.

Lemma Rleb_total (a b : R) : Rleb a b = true \/ Rleb b a = true.
Proof. rewrite !Rleb_le. lra. Qed.

Lemma Rleb_trans (a b c : R) :
  Rleb a b = true -> Rleb b c = true -> Rleb a c = true.
Proof. rewrite !Rleb_le. lra. Qed.

End SortFacts.

(** * The brute-force enumeration *)

Module EnumerateFacts.
Import Np Qubo Spec PySort Enumerate CounterViews SortFacts QuboFacts.

Lemma int_base2_app (l1 l2 : list ascii) (acc : N) :
  int_base2 (l1 ++ l2) acc = int_base2 l2 (int_base2 l1 acc).
Proof.
  revert acc. induction l1 as [|c l1 IH]; intros acc; cbn; [reflexivity|].
  apply IH.
Qed.

Lemma int_base2_zeros (k : nat) : int_base2 (repeat "0"%char k) 0 = 0%N.
Proof. induction k as [|k IH]; cbn; [reflexivity|exact IH]. Qed.

Lemma int_base2_pos_bits (p : positive) : int_base2 (pos_bits p) 0 = Npos p.
Proof.
  induction p as [p IH|p IH|]; cbn [pos_bits]; [| |reflexivity];
    rewrite int_base2_app, IH; reflexivity.
Qed.

Lemma int_base2_round_trip (num : N) (width : nat) :
  int_base2 (list_ascii_of_string (binary_repr num width)) 0 = num.
Proof.
  unfold binary_repr. destruct num as [|p];
    rewrite list_ascii_of_string_of_list_ascii.
  - apply int_base2_zeros.
  - unfold zfill. rewrite int_base2_app, int_base2_zeros.
    apply int_base2_pos_bits.
Qed.

(** X10: reading a string written by [binary_repr] as a binary number gives
    the number back, whatever the width. *)
Theorem int_base2_binary_repr (num : N) (width : nat) :
  int_base2 (list_ascii_of_string (binary_repr num width)) 0 = num.
Proof. exact (int_base2_round_trip num width). Qed.

Lemma binary_repr_injective (n : nat) (i j : nat) :
  binary_repr (N.of_nat i) n = binary_repr (N.of_nat j) n -> i = j.
Proof.
  intros H. apply Nat2N.inj.
  rewrite <- (int_base2_round_trip (N.of_nat i) n), H.
  apply int_base2_round_trip.
Qed.

Lemma pos_bits_are_bits (p : positive) : forallb is_bit (pos_bits p) = true.
Proof.
  induction p as [p IH|p IH|]; cbn [pos_bits]; [| |reflexivity];
    rewrite forallb_app, IH; reflexivity.
Qed.

Lemma zeros_are_bits (k : nat) : forallb is_bit (repeat "0"%char k) = true.
Proof. induction k as [|k IH]; cbn; [reflexivity|exact IH]. Qed.

(** A number below [2^n] has at most [n] binary digits. *)
Lemma length_pos_bits (p : positive) (n : nat) :
  (Pos.to_nat p < 2 ^ n)%nat -> (length (pos_bits p) <= n)%nat.
Proof.
  revert n. induction p as [p IH|p IH|]; intros n H; cbn [pos_bits].
  - destruct n as [|n]; [cbn in H; lia|].
    rewrite length_app. cbn [length].
    rewrite Pos2Nat.inj_xI in H. rewrite Nat.pow_succ_r' in H.
    specialize (IH n). lia.
  - destruct n as [|n]; [cbn in H; lia|].
    rewrite length_app. cbn [length].
    rewrite Pos2Nat.inj_xO in H. rewrite Nat.pow_succ_r' in H.
    specialize (IH n). lia.
  - destruct n as [|n]; [cbn in H; lia|]. cbn. lia.
Qed.

Lemma binary_repr_is_bitstring (n i : nat) :
  (1 <= n)%nat -> (i < 2 ^ n)%nat ->
  is_bitstring n (binary_repr (N.of_nat i) n) = true.
Proof.
  intros Hn Hi. unfold is_bitstring.
  rewrite <- length_list_ascii. unfold binary_repr.
  destruct (N.of_nat i) as [|p] eqn:E;
    rewrite list_ascii_of_string_of_list_ascii.
  - destruct (n =? 0)%nat eqn:E0; [apply Nat.eqb_eq in E0; lia|].
    rewrite repeat_length, Nat.eqb_refl, zeros_are_bits. reflexivity.
  - assert (length (pos_bits p) <= n)%nat as Hlen.
    { apply length_pos_bits.
      assert (Pos.to_nat p = i) as ->; [|exact Hi].
      apply Nat2N.inj. rewrite E. apply positive_nat_N. }
    unfold zfill. rewrite length_app, repeat_length, forallb_app.
    rewrite zeros_are_bits, pos_bits_are_bits.
    replace (Nat.max (length (pos_bits p)) n - length (pos_bits p)
             + length (pos_bits p))%nat with n by lia.
    rewrite Nat.eqb_refl. reflexivity.
Qed.

Lemma length_all_bits (n : nat) : length (all_bits n) = (2 ^ n)%nat.
Proof.
  induction n as [|n IH]; [reflexivity|].
  cbn [all_bits]. rewrite length_app, !length_map, IH, Nat.pow_succ_r'. lia.
Qed.

Lemma in_all_bits (l : list ascii) :
  forallb is_bit l = true -> In l (all_bits (length l)).
Proof.
  induction l as [|c l IH]; intros H; [left; reflexivity|].
  cbn in H. apply Bool.andb_true_iff in H. destruct H as [Hc Hl].
  cbn [length all_bits]. apply in_app_iff.
  unfold is_bit in Hc. apply Bool.orb_true_iff in Hc.
  destruct Hc as [Hc|Hc]; apply Ascii.eqb_eq in Hc; subst c;
    [left|right]; apply in_map; apply IH; exact Hl.
Qed.

Lemma bitstrings_spec (n : nat) :
  (1 <= n)%nat ->
  NoDup (bitstrings n)
  /\ forall b, In b (bitstrings n) <-> is_bitstring n b = true.
Proof.
  intros Hn.
  assert (NoDup (bitstrings n)) as Hnd.
  { unfold bitstrings. apply Finite.Injective_map_NoDup; [|apply seq_NoDup].
    intros i j. apply binary_repr_injective. }
  assert (forall b, In b (bitstrings n) -> is_bitstring n b = true) as Hsound.
  { intros b Hb. unfold bitstrings in Hb. apply in_map_iff in Hb.
    destruct Hb as (i & <- & Hi). apply in_seq in Hi.
    apply binary_repr_is_bitstring; lia. }
  split; [exact Hnd|]. intros b. split; [apply Hsound|].
  intros Hb.
  assert (incl (map string_of_list_ascii (all_bits n)) (bitstrings n)) as Hincl.
  { apply NoDup_length_incl.
    - exact Hnd.
    - unfold bitstrings. rewrite !length_map, length_seq, length_all_bits. lia.
    - intros s Hs. specialize (Hsound s Hs).
      unfold is_bitstring in Hsound. apply Bool.andb_true_iff in Hsound.
      destruct Hsound as [Hlen Hbits]. apply Nat.eqb_eq in Hlen.
      rewrite <- (string_of_list_ascii_of_string s). apply in_map.
      rewrite <- Hlen, <- length_list_ascii. apply in_all_bits. exact Hbits. }
  apply Hincl.
  unfold is_bitstring in Hb. apply Bool.andb_true_iff in Hb.
  destruct Hb as [Hlen Hbits]. apply Nat.eqb_eq in Hlen.
  rewrite <- (string_of_list_ascii_of_string b). apply in_map.
  rewrite <- Hlen, <- length_list_ascii. apply in_all_bits. exact Hbits.
Qed.

(** X11: for [n >= 1] the list of bitstrings has no repetition and holds
    exactly the strings of ['0'] and ['1'] of length [n]. *)
Theorem bitstrings_enumerate (n : nat) :
  (1 <= n)%nat ->
  NoDup (bitstrings n)
  /\ forall b, In b (bitstrings n) <-> is_bitstring n b = true.
Proof. exact (bitstrings_spec n). Qed.

Lemma bitstrings_enumerate_witness :
  In "10"%string (bitstrings 2).
Proof.
  apply (bitstrings_enumerate 2); [lia|reflexivity].
Defined.

Lemma combine_map_r {A B : Type} (f : A -> B) (l : list A) :
  combine l (map f l) = map (fun a => (a, f a)) l.
Proof. induction l as [|a l IH]; cbn; [reflexivity|rewrite IH; reflexivity]. Qed.

Lemma len_square (n : nat) (Q : ndarray) : is_square_array n Q -> len Q = n.
Proof. destruct Q as [Q|Q]; intros H; apply H. Qed.

(** The sorted list of the cell, on a square matrix. *)
Lemma sort_zipped_value (n : nat) (Q : ndarray) :
  is_square_array n Q -> (1 <= n)%nat ->
  sort_zipped Q
  = Some (sorted (fun x y => Rleb (value (snd x)) (value (snd y)))
            (map (fun b => (b, computed_cost Q b)) (bitstrings n))).
Proof.
  intros HQ Hn. unfold sort_zipped.
  destruct (bitstrings_spec n Hn) as [_ Hbits].
  rewrite (len_square n Q HQ).
  rewrite <- (map_id (bitstrings n)) at 1.
  rewrite (mapM_map_Some _ (fun b => b) (computed_cost Q)).
  - cbn [Err.bind]. rewrite combine_map_r. reflexivity.
  - intros b Hb. apply (get_cost_colouring_computed n); [exact HQ|].
    apply Hbits. exact Hb.
Qed.

Lemma pow2_pos (n : nat) : (0 < 2 ^ n)%nat.
Proof. induction n as [|n IH]; cbn; lia. Qed.

(** The head of the sorted list, on a square matrix: no computed cost is
    below it. *)
Lemma sort_zipped_head (n : nat) (Q : ndarray) :
  is_square_array n Q -> (1 <= n)%nat ->
  exists b0 rest,
    sort_zipped Q = Some ((b0, computed_cost Q b0) :: rest)
    /\ is_bitstring n b0 = true
    /\ forall b, is_bitstring n b = true ->
                 value (computed_cost Q b0) <= value (computed_cost Q b).
Proof.
  intros HQ Hn. rewrite (sort_zipped_value n Q HQ Hn).
  destruct (bitstrings_spec n Hn) as [_ Hbits].
  set (zipped := map (fun b => (b, computed_cost Q b)) (bitstrings n)).
  set (le := fun x y : string * scalar => Rleb (value (snd x)) (value (snd y))).
  destruct (sorted le zipped) as [|[b0 c0] rest] eqn:Es.
  - exfalso. pose proof (sorted_perm le zipped) as Hp. rewrite Es in Hp.
    apply Permutation_sym, Permutation_nil in Hp.
    apply (f_equal (@length _)) in Hp. unfold zipped, bitstrings in Hp.
    rewrite !length_map, length_seq in Hp. pose proof (pow2_pos n). cbn in Hp. lia.
  - assert (In (b0, c0) zipped) as Hin.
    { apply (Permutation_in _ (Permutation_sym (sorted_perm le zipped))).
      rewrite Es. left. reflexivity. }
    unfold zipped in Hin. apply in_map_iff in Hin.
    destruct Hin as (b & Heq & Hb). injection Heq as -> <-.
    exists b0, rest. split; [reflexivity|]. split; [apply Hbits; exact Hb|].
    intros b Hb'. apply Rleb_le.
    apply (sorted_head_min le
             (fun x y => Rleb_total (value (snd x)) (value (snd y)))
             (fun x y z => Rleb_trans (value (snd x)) (value (snd y))
                                      (value (snd z)))
             zipped rest (b0, computed_cost Q b0)
             Es (b, computed_cost Q b)).
    unfold zipped. apply in_map_iff. exists b. split; [reflexivity|].
    apply Hbits. exact Hb'.
Qed.

(** X12: on an [n x n] matrix with [n >= 1] the enumeration succeeds.  On
    a float matrix, and on an int64 matrix whose costs all stay within
    the int64 range, the first pair of the sorted list is a bitstring of
    length [n] with its cost [z^T Q z], a cost that no 0/1 assignment of
    length [n] undercuts. *)
Theorem sort_zipped_optimum (n : nat) (Q : ndarray) :
  is_square_array n Q -> (1 <= n)%nat -> costs_fit n Q ->
  exists b0 cost rest,
    sort_zipped Q = Some ((b0, cost) :: rest)
    /\ value cost = qubo_form (to_real Q) (bit_vector b0)
    /\ is_bitstring n b0 = true
    /\ forall b, is_bitstring n b = true ->
                 qubo_form (to_real Q) (bit_vector b0)
                 <= qubo_form (to_real Q) (bit_vector b).
Proof.
  intros HQ Hn Hfit.
  destruct (sort_zipped_head n Q HQ Hn) as (b0 & rest & Hs & Hb0 & Hmin).
  exists b0, (computed_cost Q b0), rest. split; [exact Hs|].
  split; [apply (computed_cost_exact n); assumption|].
  split; [exact Hb0|]. intros b Hb.
  rewrite <- (computed_cost_exact n Q b0 HQ Hb0 Hfit).
  rewrite <- (computed_cost_exact n Q b HQ Hb Hfit).
  apply Hmin. exact Hb.
Qed.

End EnumerateFacts.

(** * More on the brute-force enumeration and on [get_cost] *)

Module QuboMore.
Import Np Qubo Spec PySort Enumerate CounterViews.
Import SumFacts SortFacts Int64Facts QuboFacts DtypeFacts EnumerateFacts.

(** On the two-variable integer instance no cost leaves the range. *)
Lemma example_costs_fit : costs_fit 2 (IntArray [[0; 1]; [1; 0]]%Z).
Proof.
  intros b Hb. cbn [to_real].
  rewrite <- (form_exact_real 2 _ b DefinedFacts.example_int_square Hb).
  apply fits_in_range.
  assert (1 <= 2)%nat as Hn by lia.
  apply (proj2 (bitstrings_spec 2 Hn)) in Hb. cbn in Hb.
  destruct Hb as [<-|[<-|[<-|[<-|[]]]]];
    (split; [vm_compute; discriminate|vm_compute; reflexivity]).
Qed.

Lemma sort_zipped_optimum_witness :
  (exists b0 cost rest,
     sort_zipped (FloatArray [[0; 1]; [1; 0]]) = Some ((b0, cost) :: rest)
     /\ value cost = qubo_form [[0; 1]; [1; 0]] (bit_vector b0)
     /\ is_bitstring 2 b0 = true
     /\ forall b, is_bitstring 2 b = true ->
                  qubo_form [[0; 1]; [1; 0]] (bit_vector b0)
                  <= qubo_form [[0; 1]; [1; 0]] (bit_vector b))
  /\ (exists b0 cost rest,
        sort_zipped (IntArray [[0; 1]; [1; 0]]%Z) = Some ((b0, cost) :: rest)
        /\ value cost
           = qubo_form (to_real (IntArray [[0; 1]; [1; 0]]%Z)) (bit_vector b0)
        /\ is_bitstring 2 b0 = true
        /\ forall b, is_bitstring 2 b = true ->
                     qubo_form (to_real (IntArray [[0; 1]; [1; 0]]%Z))
                               (bit_vector b0)
                     <= qubo_form (to_real (IntArray [[0; 1]; [1; 0]]%Z))
                                  (bit_vector b)).
Proof.
  split.
  - apply (sort_zipped_optimum 2 (FloatArray [[0; 1]; [1; 0]])).
    + exact DefinedFacts.example_square.
    + lia.
    + exact I.
  - apply (sort_zipped_optimum 2 (IntArray [[0; 1]; [1; 0]]%Z)).
    + exact DefinedFacts.example_int_square.
    + lia.
    + exact example_costs_fit.
Defined.

(** X13: the sorted list is the list of all (bitstring, cost) pairs as
    computed, reordered by non-decreasing cost; pairs of equal cost stay in
    the order of the enumeration.  On a float matrix the computed cost is
    [z^T Q z]. *)
Theorem sort_zipped_stable_sort (n : nat) (Q : ndarray) :
  is_square_array n Q -> (1 <= n)%nat ->
  let zipped := map (fun b => (b, computed_cost Q b)) (bitstrings n) in
  exists l,
    sort_zipped Q = Some l
    /\ Permutation zipped l
    /\ StronglySorted (fun x y => value (snd x) <= value (snd y)) l
    /\ forall c, filter (same_cost c) l = filter (same_cost c) zipped.
Proof.
  intros HQ Hn zipped. rewrite (sort_zipped_value n Q HQ Hn). fold zipped.
  set (le := fun x y : string * scalar => Rleb (value (snd x)) (value (snd y))).
  exists (sorted le zipped). split; [reflexivity|]. split; [|split].
  - apply sorted_perm.
  - pose proof (sorted_sorted le
                  (fun x y => Rleb_total (value (snd x)) (value (snd y)))
                  (fun x y z => Rleb_trans (value (snd x)) (value (snd y))
                                           (value (snd z))) zipped) as H.
    induction H as [|x l Hl IH Hx]; constructor; [exact IH|].
    rewrite Forall_forall in *. intros y Hy. apply Rleb_le.
    exact (Hx y Hy).
  - intros c.
    apply (sorted_stable le
             (fun x y z => Rleb_trans (value (snd x)) (value (snd y))
                                      (value (snd z)))
             (EmptyString, FloatScalar c) zipped).
Qed.

Lemma sort_zipped_stable_sort_witness :
  exists l, sort_zipped (FloatArray [[0; 1]; [1; 0]]) = Some l.
Proof.
  assert (1 <= 2)%nat as Hn by lia.
  destruct (sort_zipped_stable_sort 2 (FloatArray [[0; 1]; [1; 0]])
              DefinedFacts.example_square Hn) as (l & Hl & _).
  exists l. exact Hl.
Defined.

(** A weighted sum of costs is at least the least cost times the total. *)
Lemma weighted_sum_lower (n : nat) (Q : matrix) (c : counter) (m : R) :
  Forall (fun b => is_bitstring n b = true) (keys c) ->
  (forall b, is_bitstring n b = true -> m <= qubo_form Q (bit_vector b)) ->
  m * INR (total_count c)
  <= fold_right (fun kv acc =>
                   INR (snd kv) * qubo_form Q (bit_vector (fst kv)) + acc) 0 c.
Proof.
  intros Hbits Hm. induction c as [|[b k] c IH]; cbn [fold_right total_count].
  - cbn. lra.
  - cbn [keys map fst snd] in *. inversion Hbits as [|? ? Hb Hrest]; subst.
    specialize (IH Hrest). rewrite plus_INR.
    pose proof (Hm b Hb). pose proof (pos_INR k).
    change (fold_right (fun kv acc => (snd kv + acc)%nat) 0%nat c)
      with (total_count c).
    nra.
Qed.

(** X14: on a float matrix, and on an int64 matrix as long as neither the
    costs nor the weighted sum leave the int64 range, the average cost of
    any counter of samples is at least the optimum found by the
    enumeration. *)
Theorem get_cost_above_optimum (n : nat) (c : counter) (Q : ndarray) :
  is_square_array n Q -> (1 <= n)%nat ->
  well_formed_counter n c -> (0 < total_count c)%nat ->
  costs_fit n Q -> sum_fits c Q ->
  exists b0 cost rest x,
    sort_zipped Q = Some ((b0, cost) :: rest)
    /\ get_cost c Q = Some x
    /\ value cost <= x.
Proof.
  intros HQ Hn Hc Hpos Hcosts Hsum.
  destruct (sort_zipped_head n Q HQ Hn) as (b0 & rest & Hs & Hb0 & Hmin).
  exists b0, (computed_cost Q b0), rest, (weighted_cost c (to_real Q)).
  split; [exact Hs|]. split.
  - rewrite (get_cost_average n c Q HQ Hc Hsum). unfold weighted_average.
    destruct (total_count c =? 0)%nat eqn:E; [|reflexivity].
    apply Nat.eqb_eq in E. lia.
  - unfold weighted_cost.
    assert (0 < INR (total_count c)) as HT by (apply lt_0_INR; exact Hpos).
    assert (forall b, is_bitstring n b = true ->
                      value (computed_cost Q b0)
                      <= qubo_form (to_real Q) (bit_vector b)) as Hmin'.
    { intros b Hb. rewrite <- (computed_cost_exact n Q b HQ Hb Hcosts).
      apply Hmin. exact Hb. }
    pose proof (weighted_sum_lower n (to_real Q) c _ (proj2 Hc) Hmin') as Hlow.
    apply (Rmult_le_reg_r (INR (total_count c))); [exact HT|].
    unfold Rdiv. rewrite Rmult_assoc, Rinv_l by lra. lra.
Qed.

Lemma get_cost_above_optimum_witness :
  (exists b0 cost rest x,
     sort_zipped (FloatArray [[0; 1]; [1; 0]]) = Some ((b0, cost) :: rest)
     /\ get_cost [("01"%string, 1%nat); ("11"%string, 3%nat)]
                 (FloatArray [[0; 1]; [1; 0]])
        = Some x
     /\ value cost <= x)
  /\ (exists b0 cost rest x,
        sort_zipped (IntArray [[0; 1]; [1; 0]]%Z) = Some ((b0, cost) :: rest)
        /\ get_cost [("01"%string, 1%nat); ("11"%string, 3%nat)]
                    (IntArray [[0; 1]; [1; 0]]%Z)
           = Some x
        /\ value cost <= x).
Proof.
  split.
  - apply (get_cost_above_optimum 2).
    + exact DefinedFacts.example_square.
    + lia.
    + exact DefinedFacts.example_counter.
    + cbn. lia.
    + exact I.
    + exact I.
  - apply (get_cost_above_optimum 2).
    + exact DefinedFacts.example_int_square.
    + lia.
    + exact DefinedFacts.example_counter.
    + cbn. lia.
    + exact example_costs_fit.
    + exact DefinedFacts.example_sum_fits.
Defined.

(** ** The order of the keys does not matter *)

Lemma getitem_None (c : counter) (key : string) :
  ~ In key (keys c) -> getitem c key = None.
Proof.
  induction c as [|[k m] c IH]; intros H; [reflexivity|].
  cbn in *. destruct (String.eqb k key) eqn:E.
  - apply String.eqb_eq in E. exfalso. apply H. left. exact E.
  - apply IH. intros Hin. apply H. right. exact Hin.
Qed.

Lemma getitem_In (c : counter) (key : string) (m : nat) :
  getitem c key = Some m -> In (key, m) c.
Proof.
  induction c as [|[k m'] c IH]; intros H; [discriminate|].
  cbn in H. destruct (String.eqb k key) eqn:E.
  - apply String.eqb_eq in E. injection H as ->. subst. left. reflexivity.
  - right. apply IH. exact H.
Qed.

Lemma getitem_perm (c c' : counter) (key : string) :
  NoDup (keys c) -> Permutation c c' -> getitem c' key = getitem c key.
Proof.
  intros Hnd Hp.
  assert (NoDup (keys c')) as Hnd'.
  { unfold keys. apply (Permutation_NoDup (Permutation_map fst Hp)). exact Hnd. }
  destruct (getitem c key) as [m|] eqn:E.
  - apply getitem_In in E. apply (Permutation_in _ Hp) in E.
    apply getitem_NoDup; assumption.
  - destruct (getitem c' key) as [m|] eqn:E'; [|reflexivity].
    apply getitem_In in E'. apply (Permutation_in _ (Permutation_sym Hp)) in E'.
    rewrite (getitem_NoDup c key m Hnd E') in E. discriminate.
Qed.

(** [mapM] over a reordered list: the same failure, or reordered results. *)
Lemma mapM_perm {A B : Type} (f : A -> option B) (l l' : list A) :
  Permutation l l' ->
  (Err.mapM f l = None /\ Err.mapM f l' = None)
  \/ (exists ys ys', Err.mapM f l = Some ys /\ Err.mapM f l' = Some ys'
                     /\ Permutation ys ys').
Proof.
  induction 1 as [|a l l' Hp IH|a b l|l l' l'' Hp1 IH1 Hp2 IH2].
  - right. exists [], []. repeat split. constructor.
  - cbn. destruct (f a) as [y|]; [|left; split; reflexivity].
    destruct IH as [[-> ->]|(ys & ys' & -> & -> & Hys)].
    + left. split; reflexivity.
    + right. exists (y :: ys), (y :: ys'). repeat split.
      apply perm_skip. exact Hys.
  - cbn. destruct (f a) as [ya|], (f b) as [yb|]; cbn;
      try (left; split; reflexivity);
      destruct (Err.mapM f l) as [ys|]; cbn;
      try (left; split; reflexivity).
    right. exists (yb :: ya :: ys), (ya :: yb :: ys). repeat split.
    apply perm_swap.
  - destruct IH1 as [[H1 H2]|(ys & ys' & H1 & H2 & Hys)];
      destruct IH2 as [[H3 H4]|(zs & zs' & H3 & H4 & Hzs)]; try congruence.
    + left. split; assumption.
    + right. exists ys, zs'. repeat split; try assumption.
      assert (ys' = zs) as -> by congruence.
      eapply Permutation_trans; eassumption.
Qed.

Lemma py_sum_perm (l l' : list R) : Permutation l l' -> py_sum l = py_sum l'.
Proof.
  induction 1 as [|x l l' _ IH|x y l|l l' l'' _ IH1 _ IH2].
  - reflexivity.
  - rewrite !py_sum_cons, IH. reflexivity.
  - rewrite !py_sum_cons. ring.
  - congruence.
Qed.

Lemma sum_exact_perm (l l' : list Z) :
  Permutation l l' -> sum_exact l = sum_exact l'.
Proof.
  induction 1 as [|x l l' _ IH|x y l|l l' l'' _ IH1 _ IH2].
  - reflexivity.
  - rewrite !sum_exact_cons, IH. reflexivity.
  - rewrite !sum_exact_cons. lia.
  - congruence.
Qed.

(** A sum accumulated in int64 does not depend on the order of its terms:
    wrapping is arithmetic modulo 2^64. *)
Lemma int64_sum_perm (l l' : list Z) :
  Permutation l l' -> Int64.sum l = Int64.sum l'.
Proof.
  intros H. rewrite !sum_wrap_id, (sum_exact_perm l l' H). reflexivity.
Qed.

Lemma total_count_perm (c c' : counter) :
  Permutation c c' -> total_count c = total_count c'.
Proof.
  induction 1 as [|x l l' _ IH|x y l|l l' l'' _ IH1 _ IH2]; cbn.
  - reflexivity.
  - unfold total_count in IH. rewrite IH. reflexivity.
  - lia.
  - congruence.
Qed.

Lemma float_cost_perm (c c' : counter) (Q : matrix) :
  NoDup (keys c) -> Permutation c c' -> float_cost c Q = float_cost c' Q.
Proof.
  intros Hnd Hp. unfold float_cost.
  rewrite !total_values, <- (total_count_perm c c' Hp).
  rewrite (mapM_ext
             (fun key => n <- getitem c' key ;;
                         x <- float_colouring key Q ;; Some (INR n * x))
             (fun key => n <- getitem c key ;;
                         x <- float_colouring key Q ;; Some (INR n * x))
             (keys c'))
    by (intros key; rewrite (getitem_perm c c' key Hnd Hp); reflexivity).
  destruct (mapM_perm
              (fun key => n <- getitem c key ;;
                          x <- float_colouring key Q ;; Some (INR n * x))
              (keys c) (keys c') (Permutation_map fst Hp))
    as [[-> ->]|(ys & ys' & -> & -> & Hys)]; [reflexivity|].
  cbn [Err.bind]. rewrite (py_sum_perm ys ys' Hys). reflexivity.
Qed.

Lemma int_cost_perm (c c' : counter) (Q : list (list Z)) :
  NoDup (keys c) -> Permutation c c' -> int_cost c Q = int_cost c' Q.
Proof.
  intros Hnd Hp. unfold int_cost.
  rewrite !total_values, <- (total_count_perm c c' Hp).
  rewrite (mapM_ext
             (fun key => n <- getitem c' key ;;
                         x <- int_colouring key Q ;;
                         Some (Int64.mul (Z.of_nat n) x))
             (fun key => n <- getitem c key ;;
                         x <- int_colouring key Q ;;
                         Some (Int64.mul (Z.of_nat n) x))
             (keys c'))
    by (intros key; rewrite (getitem_perm c c' key Hnd Hp); reflexivity).
  destruct (mapM_perm
              (fun key => n <- getitem c key ;;
                          x <- int_colouring key Q ;;
                          Some (Int64.mul (Z.of_nat n) x))
              (keys c) (keys c') (Permutation_map fst Hp))
    as [[-> ->]|(ys & ys' & -> & -> & Hys)]; [reflexivity|].
  cbn [Err.bind]. rewrite (int64_sum_perm ys ys' Hys). reflexivity.
Qed.

(** X15: [get_cost] does not depend on the order in which the dict holds
    its keys: two counters with the same items give the same result, a
    value or a failure, on a matrix of either dtype. *)
Theorem get_cost_order_irrelevant (c c' : counter) (Q : ndarray) :
  NoDup (keys c) -> Permutation c c' -> get_cost c Q = get_cost c' Q.
Proof.
  intros Hnd Hp. destruct Q as [Q|Q].
  - rewrite !get_cost_float. apply float_cost_perm; assumption.
  - rewrite !get_cost_int. apply int_cost_perm; assumption.
Qed.

Lemma get_cost_order_irrelevant_witness :
  get_cost [("01"%string, 1%nat); ("11"%string, 3%nat)]
           (FloatArray [[0; 1]; [1; 0]])
  = get_cost [("11"%string, 3%nat); ("01"%string, 1%nat)]
             (FloatArray [[0; 1]; [1; 0]]).
Proof.
  apply get_cost_order_irrelevant.
  - apply DefinedFacts.example_counter.
  - apply perm_swap.
Defined.

(** ** Only the proportions of the counts matter *)

Lemma getitem_scale (k : nat) (c : counter) (key : string) :
  getitem (scale_counts k c) key
  = match getitem c key with Some m => Some (k * m)%nat | None => None end.
Proof.
  induction c as [|[b m] c IH]; cbn; [reflexivity|].
  destruct (String.eqb b key); [reflexivity|exact IH].
Qed.

Lemma mapM_scaled {A : Type} (f g : A -> option R) (a : R) (l : list A) :
  (forall x, g x = match f x with Some y => Some (a * y) | None => None end) ->
  Err.mapM g l
  = match Err.mapM f l with Some ys => Some (map (Rmult a) ys) | None => None end.
Proof.
  intros H. induction l as [|x l IH]; cbn; [reflexivity|].
  rewrite H, IH. destruct (f x); cbn; [|reflexivity].
  destruct (Err.mapM f l); reflexivity.
Qed.

Lemma py_sum_scal (a : R) (l : list R) :
  py_sum (map (Rmult a) l) = a * py_sum l.
Proof.
  induction l as [|x l IH]; cbn [map].
  - rewrite py_sum_nil. ring.
  - rewrite !py_sum_cons, IH. ring.
Qed.

Lemma total_count_scale (k : nat) (c : counter) :
  total_count (scale_counts k c) = (k * total_count c)%nat.
Proof.
  induction c as [|[b m] c IH]; cbn; [lia|].
  unfold total_count, scale_counts in IH. rewrite IH. lia.
Qed.

Lemma keys_scale (k : nat) (c : counter) : keys (scale_counts k c) = keys c.
Proof. unfold keys, scale_counts. rewrite map_map. reflexivity. Qed.

Lemma float_cost_scale (k : nat) (c : counter) (Q : matrix) :
  (0 < k)%nat -> float_cost (scale_counts k c) Q = float_cost c Q.
Proof.
  intros Hk. unfold float_cost.
  rewrite !total_values, total_count_scale, keys_scale.
  rewrite (mapM_scaled
             (fun key => n <- getitem c key ;;
                         x <- float_colouring key Q ;; Some (INR n * x))
             _ (INR k)).
  - destruct (Err.mapM _ (keys c)) as [ys|]; cbn [Err.bind]; [|reflexivity].
    destruct (total_count c =? 0)%nat eqn:E.
    + apply Nat.eqb_eq in E. rewrite E, Nat.mul_0_r. reflexivity.
    + apply Nat.eqb_neq in E.
      destruct (k * total_count c =? 0)%nat eqn:E'.
      * apply Nat.eqb_eq in E'. nia.
      * f_equal. rewrite py_sum_scal, mult_INR. field.
        split; apply not_0_INR; lia.
  - intros key. rewrite getitem_scale.
    destruct (getitem c key) as [m|]; cbn [Err.bind]; [|reflexivity].
    destruct (float_colouring key Q) as [x|]; cbn [Err.bind]; [|reflexivity].
    rewrite mult_INR. f_equal. ring.
Qed.

Lemma weighted_sum_scale (k : nat) (c : counter) (Q : matrix) :
  weighted_sum (scale_counts k c) Q = INR k * weighted_sum c Q.
Proof.
  unfold weighted_sum, scale_counts.
  induction c as [|[b m] c IH]; cbn [map fold_right fst snd]; [ring|].
  rewrite IH, mult_INR. ring.
Qed.

Lemma well_formed_scale (n k : nat) (c : counter) :
  well_formed_counter n (scale_counts k c) -> well_formed_counter n c.
Proof. unfold well_formed_counter. rewrite keys_scale. tauto. Qed.

(** X16: multiplying every count by the same positive number leaves
    [get_cost] unchanged: always on a float matrix, and on an int64 matrix
    as long as the weighted sum of the multiplied counts stays within the
    int64 range. *)
Theorem get_cost_scale_invariant (n k : nat) (c : counter) (Q : ndarray) :
  (0 < k)%nat -> exact_on n (scale_counts k c) Q ->
  get_cost (scale_counts k c) Q = get_cost c Q.
Proof.
  intros Hk Hex. destruct Q as [Q|Q].
  - rewrite !get_cost_float. apply float_cost_scale. exact Hk.
  - destruct Hex as (HQ & Hc' & Hfit').
    pose proof (well_formed_scale n k c Hc') as Hc.
    assert (sum_fits c (IntArray Q)) as Hfit.
    { cbn [sum_fits to_real] in *. rewrite weighted_sum_scale in Hfit'.
      unfold fits_int64 in *.
      assert (1 <= INR k) as Hk1 by (apply (le_INR 1); lia).
      destruct Hfit' as [H1 H2]. split; nra. }
    rewrite (get_cost_average n _ _ HQ Hc' Hfit').
    rewrite (get_cost_average n _ _ HQ Hc Hfit).
    unfold weighted_average. rewrite total_count_scale.
    destruct (total_count c =? 0)%nat eqn:E.
    + apply Nat.eqb_eq in E. rewrite E, Nat.mul_0_r. reflexivity.
    + apply Nat.eqb_neq in E.
      destruct (k * total_count c =? 0)%nat eqn:E'.
      * apply Nat.eqb_eq in E'. nia.
      * f_equal.
        change (weighted_sum (scale_counts k c) (to_real (IntArray Q))
                / INR (total_count (scale_counts k c))
                = weighted_sum c (to_real (IntArray Q)) / INR (total_count c)).
        rewrite weighted_sum_scale, total_count_scale, mult_INR. field.
        split; apply not_0_INR; lia.
Qed.

Lemma get_cost_scale_invariant_witness :
  get_cost (scale_counts 5 [("01"%string, 1%nat); ("11"%string, 3%nat)])
           (FloatArray [[0; 1]; [1; 0]])
  = get_cost [("01"%string, 1%nat); ("11"%string, 3%nat)]
             (FloatArray [[0; 1]; [1; 0]])
  /\ get_cost (scale_counts 5 [("01"%string, 1%nat); ("11"%string, 3%nat)])
              (IntArray [[0; 1]; [1; 0]]%Z)
     = get_cost [("01"%string, 1%nat); ("11"%string, 3%nat)]
                (IntArray [[0; 1]; [1; 0]]%Z).
Proof.
  split.
  - apply (get_cost_scale_invariant 2); [lia|exact I].
  - assert (well_formed_counter 2
              (scale_counts 5 [("01"%string, 1%nat); ("11"%string, 3%nat)]))
      as Hc.
    { split; cbn.
      - repeat constructor; cbn; intuition discriminate.
      - repeat constructor. }
    apply (get_cost_scale_invariant 2); [lia|].
    split; [exact DefinedFacts.example_int_square|].
    split; [exact Hc|].
    cbn [sum_fits to_real].
    rewrite <- (weighted_sum_exact_real 2 _ _ DefinedFacts.example_int_square Hc).
    apply fits_in_range. split; [vm_compute; discriminate|vm_compute; reflexivity].
Defined.

End QuboMore.

(** * More on the embedding cost *)

Module EmbeddingMore.
Import Np Scipy Condensed Embedding Spec EmbeddingViews.
Import SumFacts ListFacts EmbeddingFacts.

Lemma chunks_concat (cols : nat) (X : matrix) :
  Forall (fun r => length r = cols) X ->
  chunks cols (length X) (concat X) = X.
Proof.
  induction 1 as [|r X Hr HX IH]; cbn [length concat chunks]; [reflexivity|].
  rewrite firstn_app_exact, skipn_app_exact by exact Hr.
  rewrite IH. reflexivity.
Qed.

Lemma length_concat_rect (cols : nat) (X : matrix) :
  Forall (fun r => length r = cols) X ->
  length (concat X) = (length X * cols)%nat.
Proof.
  induction 1 as [|r X Hr HX IH]; cbn [concat length]; [reflexivity|].
  rewrite length_app, IH, Hr. lia.
Qed.

Lemma concat_chunks (cols rows : nat) (v : vector) :
  length v = (rows * cols)%nat ->
  concat (chunks cols rows v) = v
  /\ length (chunks cols rows v) = rows
  /\ Forall (fun r => length r = cols) (chunks cols rows v).
Proof.
  revert v. induction rows as [|rows IH]; intros v Hlen; cbn [chunks concat].
  - destruct v; [|discriminate Hlen]. repeat split. constructor.
  - destruct (IH (skipn cols v)) as (Hc & Hl & Hr).
    { rewrite length_skipn, Hlen. lia. }
    rewrite Hc, firstn_skipn. cbn [length]. rewrite Hl.
    repeat split. constructor; [|exact Hr].
    rewrite length_firstn, Hlen. lia.
Qed.

(** X17: flattening a [rows x cols] array and reshaping it to
    [(rows, cols)] gives the array back, and reshaping a flat vector then
    flattening gives the vector back. *)
Theorem reshape_flatten_round_trip (rows cols : nat) (X : matrix) (v : vector) :
  (length X = rows -> Forall (fun r => length r = cols) X ->
   reshape (flatten X) (rows, cols) = Some X)
  /\ (reshape v (rows, cols) = Some X ->
      flatten X = v /\ length X = rows
      /\ Forall (fun r => length r = cols) X).
Proof.
  split.
  - intros Hrows Hcols. unfold reshape, flatten.
    rewrite (length_concat_rect cols X Hcols), Hrows, Nat.eqb_refl.
    rewrite <- Hrows, chunks_concat by exact Hcols. reflexivity.
  - unfold reshape, flatten.
    destruct (length v =? rows * cols)%nat eqn:E; [|discriminate].
    apply Nat.eqb_eq in E. intros H. injection H as <-.
    apply concat_chunks. exact E.
Qed.

Lemma reshape_flatten_round_trip_witness :
  reshape (flatten [[1; 2]; [3; 4]; [5; 6]]) (3%nat, 2%nat)
  = Some [[1; 2]; [3; 4]; [5; 6]].
Proof.
  apply (reshape_flatten_round_trip 3 2 [[1; 2]; [3; 4]; [5; 6]] []).
  - reflexivity.
  - repeat constructor.
Defined.

(** ** Moving the register *)

Lemma length_translate (a b : R) (v : vector) :
  length (translate a b v) = length v.
Proof.
  assert (forall k v, (length v <= k)%nat ->
                      length (translate a b v) = length v) as H.
  { induction k as [|k IH]; intros w Hw.
    - destruct w; [reflexivity|cbn in Hw; lia].
    - destruct w as [|x [|y t]]; cbn [translate length]; try reflexivity.
      rewrite IH by (cbn in Hw; lia). reflexivity. }
  apply (H (length v)). lia.
Qed.

Lemma point_translate (a b : R) (v : vector) (i : nat) :
  (2 * i + 1 < length v)%nat ->
  point (translate a b v) i = (fst (point v i) + a, snd (point v i) + b).
Proof.
  revert v. induction i as [|i IH]; intros v Hi.
  - destruct v as [|x [|y t]]; cbn in Hi; try lia. reflexivity.
  - destruct v as [|x [|y t]]; cbn in Hi; try lia.
    specialize (IH t). unfold point in *. cbn [translate].
    replace (2 * S i)%nat with (S (S (2 * i))) by lia.
    replace (S (S (2 * i)) + 1)%nat with (S (S (2 * i + 1))) by lia.
    cbn [nth fst snd] in *. apply IH. lia.
Qed.

Lemma dist_translate (a b : R) (v : vector) (i j : nat) :
  (2 * i + 1 < length v)%nat -> (2 * j + 1 < length v)%nat ->
  dist (point (translate a b v) i) (point (translate a b v) j)
  = dist (point v i) (point v j).
Proof.
  intros Hi Hj. rewrite !point_translate by assumption.
  unfold dist. cbn [fst snd]. f_equal. ring.
Qed.

Lemma pairs_with_seq_ext (g g' : nat -> nat -> R) (s n : nat) :
  (forall i j, (i < s + n)%nat -> (j < s + n)%nat -> g i j = g' i j) ->
  pairs_with g (seq s n) = pairs_with g' (seq s n).
Proof.
  revert s. induction n as [|n IH]; intros s H; cbn [seq pairs_with];
    [reflexivity|].
  f_equal.
  - apply map_ext_in. intros j Hj. apply in_seq in Hj. apply H; lia.
  - apply IH. intros i j Hi Hj. apply H; lia.
Qed.

Lemma pairs_with_map {A B : Type} (g : B -> B -> R) (h : A -> B) (X : list A) :
  pairs_with g (map h X) = pairs_with (fun p q => g (h p) (h q)) X.
Proof.
  induction X as [|p ps IH]; cbn [map pairs_with]; [reflexivity|].
  rewrite map_map, IH. reflexivity.
Qed.

Section WithDevice.

Variable coeff : R.

(** X18: the cost does not change when the whole register is moved: a
    translation of all the points gives the same result, value or failure. *)
Theorem evaluate_mapping_translation (n : nat) (a b : R) (v : vector)
    (Q : matrix) :
  is_square n Q -> length v = (2 * n)%nat ->
  evaluate_mapping coeff (translate a b v) Q (n, 2%nat)
  = evaluate_mapping coeff v Q (n, 2%nat).
Proof.
  intros HQ Hlen.
  rewrite (evaluate_mapping_unfold coeff n (translate a b v) Q HQ)
    by (rewrite length_translate; exact Hlen).
  rewrite (evaluate_mapping_unfold coeff n v Q HQ Hlen).
  rewrite !pairs_with_map.
  rewrite (pairs_with_seq_ext
             (fun p q => euclidean [nth (2 * p) (translate a b v) 0;
                                    nth (2 * p + 1) (translate a b v) 0]
                                   [nth (2 * q) (translate a b v) 0;
                                    nth (2 * q + 1) (translate a b v) 0] ^ 6)
             (fun p q => euclidean [nth (2 * p) v 0; nth (2 * p + 1) v 0]
                                   [nth (2 * q) v 0; nth (2 * q + 1) v 0] ^ 6)
             0 n).
  - destruct (div_scalar_by coeff _); [|reflexivity]. cbn [Err.bind].
    f_equal. unfold mapping_cost. f_equal.
    apply sum_upto_ext. intros i Hi. apply sum_upto_ext. intros j Hj.
    unfold new_Q. destruct (i =? j)%nat; [reflexivity|].
    rewrite dist_translate by lia. reflexivity.
  - intros i j Hi Hj. rewrite !euclidean_rows.
    change (nth (2 * i) (translate a b v) 0, nth (2 * i + 1) (translate a b v) 0)
      with (point (translate a b v) i).
    change (nth (2 * j) (translate a b v) 0, nth (2 * j + 1) (translate a b v) 0)
      with (point (translate a b v) j).
    rewrite dist_translate by lia. reflexivity.
Qed.

End WithDevice.

Lemma evaluate_mapping_translation_witness :
  evaluate_mapping 1 (translate 3 4 [0; 0; 1; 0]) [[0; 1]; [1; 0]]
                   (2%nat, 2%nat)
  = evaluate_mapping 1 [0; 0; 1; 0] [[0; 1]; [1; 0]] (2%nat, 2%nat).
Proof.
  apply (evaluate_mapping_translation 1 2).
  - exact DefinedFacts.example_square.
  - reflexivity.
Defined.

End EmbeddingMore.

(** * The diagonal of the QUBO in the embedding cost *)

Module DiagonalFacts.
Import Np Scipy Condensed Embedding Spec EmbeddingViews.
Import SumFacts ListFacts EmbeddingFacts.

Lemma sum_upto_nonneg (n : nat) (f : nat -> R) :
  (forall i, (i < n)%nat -> 0 <= f i) -> 0 <= sum_upto n f.
Proof.
  induction n as [|n IH]; intros H; cbn; [lra|].
  assert (0 <= sum_upto n f) by (apply IH; intros; apply H; lia).
  assert (0 <= f n) by (apply H; lia). lra.
Qed.

Lemma sum_upto_zero_terms (n : nat) (f : nat -> R) :
  (forall i, (i < n)%nat -> 0 <= f i) -> sum_upto n f = 0 ->
  forall i, (i < n)%nat -> f i = 0.
Proof.
  induction n as [|n IH]; intros Hpos Hsum i Hi; [lia|].
  cbn in Hsum.
  assert (0 <= sum_upto n f) by (apply sum_upto_nonneg; intros; apply Hpos; lia).
  assert (0 <= f n) by (apply Hpos; lia).
  destruct (Nat.eq_dec i n) as [->|Hne]; [lra|].
  apply IH; [intros; apply Hpos; lia|lra|lia].
Qed.

Lemma sum_upto_delta (n i : nat) (d : R) :
  (i < n)%nat ->
  sum_upto n (fun j => if (i =? j)%nat then d else 0) = d.
Proof.
  induction n as [|n IH]; intros Hi; [lia|]. cbn.
  destruct (Nat.eq_dec i n) as [->|Hne].
  - rewrite Nat.eqb_refl.
    rewrite (sum_upto_ext n _ (fun _ => 0)), sum_upto_zero; [ring|].
    intros j Hj. destruct (n =? j)%nat eqn:E; [|reflexivity].
    apply Nat.eqb_eq in E. lia.
  - rewrite IH by lia.
    destruct (i =? n)%nat eqn:E; [apply Nat.eqb_eq in E; lia|ring].
Qed.

Lemma entry_map_seq (n m : nat) (a : nat -> nat -> R) (i j : nat) :
  (i < n)%nat -> (j < m)%nat ->
  entry (map (fun i => map (fun j => a i j) (seq 0 m)) (seq 0 n)) i j = a i j.
Proof.
  intros Hi Hj. unfold entry.
  rewrite (nth_map_seq _ n i []) by exact Hi.
  rewrite (nth_map_seq _ m j 0) by exact Hj. reflexivity.
Qed.

Lemma square_map_seq (n : nat) (a : nat -> nat -> R) :
  is_square n (map (fun i => map (fun j => a i j) (seq 0 n)) (seq 0 n)).
Proof.
  split; [rewrite length_map, length_seq; reflexivity|].
  apply Forall_forall. intros r Hr. apply in_map_iff in Hr.
  destruct Hr as (i & <- & _). rewrite length_map, length_seq. reflexivity.
Qed.

Lemma without_diagonal_value (n : nat) (Q : matrix) :
  is_square n Q ->
  without_diagonal Q
  = Some (map (fun i => map (fun j => if (i =? j)%nat then 0 else entry Q i j)
                            (seq 0 n))
              (seq 0 n)).
Proof.
  intros HQ. pose proof (QuboFacts.width_square n Q HQ) as Hw.
  destruct HQ as [Hlen Hrows].
  unfold without_diagonal, diag_of_matrix. rewrite Hlen, Hw, Nat.min_id.
  unfold diag_of_vector. rewrite length_map, length_seq.
  rewrite (bsub_same_shape n).
  - f_equal. apply map_ext_in. intros i Hi. apply in_seq in Hi.
    apply map_ext_in. intros j Hj. apply in_seq in Hj.
    rewrite entry_map_seq by lia.
    destruct (i =? j)%nat eqn:E; [|ring].
    apply Nat.eqb_eq in E. subst j.
    rewrite (nth_map_seq _ n i 0) by lia. ring.
  - exact Hlen.
  - exact Hw.
  - apply (square_map_seq n).
  - apply QuboFacts.width_square. apply (square_map_seq n).
Qed.

(** X19: on a square matrix [Q - np.diag(np.diag(Q))] is the square matrix
    with zeros on the diagonal and the entries of [Q] elsewhere. *)
Theorem without_diagonal_entries (n : nat) (Q : matrix) :
  is_square n Q ->
  exists Q0,
    without_diagonal Q = Some Q0 /\ is_square n Q0
    /\ forall i j, (i < n)%nat -> (j < n)%nat ->
                   entry Q0 i j = if (i =? j)%nat then 0 else entry Q i j.
Proof.
  intros HQ. eexists. split; [apply (without_diagonal_value n Q HQ)|].
  split; [apply (square_map_seq n)|].
  intros i j Hi Hj. apply entry_map_seq; assumption.
Qed.

Lemma without_diagonal_entries_witness :
  exists Q0, without_diagonal [[0; 1]; [1; 0]] = Some Q0.
Proof.
  destruct (without_diagonal_entries 2 [[0; 1]; [1; 0]]
              DefinedFacts.example_square) as (Q0 & H & _).
  exists Q0. exact H.
Defined.

Section WithDevice.

Variable coeff : R.

Lemma new_Q_diagonal (v : vector) (i : nat) : new_Q coeff v i i = 0.
Proof. unfold new_Q. rewrite Nat.eqb_refl. reflexivity. Qed.

Lemma cost_sum_nonneg (n : nat) (v : vector) (Q : matrix) :
  0 <= sum_upto n (fun i =>
         sum_upto n (fun j => (new_Q coeff v i j - entry Q i j) ^ 2)).
Proof.
  apply sum_upto_nonneg. intros i _. apply sum_upto_nonneg. intros j _.
  apply pow2_ge_0.
Qed.

(** The squared cost splits into the off-diagonal part and the diagonal. *)
Lemma cost_sum_split (n : nat) (v : vector) (Q Q0 : matrix) :
  (forall i j, (i < n)%nat -> (j < n)%nat ->
               entry Q0 i j = if (i =? j)%nat then 0 else entry Q i j) ->
  sum_upto n (fun i =>
    sum_upto n (fun j => (new_Q coeff v i j - entry Q i j) ^ 2))
  = sum_upto n (fun i =>
      sum_upto n (fun j => (new_Q coeff v i j - entry Q0 i j) ^ 2))
    + sum_upto n (fun i => entry Q i i ^ 2).
Proof.
  intros H0. rewrite <- sum_upto_plus. apply sum_upto_ext. intros i Hi.
  transitivity
    (sum_upto n (fun j => (new_Q coeff v i j - entry Q0 i j) ^ 2)
     + sum_upto n (fun j => if (i =? j)%nat then entry Q i i ^ 2 else 0));
    [|rewrite (sum_upto_delta n i _ Hi); reflexivity].
  rewrite <- sum_upto_plus. apply sum_upto_ext. intros j Hj.
  rewrite (H0 i j Hi Hj). destruct (i =? j)%nat eqn:E.
  - apply Nat.eqb_eq in E. subst j. rewrite new_Q_diagonal. ring.
  - ring.
Qed.

(** X20: the diagonal of [Q] can never be matched.  When the cost against
    [Q] has a value [c], the cost against [Q - np.diag(np.diag(Q))] has a
    value [c0] with [c^2 = c0^2 +] the sum of the squares of the diagonal of
    [Q]; so [c] is at least [c0] and at least the norm of the diagonal. *)
Theorem evaluate_mapping_diagonal (n : nat) (v : vector) (Q : matrix) (c : R) :
  is_square n Q -> length v = (2 * n)%nat ->
  evaluate_mapping coeff v Q (n, 2%nat) = Some c ->
  exists Q0 c0,
    without_diagonal Q = Some Q0
    /\ evaluate_mapping coeff v Q0 (n, 2%nat) = Some c0
    /\ c * c = c0 * c0 + sum_upto n (fun i => entry Q i i ^ 2)
    /\ c0 <= c
    /\ sqrt (sum_upto n (fun i => entry Q i i ^ 2)) <= c.
Proof.
  intros HQ Hlen Hc.
  set (Q0 := map (fun i => map (fun j => if (i =? j)%nat then 0 else entry Q i j)
                               (seq 0 n)) (seq 0 n)).
  assert (is_square n Q0) as HQ0 by apply (square_map_seq n).
  assert (forall i j, (i < n)%nat -> (j < n)%nat ->
                      entry Q0 i j = if (i =? j)%nat then 0 else entry Q i j)
    as Hentries by (intros; apply entry_map_seq; assumption).
  rewrite (evaluate_mapping_unfold coeff n v Q HQ Hlen) in Hc.
  exists Q0, (mapping_cost coeff n v Q0).
  split; [apply (without_diagonal_value n Q HQ)|].
  rewrite (evaluate_mapping_unfold coeff n v Q0 HQ0 Hlen).
  destruct (div_scalar_by coeff _) as [w|]; [|discriminate Hc].
  cbn [Err.bind] in *. injection Hc as <-.
  split; [reflexivity|].
  pose proof (cost_sum_nonneg n v Q) as HS.
  pose proof (cost_sum_nonneg n v Q0) as HS0.
  pose proof (cost_sum_split n v Q Q0 Hentries) as Hsplit.
  assert (0 <= sum_upto n (fun i => entry Q i i ^ 2)) as HD
    by (apply sum_upto_nonneg; intros; apply pow2_ge_0).
  unfold mapping_cost. rewrite !sqrt_sqrt by assumption.
  split; [exact Hsplit|]. split; apply sqrt_le_1; lra.
Qed.

(** X21: the cost is zero exactly when the points are pairwise distinct
    and every entry of [Q] is the interaction of the register: zero on the
    diagonal, [coeff / d^6] off it. *)
Theorem evaluate_mapping_zero_iff (n : nat) (v : vector) (Q : matrix) :
  is_square n Q -> length v = (2 * n)%nat ->
  (evaluate_mapping coeff v Q (n, 2%nat) = Some 0
   <-> pairwise_distinct n v
       /\ forall i j, (i < n)%nat -> (j < n)%nat ->
                      entry Q i j = new_Q coeff v i j).
Proof.
  intros HQ Hlen. split.
  - intros H. split.
    + apply (evaluate_mapping_defined_distinct coeff n v Q 0 HQ Hlen H).
    + rewrite (evaluate_mapping_unfold coeff n v Q HQ Hlen) in H.
      destruct (div_scalar_by coeff _) as [w|]; [|discriminate H].
      cbn [Err.bind] in H. injection H as H. unfold mapping_cost in H.
      apply sqrt_eq_0 in H; [|apply cost_sum_nonneg].
      intros i j Hi Hj.
      pose proof (sum_upto_zero_terms n _
                    (fun i _ => sum_upto_nonneg n _ (fun j _ => pow2_ge_0 _))
                    H i Hi) as Hrow.
      cbn beta in Hrow.
      pose proof (sum_upto_zero_terms n _ (fun j _ => pow2_ge_0 _) Hrow j Hj)
        as Hij.
      cbn beta in Hij.
      assert (new_Q coeff v i j - entry Q i j = 0) by nra. lra.
  - intros [Hd Heq].
    rewrite (evaluate_mapping_unfold coeff n v Q HQ Hlen).
    rewrite (div_scalar_by_Some _ _ (sixth_powers_nonzero n v Hd)).
    cbn [Err.bind]. f_equal. unfold mapping_cost.
    rewrite (sum_upto_ext n _ (fun _ => 0)).
    + rewrite sum_upto_zero. apply sqrt_0.
    + intros i Hi. rewrite (sum_upto_ext n _ (fun _ => 0)).
      * apply sum_upto_zero.
      * intros j Hj. rewrite (Heq i j Hi Hj). ring.
Qed.

End WithDevice.

Lemma evaluate_mapping_diagonal_witness :
  exists Q0 c0,
    without_diagonal [[0; 1]; [1; 0]] = Some Q0
    /\ evaluate_mapping 1 [0; 0; 1; 0] Q0 (2%nat, 2%nat) = Some c0.
Proof.
  destruct (evaluate_mapping_diagonal 1 2 [0; 0; 1; 0] [[0; 1]; [1; 0]] 0
              DefinedFacts.example_square eq_refl
              Examples.evaluate_mapping_unit_pair)
    as (Q0 & c0 & H1 & H2 & _).
  exists Q0, c0. split; assumption.
Defined.

Lemma evaluate_mapping_zero_iff_witness :
  pairwise_distinct 2 [0; 0; 1; 0].
Proof.
  apply (evaluate_mapping_zero_iff 1 2 [0; 0; 1; 0] [[0; 1]; [1; 0]]
           DefinedFacts.example_square eq_refl).
  exact Examples.evaluate_mapping_unit_pair.
Defined.

End DiagonalFacts.

(** * After the QAOA loop *)

Module BestFacts.
Import Qaoa Best QaoaFacts.

(** The scan keeps the first index of the least element seen so far. *)
Lemma argmin_from_spec (l pre : list R) (best : R) (besti : nat) :
  (besti < length pre)%nat -> nth besti pre 0 = best ->
  (forall x, In x pre -> best <= x) ->
  (forall k, (k < besti)%nat -> best < nth k pre 0) ->
  let r := argmin_from l (length pre) best besti in
  (r < length (pre ++ l))%nat
  /\ (forall x, In x (pre ++ l) -> nth r (pre ++ l) 0 <= x)
  /\ (forall k, (k < r)%nat -> nth r (pre ++ l) 0 < nth k (pre ++ l) 0).
Proof.
  revert pre best besti. induction l as [|x t IH];
    intros pre best besti Hlt Hnth Hmin Hfirst; cbn [argmin_from].
  - rewrite app_nil_r. rewrite Hnth. repeat split; assumption.
  - replace (pre ++ x :: t) with ((pre ++ [x]) ++ t)
      by (rewrite <- app_assoc; reflexivity).
    replace (S (length pre)) with (length (pre ++ [x]))
      by (rewrite length_app; cbn; lia).
    destruct (Rlt_dec x best) as [Hx|Hx]; apply IH.
    + rewrite length_app. cbn. lia.
    + rewrite app_nth2 by lia. rewrite Nat.sub_diag. reflexivity.
    + intros y Hy. apply in_app_iff in Hy. destruct Hy as [Hy|[<-|[]]].
      * specialize (Hmin y Hy). lra.
      * lra.
    + intros k Hk. rewrite app_nth1 by exact Hk.
      assert (best <= nth k pre 0) by (apply Hmin, nth_In; exact Hk). lra.
    + rewrite length_app. cbn. lia.
    + rewrite app_nth1 by exact Hlt. exact Hnth.
    + intros y Hy. apply in_app_iff in Hy. destruct Hy as [Hy|[<-|[]]].
      * apply Hmin. exact Hy.
      * lra.
    + intros k Hk. rewrite app_nth1 by lia. apply Hfirst. exact Hk.
Qed.

Lemma np_argmin_spec (l : list R) :
  l <> [] ->
  exists i, np_argmin l = Some i /\ (i < length l)%nat
            /\ (forall x, In x l -> nth i l 0 <= x)
            /\ (forall k, (k < i)%nat -> nth i l 0 < nth k l 0).
Proof.
  destruct l as [|x t]; [congruence|]. intros _.
  exists (argmin_from t 1 x 0). split; [reflexivity|].
  apply (argmin_from_spec t [x] x 0).
  - cbn. lia.
  - reflexivity.
  - intros y [<-|[]]. lra.
  - intros k Hk. lia.
Qed.

Section Loop.

Variable World : Type.
Variable draw_guess : World -> World * (list R * list R).
Variable minimize : World -> list R -> World * outcome OptimizeResult.

(** X22: when the loop cell finishes, [scores] and [params] have the same
    length, at most 10. *)
Theorem qaoa_loop_lengths (w : World) (st : loop_state World) :
  qaoa_loop World draw_guess minimize w = Normal st ->
  length (scores st) = length (params st)
  /\ (length (scores st) <= 10)%nat.
Proof.
  intros H. unfold qaoa_loop in H.
  destruct (run_loop_lengths World draw_guess minimize 10 _ st H eq_refl)
    as [H1 H2].
  cbn [scores length] in H2. split; [exact H1|lia].
Qed.

(** X23: after the loop [params[np.argmin(scores)]] never raises
    IndexError: it fails exactly when no repetition succeeded (ValueError
    of [np.argmin] on the empty list), and otherwise it is the parameter
    vector stored with the first least score. *)
Theorem optimal_params_after_loop (w : World) (st : loop_state World) :
  qaoa_loop World draw_guess minimize w = Normal st ->
  (scores st = [] -> optimal_params st = None)
  /\ (scores st <> [] ->
      exists i p,
        np_argmin (scores st) = Some i
        /\ nth_error (params st) i = Some p
        /\ optimal_params st = Some p
        /\ (forall x, In x (scores st) -> nth i (scores st) 0 <= x)
        /\ (forall k, (k < i)%nat -> nth i (scores st) 0 < nth k (scores st) 0)).
Proof.
  intros H. unfold qaoa_loop in H.
  destruct (run_loop_lengths World draw_guess minimize 10 _ st H eq_refl)
    as [Hlen _].
  split.
  - intros He. unfold optimal_params. rewrite He. reflexivity.
  - intros Hne. destruct (np_argmin_spec (scores st) Hne)
      as (i & Hi & Hlt & Hmin & Hfirst).
    destruct (nth_error (params st) i) as [p|] eqn:Ep.
    + exists i, p. unfold optimal_params. rewrite Hi. cbn [Err.bind].
      repeat split; assumption.
    + apply nth_error_None in Ep. lia.
Qed.

(** When every call of [minimize] raises an instance of [Exception], each
    repetition leaves the two lists as they are. *)
Lemma run_loop_all_caught (n : nat) (st : loop_state World) :
  (forall w x0, exists w' e, minimize w x0 = (w', Raises e)
                             /\ isinstance_Exception e = true) ->
  exists w', run_loop World draw_guess minimize n st
             = Normal (mkLoop w' (scores st) (params st)).
Proof.
  intros Hall. revert st. induction n as [|n IH]; intros st.
  - exists (world st). destruct st; reflexivity.
  - cbn [run_loop].
    destruct (Hall (fst (draw_guess (world st)))
                   (fst (snd (draw_guess (world st)))
                    ++ snd (snd (draw_guess (world st)))))
      as (w2 & e & Hm & He).
    rewrite (repetition_caught World draw_guess minimize st w2 e Hm He).
    destruct (IH (mkLoop w2 (scores st) (params st))) as (w' & Hw').
    exists w'. exact Hw'.
Qed.

(** X24: if every call of [minimize] raises an instance of [Exception],
    the loop cell still finishes normally, with both lists empty; the
    failure only shows when [np.argmin] is called on the empty list. *)
Theorem all_repetitions_fail (w : World) :
  (forall w x0, exists w' e, minimize w x0 = (w', Raises e)
                             /\ isinstance_Exception e = true) ->
  exists st,
    qaoa_loop World draw_guess minimize w = Normal st
    /\ scores st = [] /\ params st = []
    /\ optimal_params st = None.
Proof.
  intros Hall. unfold qaoa_loop.
  destruct (run_loop_all_caught 10 (mkLoop w [] []) Hall) as (w' & Hw').
  exists (mkLoop w' [] []). split; [exact Hw'|]. repeat split.
Qed.

End Loop.

Lemma qaoa_loop_lengths_witness :
  let draw := fun w : unit => (w, ([1], [2])) in
  let minimize := fun (w : unit) (x0 : list R) =>
                    (w, Returns (mkRes 3 x0)) in
  exists st, qaoa_loop unit draw minimize tt = Normal st
             /\ (length (scores st) <= 10)%nat.
Proof.
  intros draw minimize. eexists. split; [reflexivity|].
  apply (qaoa_loop_lengths unit draw minimize tt). reflexivity.
Defined.

Lemma optimal_params_after_loop_witness :
  let draw := fun w : unit => (w, ([1], [2])) in
  let minimize := fun (w : unit) (x0 : list R) =>
                    (w, Returns (mkRes 3 x0)) in
  exists st, qaoa_loop unit draw minimize tt = Normal st
             /\ (scores st = [] -> optimal_params st = None).
Proof.
  intros draw minimize. eexists. split; [reflexivity|].
  apply (optimal_params_after_loop unit draw minimize tt). reflexivity.
Defined.

Lemma all_repetitions_fail_witness :
  exists st,
    qaoa_loop unit (fun w => (w, ([1], [2])))
      (fun w _ => (w, Raises (mkExc "ValueError" FromException))) tt
    = Normal st
    /\ scores st = [] /\ params st = [] /\ optimal_params st = None.
Proof.
  apply (all_repetitions_fail unit).
  intros w x0. exists w, (mkExc "ValueError" FromException).
  split; reflexivity.
Defined.

End BestFacts.

(** * Filtered and drawn counters *)

Module CountsFacts.
Import Qubo Spec PySort Counts SortFacts QuboFacts QuboMore.

Lemma keys_filter_incl (f : string * nat -> bool) (c : counter) (k : string) :
  In k (keys (filter f c)) -> In k (keys c).
Proof.
  unfold keys. intros H. apply in_map_iff in H.
  destruct H as (kv & <- & Hin). apply filter_In in Hin.
  apply in_map. apply Hin.
Qed.

Lemma NoDup_keys_filter (f : string * nat -> bool) (c : counter) :
  NoDup (keys c) -> NoDup (keys (filter f c)).
Proof.
  induction c as [|kv c IH]; intros H; cbn; [constructor|].
  cbn in H. inversion H as [|? ? Hnotin Hnd]; subst.
  destruct (f kv); cbn; [|apply IH; exact Hnd].
  constructor; [|apply IH; exact Hnd].
  intros Hin. apply Hnotin. apply (keys_filter_incl f c). exact Hin.
Qed.

Lemma total_count_filter (f : string * nat -> bool) (c : counter) :
  (total_count (filter f c) <= total_count c)%nat.
Proof.
  induction c as [|kv c IH]; cbn; [lia|].
  unfold total_count in *. destruct (f kv); cbn; lia.
Qed.

(** X25: [large_counts] is still a dict; a key is found in it exactly when
    it is in [counts] with a count above 5, and then with that count; its
    total does not exceed the total of [counts]. *)
Theorem large_counts_lookup (counts : counter) :
  NoDup (keys counts) ->
  NoDup (keys (large_counts counts))
  /\ (forall k,
        getitem (large_counts counts) k
        = match getitem counts k with
          | Some v => if (5 <? v)%nat then Some v else None
          | None => None
          end)
  /\ (total_count (large_counts counts) <= total_count counts)%nat.
Proof.
  intros Hnd. unfold large_counts.
  split; [apply NoDup_keys_filter; exact Hnd|].
  split; [|apply total_count_filter].
  intros k.
  pose proof (NoDup_keys_filter (fun kv => (5 <? snd kv)%nat) counts Hnd) as Hnd'.
  destruct (getitem counts k) as [v|] eqn:E.
  - pose proof (getitem_In counts k v E) as Hin.
    destruct (5 <? v)%nat eqn:Ev.
    + apply getitem_NoDup; [exact Hnd'|].
      apply filter_In. split; [exact Hin|exact Ev].
    + destruct (getitem (filter _ counts) k) as [v'|] eqn:E'; [|reflexivity].
      apply getitem_In in E'. apply filter_In in E'. destruct E' as [Hin' Hv'].
      cbn [snd] in Hv'. rewrite (getitem_NoDup counts k v' Hnd Hin') in E.
      injection E as ->. congruence.
  - destruct (getitem (filter _ counts) k) as [v'|] eqn:E'; [|reflexivity].
    apply getitem_In in E'. apply filter_In in E'. destruct E' as [Hin' _].
    rewrite (getitem_NoDup counts k v' Hnd Hin') in E. discriminate.
Qed.

Lemma large_counts_lookup_witness :
  getitem (large_counts [("01"%string, 7%nat); ("11"%string, 3%nat)])
          "01"%string
  = match getitem [("01"%string, 7%nat); ("11"%string, 3%nat)] "01"%string
    with
    | Some v => if (5 <? v)%nat then Some v else None
    | None => None
    end.
Proof.
  apply (large_counts_lookup [("01"%string, 7%nat); ("11"%string, 3%nat)]).
  repeat constructor; cbn; intuition discriminate.
Defined.

Lemma geb_total (a b : string * nat) :
  (snd b <=? snd a)%nat = true \/ (snd a <=? snd b)%nat = true.
Proof. rewrite !Nat.leb_le. lia. Qed.

Lemma geb_trans (a b c : string * nat) :
  (snd b <=? snd a)%nat = true -> (snd c <=? snd b)%nat = true ->
  (snd c <=? snd a)%nat = true.
Proof. rewrite !Nat.leb_le. lia. Qed.

Lemma combine_keys_values (c : counter) : combine (keys c) (values c) = c.
Proof.
  induction c as [|[k v] c IH]; cbn; [reflexivity|].
  unfold keys, values in IH. rewrite IH. reflexivity.
Qed.

(** With distinct keys at most two keys are among the two solutions. *)
Lemma red_keys_bound (ks : list string) :
  NoDup ks ->
  (length (filter (fun k => existsb (String.eqb k) indexes) ks) <= 2)%nat.
Proof.
  intros Hnd.
  assert (incl (filter (fun k => existsb (String.eqb k) indexes) ks) indexes)
    as Hincl.
  { intros k Hk. apply filter_In in Hk. destruct Hk as [_ Hk].
    apply existsb_exists in Hk. destruct Hk as (x & Hx & Heq).
    apply String.eqb_eq in Heq. subst. exact Hx. }
  apply (NoDup_incl_length (NoDup_filter _ Hnd)) in Hincl. exact Hincl.
Qed.

Lemma filter_map_colour (ks : list string) :
  length (filter (String.eqb "r") (map colour ks))
  = length (filter (fun k => existsb (String.eqb k) indexes) ks).
Proof.
  assert (String.eqb "r" "g" = false) as Hrg by reflexivity.
  induction ks as [|k ks IH]; cbn [map filter]; [reflexivity|].
  unfold colour at 1.
  destruct (existsb (String.eqb k) indexes).
  - rewrite String.eqb_refl. cbn [length]. rewrite IH. reflexivity.
  - rewrite Hrg. exact IH.
Qed.

(** X26: the bars of [plot_distribution] are the items of the counter in
    non-increasing order of count, items of equal count in the order of the
    dict; the colours go with the keys, and when the keys are distinct at
    most two bars are red. *)
Theorem plot_distribution_bars (C : counter) :
  NoDup (keys C) ->
  let '(ks, hs, cs) := plot_distribution C in
  Permutation C (combine ks hs)
  /\ StronglySorted (fun a b => (b <= a)%nat) hs
  /\ (forall v, filter (fun kv => (snd kv =? v)%nat) (combine ks hs)
                = filter (fun kv => (snd kv =? v)%nat) C)
  /\ cs = map colour ks
  /\ (length (filter (String.eqb "r") cs) <= 2)%nat.
Proof.
  intros Hnd. unfold plot_distribution.
  set (le := fun x y : string * nat => (snd y <=? snd x)%nat).
  rewrite combine_keys_values.
  pose proof (sorted_perm le C) as Hperm.
  split; [exact Hperm|]. split; [|split; [|split]].
  - pose proof (sorted_sorted le geb_total geb_trans C) as Hs.
    clear Hperm. unfold values.
    induction Hs as [|x l Hl IH Hx]; cbn; constructor.
    + exact IH.
    + rewrite Forall_forall in *. intros b Hb. apply in_map_iff in Hb.
      destruct Hb as (y & <- & Hy). specialize (Hx y Hy).
      unfold le in Hx. apply Nat.leb_le in Hx. exact Hx.
  - intros v.
    assert (forall kv : string * nat,
               (snd kv =? v)%nat
               = andb (le (EmptyString, v) kv) (le kv (EmptyString, v)))
      as Hext.
    { intros kv. unfold le. cbn [snd]. destruct (snd kv =? v)%nat eqn:E.
      - apply Nat.eqb_eq in E. rewrite E, Nat.leb_refl. reflexivity.
      - apply Nat.eqb_neq in E. symmetry. apply Bool.andb_false_iff.
        rewrite !Nat.leb_gt. lia. }
    rewrite !(filter_ext _ _ Hext).
    apply (sorted_stable le geb_trans).
  - reflexivity.
  - rewrite filter_map_colour. apply red_keys_bound.
    unfold keys. apply (Permutation_NoDup (Permutation_map fst Hperm)).
    exact Hnd.
Qed.

Lemma plot_distribution_bars_witness :
  let '(ks, hs, cs) :=
    plot_distribution [("01011"%string, 2%nat); ("11111"%string, 9%nat)] in
  cs = map colour ks.
Proof.
  apply (plot_distribution_bars
           [("01011"%string, 2%nat); ("11111"%string, 9%nat)]).
  repeat constructor; cbn; intuition discriminate.
Defined.

End CountsFacts.

(** * Observables built by list assignment *)

Module ObservablesFacts.
Import Qobj Observables.

Lemma length_set_nth {A : Type} (n : nat) (x : A) (l : list A) :
  length (set_nth n x l) = length l.
Proof.
  revert n. induction l as [|a l IH]; intros n; [reflexivity|].
  destruct n; cbn; [reflexivity|rewrite IH; reflexivity].
Qed.

Lemma set_nth_comm {A : Type} (i j : nat) (x : A) (l : list A) :
  set_nth j x (set_nth i x l) = set_nth i x (set_nth j x l).
Proof.
  revert i j. induction l as [|a l IH]; intros i j; [reflexivity|].
  destruct i, j; cbn; try reflexivity. rewrite IH. reflexivity.
Qed.

Lemma set_nth_twice {A : Type} (i : nat) (x : A) (l : list A) :
  set_nth i x (set_nth i x l) = set_nth i x l.
Proof.
  revert i. induction l as [|a l IH]; intros i; [reflexivity|].
  destruct i; cbn; [reflexivity|rewrite IH; reflexivity].
Qed.

Lemma py_index_None (len : nat) (i : Z) :
  py_index len i = None <-> (i < - Z.of_nat len \/ Z.of_nat len <= i)%Z.
Proof.
  unfold py_index.
  destruct (andb (0 <=? i)%Z (i <? Z.of_nat len)%Z) eqn:E1.
  - apply Bool.andb_true_iff in E1. destruct E1 as [H1 H2].
    apply Z.leb_le in H1. apply Z.ltb_lt in H2.
    split; [discriminate|lia].
  - destruct (andb (- Z.of_nat len <=? i)%Z (i <? 0)%Z) eqn:E2.
    + apply Bool.andb_true_iff in E2. destruct E2 as [H1 H2].
      apply Z.leb_le in H1. apply Z.ltb_lt in H2.
      split; [discriminate|lia].
    + split; [intros _|reflexivity].
      apply Bool.andb_false_iff in E1, E2.
      rewrite Z.leb_gt, Z.ltb_ge in E1, E2. lia.
Qed.

Lemma py_index_wrap (len : nat) (i : Z) :
  (0 <= i < Z.of_nat len)%Z ->
  py_index len (i - Z.of_nat len) = py_index len i.
Proof.
  intros Hi. unfold py_index.
  destruct (andb (0 <=? i - Z.of_nat len)%Z
                 (i - Z.of_nat len <? Z.of_nat len)%Z) eqn:E1.
  { apply Bool.andb_true_iff in E1. destruct E1 as [H1 _].
    apply Z.leb_le in H1. lia. }
  destruct (andb (- Z.of_nat len <=? i - Z.of_nat len)%Z
                 (i - Z.of_nat len <? 0)%Z) eqn:E2.
  - destruct (andb (0 <=? i)%Z (i <? Z.of_nat len)%Z) eqn:E3.
    + f_equal. f_equal. lia.
    + apply Bool.andb_false_iff in E3. rewrite Z.leb_gt, Z.ltb_ge in E3. lia.
  - apply Bool.andb_false_iff in E2. rewrite Z.leb_gt, Z.ltb_ge in E2. lia.
Qed.

Section WithTensor.

Variable T : Type.
Variable tensor : list M2 -> T.

Lemma neel_sym (i j : Z) : neel T tensor i j = neel T tensor j i.
Proof.
  unfold neel, setitem. rewrite repeat_length.
  destruct (py_index RingRegister.L i) as [a|] eqn:Ei;
    destruct (py_index RingRegister.L j) as [b|] eqn:Ej;
    cbn [Err.bind]; rewrite ?length_set_nth, ?repeat_length, ?Ei, ?Ej;
    cbn [Err.bind]; try reflexivity.
  rewrite set_nth_comm. reflexivity.
Qed.

Lemma neel_diag (i : Z) : neel T tensor i i = local_magn T tensor i.
Proof.
  unfold neel, local_magn, setitem. rewrite repeat_length.
  destruct (py_index RingRegister.L i) as [a|] eqn:Ei; cbn [Err.bind];
    [|reflexivity].
  rewrite length_set_nth, repeat_length, Ei. cbn [Err.bind].
  rewrite set_nth_twice. reflexivity.
Qed.

(** X27: [neel] is symmetric in its two sites, [neel(i, i)] is
    [local_magn(i)] (the second assignment hits the same slot), a negative
    site counts from the end of the ring, and both functions raise
    IndexError exactly for sites outside [[-L, L)]. *)
Theorem observables_indexing (i j : Z) :
  neel T tensor i j = neel T tensor j i
  /\ neel T tensor i i = local_magn T tensor i
  /\ (local_magn T tensor i = None
      <-> (i < - Z.of_nat RingRegister.L \/ Z.of_nat RingRegister.L <= i)%Z)
  /\ ((0 <= i < Z.of_nat RingRegister.L)%Z ->
      local_magn T tensor (i - Z.of_nat RingRegister.L)
      = local_magn T tensor i).
Proof.
  split; [apply neel_sym|]. split; [apply neel_diag|]. split.
  - unfold local_magn, setitem. rewrite repeat_length.
    rewrite <- py_index_None.
    destruct (py_index RingRegister.L i); cbn [Err.bind];
      split; intros H; try reflexivity; discriminate.
  - intros Hi. unfold local_magn, setitem. rewrite repeat_length.
    rewrite (py_index_wrap _ _ Hi). reflexivity.
Qed.

(** No term of [neel_av] raises: for every [i] in [range(L)] the sites
    [i] and [(i + 1) % L] are in range and distinct, so each of the [L]
    terms is the tensor product with [sigmaz] at exactly these two sites. *)
Lemma neel_terms_defined :
  neel_terms T tensor
  = Some (map (fun i =>
                 tensor (set_nth ((i + 1) mod RingRegister.L) sigmaz
                           (set_nth i sigmaz (repeat qeye2 RingRegister.L))))
              (seq 0 RingRegister.L))
  /\ forall i, (i < RingRegister.L)%nat -> (i + 1) mod RingRegister.L <> i.
Proof.
  split.
  - unfold neel_terms.
    rewrite <- (map_id (seq 0 RingRegister.L)) at 1.
    apply QuboFacts.mapM_map_Some. intros i Hi. apply in_seq in Hi.
    unfold neel, setitem. rewrite repeat_length.
    assert (py_index RingRegister.L (Z.of_nat i) = Some i) as ->.
    { unfold py_index.
      destruct (andb (0 <=? Z.of_nat i)%Z
                     (Z.of_nat i <? Z.of_nat RingRegister.L)%Z) eqn:E.
      - rewrite Nat2Z.id. reflexivity.
      - apply Bool.andb_false_iff in E. rewrite Z.leb_gt, Z.ltb_ge in E. lia. }
    cbn [Err.bind]. rewrite length_set_nth, repeat_length.
    assert (py_index RingRegister.L
              ((Z.of_nat i + 1) mod Z.of_nat RingRegister.L)%Z
            = Some ((i + 1) mod RingRegister.L)) as ->.
    { assert (((Z.of_nat i + 1) mod Z.of_nat RingRegister.L)%Z
              = Z.of_nat ((i + 1) mod RingRegister.L)) as ->
        by (rewrite Nat2Z.inj_mod, Nat2Z.inj_add; reflexivity).
      pose proof (Nat.mod_upper_bound (i + 1) RingRegister.L) as Hm.
      unfold py_index.
      destruct (andb (0 <=? Z.of_nat ((i + 1) mod RingRegister.L))%Z
                     (Z.of_nat ((i + 1) mod RingRegister.L)
                      <? Z.of_nat RingRegister.L)%Z) eqn:E.
      - rewrite Nat2Z.id. reflexivity.
      - apply Bool.andb_false_iff in E. rewrite Z.leb_gt, Z.ltb_ge in E.
        unfold RingRegister.L in *. lia. }
    reflexivity.
  - intros i Hi. unfold RingRegister.L in *.
    destruct (Nat.eq_dec i 13) as [->|Hne]; [cbn; lia|].
    rewrite Nat.mod_small by lia. lia.
Qed.

End WithTensor.

Lemma observables_indexing_witness :
  local_magn (list M2) (fun l => l) (3 - Z.of_nat RingRegister.L)
  = local_magn (list M2) (fun l => l) 3.
Proof.
  apply (observables_indexing (list M2) (fun l => l) 3 0).
  unfold RingRegister.L. cbn. lia.
Defined.

End ObservablesFacts.

(** * The median of the positive entries *)

Module AmplitudeFacts.
Import Np PySort Amplitude SortFacts.

Lemma StronglySorted_nth (l : list R) (i j : nat) :
  StronglySorted (fun a b => Rleb a b = true) l ->
  (i <= j)%nat -> (j < length l)%nat -> nth i l 0 <= nth j l 0.
Proof.
  intros Hs. revert i j. induction Hs as [|x l Hl IH Hx]; intros i j Hij Hj.
  - cbn in Hj. lia.
  - destruct j as [|j]; [replace i with 0%nat by lia; lra|].
    destruct i as [|i].
    + cbn [nth]. apply Rleb_le. rewrite Forall_forall in Hx.
      apply Hx. apply nth_In. cbn in Hj. lia.
    + cbn [nth]. apply IH; cbn in Hj; lia.
Qed.

Lemma positive_entries_pos (Q : matrix) (x : R) :
  In x (positive_entries Q) <-> In x (concat Q) /\ 0 < x.
Proof.
  unfold positive_entries. rewrite filter_In.
  destruct (Rlt_dec 0 x); split; intros [H1 H2]; split;
    try assumption; try reflexivity; try discriminate; contradiction.
Qed.

(** The median of a non-empty list lies between its least and its greatest
    element. *)
Lemma np_median_between (l : vector) :
  l <> [] ->
  exists m lo hi,
    np_median l = Some m /\ In lo l /\ In hi l
    /\ (forall x, In x l -> lo <= x <= hi) /\ lo <= m <= hi.
Proof.
  intros Hne. unfold np_median.
  pose proof (sorted_perm Rleb l) as Hp.
  pose proof (sorted_sorted Rleb Rleb_total Rleb_trans l) as Hs.
  set (s := sorted Rleb l) in *.
  assert (length s = length l) as Hlen by (symmetry; apply Permutation_length, Hp).
  assert (0 < length s)%nat as Hpos.
  { rewrite Hlen. destruct l; [congruence|cbn; lia]. }
  destruct (length s =? 0)%nat eqn:E0; [apply Nat.eqb_eq in E0; lia|].
  assert (forall i, (i < length s)%nat ->
                    nth 0 s 0 <= nth i s 0 <= nth (length s - 1) s 0) as Hb.
  { intros i Hi. split; apply StronglySorted_nth; try exact Hs; lia. }
  assert (length s / 2 < length s)%nat as Hhalf
    by (apply Nat.div_lt; lia).
  set (h := (length s / 2)%nat) in *.
  assert (h - 1 < length s)%nat as Hhalf' by (clearbody h; lia).
  assert (In (nth 0 s 0) l) as Hlo
    by (apply (Permutation_in _ (Permutation_sym Hp)), nth_In; lia).
  assert (In (nth (length s - 1) s 0) l) as Hhi
    by (apply (Permutation_in _ (Permutation_sym Hp)), nth_In; lia).
  assert (forall x, In x l -> nth 0 s 0 <= x <= nth (length s - 1) s 0) as Hall.
  { intros x Hx. apply (Permutation_in _ Hp) in Hx.
    destruct (In_nth s x 0 Hx) as (i & Hi & <-). apply Hb. exact Hi. }
  destruct (Nat.even (length s)) eqn:Ev.
  - exists ((nth (h - 1) s 0 + nth h s 0) / 2),
      (nth 0 s 0), (nth (length s - 1) s 0).
    pose proof (Hb (h - 1)%nat Hhalf'). pose proof (Hb h Hhalf).
    split; [reflexivity|]. split; [exact Hlo|]. split; [exact Hhi|].
    split; [exact Hall|lra].
  - exists (nth h s 0), (nth 0 s 0), (nth (length s - 1) s 0).
    split; [reflexivity|]. split; [exact Hlo|]. split; [exact Hhi|].
    split; [exact Hall|apply Hb; exact Hhalf].
Qed.

(** X28: when [Q] has a positive entry, [Omega] has a value, it is
    positive, and it lies between the least and the greatest positive entry
    of [Q]; when [Q] has none, the median has no value. *)
Theorem Omega_between (Q : matrix) :
  ((exists x, In x (concat Q) /\ 0 < x) ->
   exists m lo hi,
     Omega Q = Some m /\ 0 < m
     /\ In lo (positive_entries Q) /\ In hi (positive_entries Q)
     /\ (forall x, In x (concat Q) -> 0 < x -> lo <= x <= hi)
     /\ lo <= m <= hi)
  /\ ((forall x, In x (concat Q) -> x <= 0) -> Omega Q = None).
Proof.
  split.
  - intros (x & Hx & Hpos).
    assert (positive_entries Q <> []) as Hne.
    { intros He. assert (In x (positive_entries Q)) as Hin
        by (apply positive_entries_pos; split; assumption).
      rewrite He in Hin. contradiction. }
    destruct (np_median_between _ Hne) as (m & lo & hi & Hm & Hlo & Hhi & Hall & Hb).
    exists m, lo, hi. split; [exact Hm|].
    assert (0 < lo) by (apply positive_entries_pos in Hlo; apply Hlo).
    split; [lra|]. split; [exact Hlo|]. split; [exact Hhi|].
    split; [|exact Hb].
    intros y Hy Hypos. apply Hall. apply positive_entries_pos. split; assumption.
  - intros Hnone. unfold Omega.
    assert (positive_entries Q = []) as ->; [|reflexivity].
    destruct (positive_entries Q) as [|y t] eqn:E; [reflexivity|].
    assert (In y (positive_entries Q)) as Hin by (rewrite E; left; reflexivity).
    apply positive_entries_pos in Hin. destruct Hin as [Hin Hpos].
    specialize (Hnone y Hin). lra.
Qed.

Lemma Omega_between_witness :
  exists m, Omega [[-10; 2]; [2; -10]] = Some m /\ 0 < m.
Proof.
  destruct (Omega_between [[-10; 2]; [2; -10]]) as [H _].
  destruct H as (m & lo & hi & Hm & Hpos & _).
  - exists 2. split; [cbn; tauto|lra].
  - exists m. split; assumption.
Defined.

End AmplitudeFacts.

(** * The points drawn on the Bloch sphere *)

Module BlochPointsFacts.
Import Np EmbeddingViews BlochPoints ListFacts EmbeddingMore.

Lemma chunks_one (l : vector) :
  chunks 1 (length l) l = map (fun e => [e]) l.
Proof.
  induction l as [|a l IH]; cbn [length chunks map]; [reflexivity|].
  cbn [firstn skipn]. rewrite IH. reflexivity.
Qed.

Lemma reshape_column (l : vector) (k : nat) :
  length l = k -> reshape l (k, 1%nat) = Some (map (fun e => [e]) l).
Proof.
  intros <-. unfold reshape. rewrite Nat.mul_1_r, Nat.eqb_refl, chunks_one.
  reflexivity.
Qed.

Lemma entry_scaled_column (r : R) (l : vector) (i : nat) :
  (i < length l)%nat ->
  entry (scale r (map (fun e => [e]) l)) i 0 = r * nth i l 0.
Proof.
  intros Hi. unfold entry, scale. rewrite map_map. cbn [map].
  rewrite (nth_map_lt _ l i [] 0 Hi). reflexivity.
Qed.

Lemma length_scale (r : R) (A : matrix) : length (scale r A) = length A.
Proof. unfold scale. apply length_map. Qed.

Lemma length_flatten_outer (a b : vector) :
  length (flatten (outer a b)) = (length a * length b)%nat.
Proof.
  unfold flatten, outer. induction a as [|x a IH]; cbn [map concat length];
    [reflexivity|].
  rewrite length_app, length_map, IH. reflexivity.
Qed.

(** Point by point, the three flattened products lie on the unit sphere. *)
Lemma on_sphere (u v : vector) (i : nat) :
  (i < length u * length v)%nat ->
  nth i (flatten (outer (map cos u) (map sin v))) 0
  * nth i (flatten (outer (map cos u) (map sin v))) 0
  + nth i (flatten (outer (map sin u) (map sin v))) 0
    * nth i (flatten (outer (map sin u) (map sin v))) 0
  + nth i (flatten (outer (repeat 1 (length u)) (map cos v))) 0
    * nth i (flatten (outer (repeat 1 (length u)) (map cos v))) 0
  = 1.
Proof.
  revert i. unfold flatten, outer.
  induction u as [|a u IH]; intros i Hi; [cbn in Hi; lia|].
  cbn [map repeat length concat] in *.
  destruct (Nat.lt_ge_cases i (length v)) as [Hlt|Hge].
  - rewrite !app_nth1 by (rewrite !length_map; exact Hlt).
    rewrite !map_map.
    rewrite (nth_map_lt (fun y => cos a * sin y) v i 0 0 Hlt).
    rewrite (nth_map_lt (fun y => sin a * sin y) v i 0 0 Hlt).
    rewrite (nth_map_lt (fun y => 1 * cos y) v i 0 0 Hlt).
    pose proof (sin2_cos2 a) as Ha. pose proof (sin2_cos2 (nth i v 0)) as Hb.
    unfold Rsqr in Ha, Hb. nra.
  - rewrite !app_nth2 by (rewrite !length_map; exact Hge).
    rewrite !length_map. apply IH. lia.
Qed.

(** X29: for angle lists of one length the three coordinate arrays are
    built without error, each with one column and [n^2] rows, and every row
    [i] is a point at distance [r] from the centre:
    [x[i,0]^2 + y[i,0]^2 + z[i,0]^2 = r^2]. *)
Theorem points_on_sphere (u v : vector) (r : R) :
  length v = length u ->
  exists x y z,
    points_of u v r = Some (x, y, z)
    /\ length x = (length u * length u)%nat
    /\ length y = (length u * length u)%nat
    /\ length z = (length u * length u)%nat
    /\ forall i, (i < length u * length u)%nat ->
                 entry x i 0 * entry x i 0 + entry y i 0 * entry y i 0
                 + entry z i 0 * entry z i 0 = r * r.
Proof.
  intros Hlen. unfold points_of.
  rewrite !reshape_column
    by (rewrite length_flatten_outer, ?length_map, ?repeat_length, Hlen;
        reflexivity).
  cbn [Err.bind]. eexists _, _, _. split; [reflexivity|].
  rewrite !length_scale, !length_map, !length_flatten_outer,
    !length_map, repeat_length, Hlen.
  do 3 (split; [reflexivity|]).
  intros i Hi.
  rewrite !entry_scaled_column
    by (rewrite length_flatten_outer, ?length_map, ?repeat_length, Hlen;
        exact Hi).
  pose proof (on_sphere u v i) as H. rewrite Hlen in H. specialize (H Hi).
  nra.
Qed.

Lemma length_linspace (a b : R) (n : nat) : length (linspace a b n) = n.
Proof. unfold linspace. rewrite length_map, length_seq. reflexivity. Qed.

Lemma points_on_sphere_witness :
  exists x y z, sphere_points = Some (x, y, z) /\ length x = 400%nat.
Proof.
  destruct (points_on_sphere (linspace 0 (2 * PI) 20) (linspace 0 PI 20) 1)
    as (x & y & z & H & Hx & _).
  - rewrite !length_linspace. reflexivity.
  - exists x, y, z. split; [exact H|].
    rewrite Hx, length_linspace. reflexivity.
Defined.

End BlochPointsFacts.

(** * Which atoms of the ring are within the blockade radius *)

Module BlockadeFacts.
Import RingRegister RingFacts.

Lemma distance_sym (p q : R * R) : distance p q = distance q p.
Proof. unfold distance. f_equal. ring. Qed.

(** The chord between two points of a circle of radius [k]. *)
Lemma distance_of_angles (k a b : R) :
  0 <= k ->
  distance (k * cos a, k * sin a) (k * cos b, k * sin b)
  = 2 * k * Rabs (sin ((a - b) / 2)).
Proof.
  intros Hk. unfold distance. cbn [fst snd].
  replace ((k * cos a - k * cos b) * (k * cos a - k * cos b)
           + (k * sin a - k * sin b) * (k * sin a - k * sin b))
    with (k * k * ((cos a - cos b) * (cos a - cos b)
                   + (sin a - sin b) * (sin a - sin b))) by ring.
  rewrite chord_sqr.
  replace (a - b) with (2 * ((a - b) / 2)) at 1 by field.
  rewrite cos_2a_sin.
  replace (k * k * (2 - 2 * (1 - 2 * sin ((a - b) / 2) * sin ((a - b) / 2))))
    with (Rsqr (2 * k * sin ((a - b) / 2))) by (unfold Rsqr; ring).
  rewrite sqrt_Rsqr_abs, !Rabs_mult.
  rewrite (Rabs_pos_eq 2) by lra. rewrite (Rabs_pos_eq k) by exact Hk.
  reflexivity.
Qed.

Lemma ring_scale_pos (R0 : R) :
  0 < R0 -> 0 < R0 / (2 * tan (PI / INR L)).
Proof.
  intros HR. destruct half_step_bounds as [Hlo Hhi].
  assert (0 < tan (PI / INR L)) by (apply tan_gt_0; lra).
  apply Rdiv_lt_0_compat; lra.
Qed.

(** The distance of two atoms [m] steps apart. *)
Lemma ring_distance_steps (R0 : R) (i j : nat) :
  0 < R0 -> (i < j)%nat -> (j < L)%nat ->
  distance (ring_point R0 i) (ring_point R0 j)
  = R0 * cos (PI / INR L) * sin (INR (j - i) * (PI / INR L))
    / sin (PI / INR L).
Proof.
  intros HR Hij Hj. unfold ring_point.
  pose proof (ring_scale_pos R0 HR) as Hk.
  destruct half_step_bounds as [Hlo Hhi].
  rewrite distance_of_angles by lra.
  assert (0 < sin (PI / INR L)) as Hs
    by (apply sin_gt_0; pose proof PI_RGT_0; lra).
  assert (0 < cos (PI / INR L)) as Hc
    by (apply cos_gt_0; pose proof PI_RGT_0; lra).
  replace ((INR i * 2 * PI / INR L - INR j * 2 * PI / INR L) / 2)
    with (- (INR (j - i) * (PI / INR L)))
    by (rewrite minus_INR by lia; rewrite INR_L; field).
  rewrite sin_neg, Rabs_Ropp.
  assert (0 < INR (j - i) * (PI / INR L) < PI) as Hm.
  { assert (INR 1 <= INR (j - i)) as H1 by (apply le_INR; lia).
    assert (INR (j - i) <= INR 13) as H13
      by (apply le_INR; unfold L in *; lia).
    simpl INR in H1, H13.
    rewrite INR_L in *. pose proof PI_RGT_0. split; nra. }
  rewrite Rabs_pos_eq by (left; apply sin_gt_0; lra).
  unfold tan. field. split; lra.
Qed.

Lemma cos_half_step_sqr : 1 / 2 < cos (PI / INR L) * cos (PI / INR L).
Proof.
  pose proof PI_RGT_0 as Hpi.
  assert (cos (PI / 4) < cos (PI / INR L)) as Hlt
    by (apply cos_decreasing_1; rewrite ?INR_L; lra).
  rewrite cos_PI4 in Hlt.
  assert (0 < sqrt 2) as Hs2 by (apply sqrt_lt_R0; lra).
  assert (sqrt 2 * sqrt 2 = 2) as Hsq by (apply sqrt_sqrt; lra).
  assert (0 < 1 / sqrt 2) as Hinv by (apply Rdiv_lt_0_compat; lra).
  assert (1 / sqrt 2 * (1 / sqrt 2) = 1 / 2) as Hhalf by (field_simplify; [rewrite ?Hsq|]; try lra; replace (sqrt 2 ^ 2) with (sqrt 2 * sqrt 2) by ring; rewrite Hsq; lra).
  nra.
Qed.

(** The sine of [m] steps, for [m] between 2 and 12, is at least the sine
    of two steps. *)
Lemma sin_steps_lower (m : nat) :
  (2 <= m <= 12)%nat ->
  sin (2 * (PI / INR L)) <= sin (INR m * (PI / INR L)).
Proof.
  intros Hm. pose proof PI_RGT_0 as Hpi. rewrite INR_L.
  assert (INR 2 <= INR m) as H2 by (apply le_INR; lia).
  assert (INR m <= INR 12) as H12 by (apply le_INR; lia).
  simpl INR in H2, H12.
  destruct (Rle_dec (INR m) 7) as [H7|H7].
  - apply sin_incr_1; nra.
  - rewrite <- (sin_PI_x (INR m * (PI / 14))).
    apply sin_incr_1; nra.
Qed.

Lemma ring_far_apart (R0 : R) (i j : nat) :
  0 < R0 -> (i < j)%nat -> (j < L)%nat -> (2 <= j - i <= 12)%nat ->
  R0 < distance (ring_point R0 i) (ring_point R0 j).
Proof.
  intros HR Hij Hj Hm. rewrite (ring_distance_steps R0 i j HR Hij Hj).
  destruct half_step_bounds as [Hlo Hhi]. pose proof PI_RGT_0 as Hpi.
  assert (0 < sin (PI / INR L)) as Hs by (apply sin_gt_0; lra).
  assert (0 < cos (PI / INR L)) as Hc by (apply cos_gt_0; lra).
  pose proof (sin_steps_lower (j - i) Hm) as Hlow.
  rewrite sin_2a in Hlow. pose proof cos_half_step_sqr as Hsq.
  apply (Rmult_lt_reg_r (sin (PI / INR L))); [exact Hs|].
  unfold Rdiv. rewrite Rmult_assoc, Rinv_l, Rmult_1_r by lra.
  assert (0 < R0 * sin (PI / INR L)
              * (2 * (cos (PI / INR L) * cos (PI / INR L)) - 1)) as Hgap
    by (apply Rmult_lt_0_compat; [apply Rmult_lt_0_compat|]; lra).
  assert (0 < R0 * cos (PI / INR L)) as Hrc
    by (apply Rmult_lt_0_compat; lra).
  pose proof (Rmult_le_compat_l _ _ _ (Rlt_le _ _ Hrc) Hlow) as Hmul.
  assert (R0 * cos (PI / INR L) * (2 * sin (PI / INR L) * cos (PI / INR L))
          = R0 * sin (PI / INR L)
            + R0 * sin (PI / INR L)
              * (2 * (cos (PI / INR L) * cos (PI / INR L)) - 1)) as Heq
    by ring.
  lra.
Qed.

Lemma ring_close (R0 : R) (i j : nat) :
  0 < R0 -> (i < j)%nat -> (j < L)%nat -> (j - i = 1 \/ j - i = 13)%nat ->
  distance (ring_point R0 i) (ring_point R0 j) < R0.
Proof.
  intros HR Hij Hj Hm. pose proof cos_half_step_lt_1 as Hc1.
  destruct Hm as [Hm|Hm].
  - replace j with (S i) by lia. rewrite ring_point_next by lra. nra.
  - assert (i = 0%nat) as -> by (unfold L in *; lia).
    assert (j = (L - 1)%nat) as -> by (unfold L in *; lia).
    rewrite distance_sym, ring_point_wrap by lra. nra.
Qed.

(** For two atoms in order: closer than the radius iff one or thirteen
    steps apart. *)
Lemma ring_pair_ordered (R0 : R) (i j : nat) :
  0 < R0 -> (i < j)%nat -> (j < L)%nat ->
  (distance (ring_point R0 i) (ring_point R0 j) < R0
   <-> (j - i = 1 \/ j - i = 13)%nat).
Proof.
  intros HR Hij Hj. split.
  - intros Hd.
    destruct (Nat.eq_dec (j - i) 1) as [H1|H1]; [left; exact H1|].
    destruct (Nat.eq_dec (j - i) 13) as [H13|H13]; [right; exact H13|].
    exfalso.
    assert (2 <= j - i <= 12)%nat as Hm by (unfold L in *; lia).
    pose proof (ring_far_apart R0 i j HR Hij Hj Hm). lra.
  - apply ring_close; assumption.
Qed.

(** X30: the atoms closer to each other than [R_interatomic] are exactly
    the neighbours on the ring: for two different atoms [i] and [j] of
    [coords], the distance is below [R_interatomic] iff [j = (i + 1) % L]
    or [i = (j + 1) % L]. *)
Theorem blockade_graph_is_ring (R_interatomic : R) (i j : nat) :
  0 < R_interatomic -> (i < L)%nat -> (j < L)%nat -> i <> j ->
  (distance (nth i (coords R_interatomic) (0, 0))
            (nth j (coords R_interatomic) (0, 0)) < R_interatomic
   <-> j = ((i + 1) mod L)%nat \/ i = ((j + 1) mod L)%nat).
Proof.
  intros HR Hi Hj Hne. rewrite !nth_coords by assumption.
  assert (forall a, (a < L)%nat ->
            ((a + 1) mod L = if (a =? 13) then 0 else a + 1)%nat) as Hmod.
  { intros a Ha. unfold L in *. destruct (a =? 13)%nat eqn:E.
    - apply Nat.eqb_eq in E. subst a. reflexivity.
    - apply Nat.eqb_neq in E. apply Nat.mod_small. lia. }
  rewrite (Hmod i Hi), (Hmod j Hj).
  destruct (Nat.lt_total i j) as [Hlt|[Heq|Hgt]]; [|contradiction|].
  - rewrite (ring_pair_ordered R_interatomic i j HR Hlt Hj).
    unfold L in *.
    destruct (i =? 13)%nat eqn:Ei; destruct (j =? 13)%nat eqn:Ej;
      rewrite ?Nat.eqb_eq, ?Nat.eqb_neq in *; lia.
  - rewrite distance_sym.
    rewrite (ring_pair_ordered R_interatomic j i HR Hgt Hi).
    unfold L in *.
    destruct (i =? 13)%nat eqn:Ei; destruct (j =? 13)%nat eqn:Ej;
      rewrite ?Nat.eqb_eq, ?Nat.eqb_neq in *; lia.
Qed.

Lemma blockade_graph_is_ring_witness :
  ~ distance (nth 0 (coords 1) (0, 0)) (nth 2 (coords 1) (0, 0)) < 1.
Proof.
  intros H.
  apply (blockade_graph_is_ring 1 0 2) in H;
    [|lra|unfold L; lia|unfold L; lia|lia].
  cbn in H. lia.
Defined.

End BlockadeFacts.
